(** * lensedquasarsutilities: the blind image-fitting model

    A shallow embedding of [lensedquasarsutilities/image_fitting_blind.py]
    (class [SimpleLensedQuasarModel]) and the properties of its forward
    model: the point-source renderer, the Sérsic renderer, the composite
    multi-band model, the residual engine and the constructor.

    Conventions of the embedding.
    - Python floats are values of a type [F] that implements the interface
      [Arith] (and [Elementary] for sqrt, exp, cos, sin, power).  The model
      is written once, generically; it is run on exact rationals ([Q]) and
      reasoned about on the reals ([R]).  Neither instance has NaN or
      infinities: where the Python code would produce one, the theorems
      carry the hypothesis that excludes it.
    - A numpy / jax array is a record of its shape and its row-major
      contents, as numpy stores it.
    - A Python exception is a value of [exn]; code that can raise returns a
      [result].
    - Arrays that the constructor mutates in place live in a store indexed
      by object identity, so that two names for one array are one cell. *)

From Stdlib Require Import QArith Qabs Qround Qcanon Qcabs Reals Lra Lia ZArith.
From stdpp Require Import gmap strings list.

#[local] Open Scope Z_scope.
#[local] Open Scope nat_scope.

(** ** Floating-point interface *)

Class Arith (F : Type) := {
  lit : Q -> F;
  fadd : F -> F -> F;
  fsub : F -> F -> F;
  fmul : F -> F -> F;
  fdiv : F -> F -> F;
  fneg : F -> F;
  fabs : F -> F;
  fleb : F -> F -> bool;
  fltb : F -> F -> bool;
  feqb : F -> F -> bool;
  fisnan : F -> bool;
  ffloor : F -> Z
}.

Class Elementary (F : Type) := {
  fsqrt : F -> F;
  fexp : F -> F;
  fcos : F -> F;
  fsin : F -> F;
  fpow : F -> F -> F;
  fradians : F -> F
}.

Declare Scope float_scope.
Delimit Scope float_scope with fl.
Infix "+" := fadd : float_scope.
Infix "-" := fsub : float_scope.
Infix "*" := fmul : float_scope.
Infix "/" := fdiv : float_scope.
Notation "- x" := (fneg x) : float_scope.

(** Conversion of a Python [int] that meets a float in an expression. *)
Definition of_int {F} `{Arith F} (z : Z) : F := lit (inject_Z z).
Definition of_nat {F} `{Arith F} (n : nat) : F := of_int (Z.of_nat n).

(** Exact rational arithmetic. *)
#[export] Instance Q_arith : Arith Q := {
  lit q := q;
  fadd := Qplus;
  fsub := Qminus;
  fmul := Qmult;
  fdiv := Qdiv;
  fneg := Qopp;
  fabs := Qabs;
  fleb := Qle_bool;
  fltb x y := negb (Qle_bool y x);
  feqb := Qeq_bool;
  fisnan _ := false;
  ffloor := Qfloor
}.

(** Exact rational arithmetic on fractions in lowest terms; the same
    numbers as [Q], each with one representation, which keeps the numerals
    of a long computation small. *)
#[export] Instance Qc_arith : Arith Qc := {
  lit := Q2Qc;
  fadd := Qcplus;
  fsub := Qcminus;
  fmul := Qcmult;
  fdiv := Qcdiv;
  fneg := Qcopp;
  fabs := Qcabs;
  fleb x y := Qle_bool x y;
  fltb x y := negb (Qle_bool y x);
  feqb := Qc_eq_bool;
  fisnan _ := false;
  ffloor x := Qfloor x
}.

(** Real arithmetic. *)
Definition Rleb (x y : R) : bool := if Rle_dec x y then true else false.
Definition Rltb (x y : R) : bool := if Rlt_dec x y then true else false.
Definition Reqb (x y : R) : bool := if Req_dec_T x y then true else false.

(** [x ** y] for a base that is not negative, with [0 ** y = 0] for a
    positive exponent as in IEEE arithmetic. *)
Definition Rpow (x y : R) : R :=
  if Req_dec_T x 0 then (if Req_dec_T y 0 then 1%R else 0%R) else Rpower x y.

#[export] Instance R_arith : Arith R := {
  lit := Q2R;
  fadd := Rplus;
  fsub := Rminus;
  fmul := Rmult;
  fdiv := Rdiv;
  fneg := Ropp;
  fabs := Rabs;
  fleb := Rleb;
  fltb := Rltb;
  feqb := Reqb;
  fisnan _ := false;
  ffloor := Int_part
}.

#[export] Instance R_elementary : Elementary R := {
  fsqrt := sqrt;
  fexp := exp;
  fcos := cos;
  fsin := sin;
  fpow := Rpow;
  fradians x := (x * PI / 180)%R
}.

(** ** Exceptions *)

Inductive exn : Type :=
  | AssertionError
  | ValueError
  | IndexError
  | KeyError (key : string)
  | TypeError.

Inductive result (A : Type) : Type :=
  | Ok (a : A)
  | Raise (e : exn).
Arguments Ok {A} a.
Arguments Raise {A} e.

#[export] Instance result_ret : MRet result := fun _ a => Ok a.
#[export] Instance result_bind : MBind result := fun _ _ f m =>
  match m with Ok a => f a | Raise e => Raise e end.
#[export] Instance result_fmap : FMap result := fun _ _ f m =>
  match m with Ok a => Ok (f a) | Raise e => Raise e end.

Definition assert (b : bool) : result unit :=
  if b then Ok tt else Raise AssertionError.

Fixpoint for_each {A B} (f : A -> result B) (l : list A) : result (list B) :=
  match l with
  | [] => Ok []
  | a :: l' => b ← f a; bs ← for_each f l'; Ok (b :: bs)
  end.

(** ** Arrays *)

Record ndarray (A : Type) : Type := Array { shape : list nat; flat : list A }.
Arguments Array {A} shape flat.
Arguments shape {A} _.
Arguments flat {A} _.

Definition prod_list (l : list nat) : nat := foldr Nat.mul 1 l.

(** [a.size] *)
Definition size_of {A} (a : ndarray A) : nat := prod_list (shape a).

(** The contents fill the shape. *)
Definition well_shaped {A} (a : ndarray A) : Prop := length (flat a) = size_of a.

Definition array_map {A B} (f : A -> B) (a : ndarray A) : ndarray B :=
  Array (shape a) (map f (flat a)).

(** Elementwise binary operation on two arrays of one shape. *)
Definition array_zip {A B C} (f : A -> B -> C) (a : ndarray A) (b : ndarray B) : ndarray C :=
  Array (shape a) (zip_with f (flat a) (flat b)).

(** Stacking equally shaped arrays along a new leading axis, and the
    slices of an array along its leading axis. *)
Definition stack {A} (sh : list nat) (l : list (ndarray A)) : ndarray A :=
  Array (length l :: sh) (concat (map flat l)).

Fixpoint chunks {A} (n k : nat) (l : list A) : list (list A) :=
  match n with
  | O => []
  | S n' => take k l :: chunks n' k (drop k l)
  end.

Definition unstack {A} (a : ndarray A) : list (ndarray A) :=
  match shape a with
  | [] => []
  | n :: sh => map (Array sh) (chunks n (prod_list sh) (flat a))
  end.

Definition shape_eqb (s1 s2 : list nat) : bool := bool_decide (s1 = s2).

(** ** Parameter sets

    The models take a Python dict whose values are numbers, tuples of
    numbers, or (for the galaxy group) another dict. *)

#[local] Unset Elimination Schemes.
Inductive pyval (F : Type) : Type :=
  | PNum (x : F)
  | PSeq (xs : list F)
  | PDict (d : gmap string (pyval F)).
#[local] Set Elimination Schemes.
Arguments PNum {F} x.
Arguments PSeq {F} xs.
Arguments PDict {F} d.

(** [len(v)] *)
Definition py_len {F} (v : pyval F) : result nat :=
  match v with
  | PNum _ => Raise TypeError
  | PSeq xs => Ok (length xs)
  | PDict d => Ok (size d)
  end.

(** [v[key]] for a string key *)
Definition getitem {F} (v : pyval F) (key : string) : result (pyval F) :=
  match v with
  | PDict d => match d !! key with Some w => Ok w | None => Raise (KeyError key) end
  | _ => Raise IndexError
  end.

(** [v[i]] for an integer index that is not negative *)
Definition index {F} (v : pyval F) (i : nat) : result F :=
  match v with
  | PSeq xs => match xs !! i with Some x => Ok x | None => Raise IndexError end
  | PNum _ => Raise IndexError
  | PDict _ => Raise (KeyError "")
  end.

(** a value used as a scalar *)
Definition scalar {F} (v : pyval F) : result F :=
  match v with
  | PNum x => Ok x
  | _ => Raise TypeError
  end.

(** [a, b = v], [a, b, c = v], [a, b, c, d = v] *)
Definition unpack2 {F} (v : pyval F) : result (F * F) :=
  match v with
  | PSeq [a; b] => Ok (a, b)
  | PSeq _ => Raise ValueError
  | PDict _ => Raise ValueError
  | PNum _ => Raise TypeError
  end.

Definition unpack3 {F} (v : pyval F) : result (F * F * F) :=
  match v with
  | PSeq [a; b; c] => Ok (a, b, c)
  | PSeq _ => Raise ValueError
  | PDict _ => Raise ValueError
  | PNum _ => Raise TypeError
  end.

Definition unpack4 {F} (v : pyval F) : result (F * F * F * F) :=
  match v with
  | PSeq [a; b; c; d] => Ok (a, b, c, d)
  | PSeq _ => Raise ValueError
  | PDict _ => Raise ValueError
  | PNum _ => Raise TypeError
  end.

(** The number of scalars in a parameter set, [len(flatten(params))]. *)
Fixpoint flatten_count {F} (v : pyval F) : nat :=
  match v with
  | PNum _ => 1
  | PSeq xs => length xs
  | PDict d => map_fold (fun _ w acc => flatten_count w + acc) 0 d
  end.

(** ** Library routines the model calls

    [jax.image.scale_and_translate], [scipy.ndimage.gaussian_filter],
    [numpy.nanpercentile], [numpy.arange] and [numpy.meshgrid] are not part
    of the repository; they are written out here as the libraries define
    them, for the arguments the model passes. *)

Section Library.
Context {F : Type} `{Arith F} `{Elementary F}.
#[local] Open Scope float_scope.

(** [jnp.sum] *)
Definition fsum (l : list F) : F := foldr fadd (lit 0) l.

Definition fmax (x y : F) : F := if fleb x y then y else x.

(** *** jax.image.scale_and_translate, method ['bicubic'] *)

(** Keys' cubic convolution kernel. *)
Definition keys_cubic_kernel (x : F) : F :=
  if fleb (lit 2) x then lit 0
  else if fleb (lit 1) x then
    ((- lit 0.5 * x + lit 2.5) * x - lit 4) * x + lit 2
  else ((lit 1.5 * x - lit 2.5) * x) * x + lit 1.

(** The place in the input, in index coordinates, that output sample [i]
    reads: the inverse of [x ↦ x * scale + translation] on half-centred
    pixels. *)
Definition sample_position (scale translation : F) (i : nat) : F :=
  let inv_scale := lit 1 / scale in
  (of_nat i + lit 0.5) * inv_scale - translation * inv_scale - lit 0.5.

(** [1000 * eps] of single precision *)
Definition weight_floor : Q := (1000 # 8388608)%Q.

(** Column [i] of [compute_weight_mat]: the weight of each of the
    [input_size] input samples in output sample [i] (antialiasing on). *)
Definition weight_column (input_size : nat) (scale translation : F) (i : nat) : list F :=
  let inv_scale := lit 1 / scale in
  let kernel_scale := fmax inv_scale (lit 1) in
  let sample_f := sample_position scale translation i in
  let weights :=
    map (fun j => keys_cubic_kernel (fabs (sample_f - of_nat j) / kernel_scale))
        (seq 0 input_size) in
  let total := fsum weights in
  let weights :=
    if fltb (lit weight_floor) (fabs total)
    then map (fun w => w / (if feqb total (lit 0) then lit 1 else total)) weights
    else map (fun _ => lit 0) weights in
  if fleb (- lit 0.5) sample_f && fleb sample_f (of_nat input_size - lit 0.5)
  then weights
  else map (fun _ => lit 0) weights.

(** Row [i] of a two-dimensional array stored row-major. *)
Definition row {A} (ncols : nat) (l : list A) (i : nat) : list A :=
  take ncols (drop (i * ncols) l).

Definition dot (u v : list F) : F := fsum (zip_with fmul u v).

(** The resampled image: the contraction of the input with one weight
    matrix per axis.  [shape] must have as many axes as the image. *)
Definition scale_and_translate (image : ndarray F) (out_shape : list nat)
    (scale translation : F * F) : result (ndarray F) :=
  match shape image, out_shape with
  | [m0; m1], [n0; n1] =>
      let w0 := weight_column m0 (fst scale) (fst translation) in
      let w1 := weight_column m1 (snd scale) (snd translation) in
      Ok (Array out_shape
            (a ← seq 0 n0;
             (fun b =>
                dot (w0 a) (map (fun i => dot (row m1 (flat image) i) (w1 b)) (seq 0 m0)))
               <$> seq 0 n1))
  | _, _ => Raise ValueError
  end.

(** *** scipy.ndimage.gaussian_filter, scalar [sigma], mode ['reflect'] *)

(** The half-width of the kernel, [int(truncate * sigma + 0.5)] with
    [truncate = 4.0]. *)
Definition kernel_radius (sigma : Q) : nat :=
  Z.to_nat (Qfloor (4 * sigma + 0.5)).

Definition gaussian_kernel1d (sigma : Q) (radius : nat) : list F :=
  let sigma2 := lit sigma * lit sigma in
  let phi :=
    map (fun k : nat =>
           let x := (Z.of_nat k - Z.of_nat radius)%Z in
           fexp (- lit 0.5 / sigma2 * of_int (x * x)))
        (seq 0 (2 * radius + 1)) in
  map (fun p => p / fsum phi) phi.

(** The index inside [0, n) that position [i] of the reflected extension
    [(d c b a | a b c d | d c b a)] stands for. *)
Definition reflect (n : nat) (i : Z) : nat :=
  let k := Z.to_nat (i mod (2 * Z.of_nat n)) in
  if decide (k < n) then k else 2 * n - 1 - k.

(** Correlation of the lines of an array along one axis; the axis has
    length [n] and its consecutive elements are [stride] apart. *)
Definition correlate1d (weights : list F) (radius n stride : nat) (l : list F) : list F :=
  map (fun p =>
         let c := (p / stride) mod n in
         fsum (imap (fun j w =>
                       let r := reflect n (Z.of_nat c + Z.of_nat j - Z.of_nat radius) in
                       w * nth (p - c * stride + r * stride) l (lit 0))
                    weights))
      (seq 0 (length l)).

(** The filter runs along every axis of the input in turn. *)
Fixpoint filter_axes (weights : list F) (radius : nat) (sh : list nat) (l : list F) : list F :=
  match sh with
  | [] => l
  | n :: sh' => filter_axes weights radius sh' (correlate1d weights radius n (prod_list sh') l)
  end.

Definition gaussian_filter (input : ndarray F) (sigma : Q) : ndarray F :=
  let radius := kernel_radius sigma in
  Array (shape input)
        (filter_axes (gaussian_kernel1d sigma radius) radius (shape input) (flat input)).

(** *** numpy.nanpercentile, default (linear) method *)

Fixpoint insert_sorted (x : F) (l : list F) : list F :=
  match l with
  | [] => [x]
  | y :: l' => if fleb x y then x :: l else y :: insert_sorted x l'
  end.

Definition sort (l : list F) : list F := foldr insert_sorted [] l.

Definition lerp (a b t : F) : F :=
  if fleb (lit 0.5) t then b - (b - a) * (lit 1 - t) else a + (b - a) * t.

Definition nanpercentile (a : list F) (q : F) : F :=
  let arr := sort (filter (fun x => fisnan x = false) a) in
  match length arr with
  | O => lit 0 / lit 0
  | S n1 =>
      let virtual := of_nat n1 * (q / lit 100) in
      let previous := Z.to_nat (ffloor virtual) in
      if decide (n1 <= previous) then nth n1 arr (lit 0)
      else lerp (nth previous arr (lit 0)) (nth (S previous) arr (lit 0))
                (virtual - of_nat previous)
  end.

(** *** numpy.arange and numpy.meshgrid *)

Definition arange (start stop : Z) : list Z :=
  map (fun k => (start + Z.of_nat k)%Z) (seq 0 (Z.to_nat (stop - start))).

Definition meshgrid (x y : list Z) : ndarray Z * ndarray Z :=
  (Array [length y; length x] (concat (map (fun _ => x) y)),
   Array [length y; length x] (concat (map (fun yi => map (fun _ => yi) x) y))).

End Library.

(** ** The class SimpleLensedQuasarModel *)

(** Identity of a numpy array passed in by the caller. *)
Definition loc := nat.

Section Model.
Context {F : Type} `{Arith F} `{Elementary F}.
#[local] Open Scope float_scope.

Record SimpleLensedQuasarModel : Type := Instance {
  scale : F;
  data : loc;
  noisemap : loc;
  upsampling_factor : Z;
  bands : list string;
  psf : ndarray F;
  X : ndarray Z;
  Y : ndarray Z;
  param_optim_with_galaxy : option (pyval F);
  param_optim_no_galaxy : option (pyval F);
  param_mediansampler_no_galaxy : option (pyval F);
  param_mediansampler_with_galaxy : option (pyval F)
}.

(** The arrays of the caller, by identity. *)
Definition store : Type := loc -> ndarray F.

Definition store_set (h : store) (l : loc) (a : ndarray F) : store :=
  fun l' => if decide (l' = l) then a else h l'.

(** [a /= c], in place *)
Definition idiv (h : store) (l : loc) (c : F) : store :=
  store_set h l (array_map (fun v => v / c) (h l)).

(** [__init__].  The constructor returns the new instance, or raises, and
    in both cases leaves the store as its in-place divisions made it. *)
Definition __init__ (data noisemap narrowpsf : loc) (upsampling_factor : Z)
    (bandnames : list string) (h : store) : result SimpleLensedQuasarModel * store :=
  let shape_ := shape (h data) in
  if negb (shape_eqb shape_ (shape (h noisemap))) then (Raise AssertionError, h) else
  (* here we scale!! *)
  let scale := nanpercentile (flat (h data)) (lit 99.9) in
  let h := idiv h data scale in
  let h := idiv h noisemap scale in
  (match shape_ with
   | [nband; Nx; Ny] =>
       match shape (h narrowpsf) with
       | [nband2; nx; ny] =>
           if negb (bool_decide (nband = nband2) && bool_decide (nband2 = length bandnames))
           then Raise AssertionError
           else
             let psf := gaussian_filter (h narrowpsf) 0.85 in
             let x := arange (- Z.of_nat Ny / 2) (Z.of_nat Ny / 2) in
             let y := arange (- Z.of_nat Nx / 2) (Z.of_nat Nx / 2) in
             let '(X, Y) := meshgrid x y in
             Ok (Instance scale data noisemap upsampling_factor bandnames psf X Y
                          None None None None)
       | _ => Raise ValueError
       end
   | _ => Raise ValueError
   end, h).

Section Methods.
Variable self : SimpleLensedQuasarModel.

Definition elliptical_sersic_profile (I_e r_e x0 y0 ellip theta : F) : ndarray F :=
  (* Ellipticity and orientation parameters *)
  let q := lit 1 - ellip in
  let theta := fradians theta in
  array_zip
    (fun Xv Yv =>
       let xt := (of_int Xv - x0) * fcos theta + (of_int Yv - y0) * fsin theta in
       let yt := (of_int Yv - y0) * fcos theta - (of_int Xv - x0) * fsin theta in
       (* radius *)
       let r := fsqrt (xt * xt + (yt / q) * (yt / q)) in
       (* sersic profile; let's fix n ... *)
       let n := lit 3 in
       let bn := lit 1.9992 * n - lit 0.3271 in
       I_e * fexp (- bn * (fpow (r / r_e) (lit 1 / n) - lit 1)))
    (X self) (Y self).

Definition translate_and_scale_psf (dx dy amplitude : F) (psf : ndarray F)
    : result (ndarray F) :=
  let outshape := shape (X self) in
  let supersampling := of_int (upsampling_factor self) in
  let scale := (lit 1 / supersampling, lit 1 / supersampling) in
  match shape psf !! 1, outshape !! 0, outshape !! 1 with
  | Some inishape, Some outshape0, Some outshape1 =>
      (* assuming square psf *)
      let outoffset := (of_nat inishape / lit 2) / supersampling in
      let outoffsetx :=
        outoffset + of_int (Z.of_nat outshape0 - Z.of_nat inishape) / supersampling in
      let outoffsety :=
        outoffset + of_int (Z.of_nat outshape1 - Z.of_nat inishape) / supersampling in
      let translation := (dy + outoffsetx, dx + outoffsety) in
      out ← scale_and_translate psf outshape scale translation;
      Ok (array_map (fmul amplitude) out)
  | _, _, _ => Raise IndexError
  end.

(** [jax.vmap] of a function of three scalars and an array over the
    leading axis of its arguments, which must all have one length. *)
Definition stack_results (rs : list (ndarray F)) : ndarray F :=
  match rs with
  | [] => Array [0] []
  | r :: _ => stack (shape r) rs
  end.

Definition vmap4 (f : F -> F -> F -> ndarray F -> result (ndarray F))
    (xs ys amps : list F) (psfs : list (ndarray F)) : result (ndarray F) :=
  if bool_decide (length xs = length ys) && bool_decide (length ys = length amps)
     && bool_decide (length amps = length psfs)
  then rs ← for_each (fun '(x, y, a, p) => f x y a p)
                     (zip (zip (zip xs ys) amps) psfs);
       Ok (stack_results rs)
  else Raise ValueError.

Definition vmap3 (f : F -> F -> F -> ndarray F) (xs ys ies : list F) : result (ndarray F) :=
  if bool_decide (length xs = length ys) && bool_decide (length ys = length ies)
  then Ok (stack_results (map (fun '(x, y, ie) => f x y ie) (zip (zip xs ys) ies)))
  else Raise ValueError.

(** [[c] + [c + params[f'offsets_{band}'][k] for band in self.bands[1:]]] *)
Definition band_positions (params : pyval F) (c : F) (k : nat) : result (list F) :=
  rest ← for_each (fun band =>
                     off ← getitem params ("offsets_" +:+ band);
                     o ← index off k;
                     Ok (c + o))
                  (tail (bands self));
  Ok (c :: rest).

(** [[params[band][k] for band in self.bands]] *)
Definition band_amplitudes (params : pyval F) (k : nat) : result (list F) :=
  for_each (fun band => a ← getitem params band; index a k) (bands self).

Definition model_no_galaxy (params : pyval F) : result (ndarray F) :=
  pos ← getitem params "positions";
  '(x1, y1, x2, y2) ← unpack4 pos;
  A1s ← band_amplitudes params 0;
  A2s ← band_amplitudes params 1;
  xs1 ← band_positions params x1 0;
  ys1 ← band_positions params y1 1;
  xs2 ← band_positions params x2 0;
  ys2 ← band_positions params y2 1;
  let vecpsf := vmap4 translate_and_scale_psf in
  p1 ← vecpsf xs1 ys1 A1s (unstack (psf self));
  p2 ← vecpsf xs2 ys2 A2s (unstack (psf self));
  Ok (array_zip fadd p1 p2).

Definition model_with_galaxy (params : pyval F) : result (ndarray F) :=
  model ← model_no_galaxy params;
  galparams ← getitem params "galparams";
  gpos ← getitem galparams "positions";
  '(xg, yg) ← unpack2 gpos;
  morph ← getitem galparams "morphology";
  '(r_e, ellip, theta) ← unpack3 morph;
  let vecsersic :=
    vmap3 (fun x y ie => elliptical_sersic_profile ie r_e x y ellip theta) in
  I_es ← for_each (fun band => ie ← getitem galparams ("I_e_" +:+ band); scalar ie)
                  (bands self);
  xgs ← band_positions params xg 0;
  ygs ← band_positions params yg 1;
  g ← vecsersic xgs ygs I_es;
  Ok (array_zip fadd model g).

(** [((model - self.data) / self.noisemap).flatten()] *)
Definition normalised_residuals (h : store) (model : ndarray F) : result (list F) :=
  if shape_eqb (shape model) (shape (h (data self)))
     && shape_eqb (shape model) (shape (h (noisemap self)))
  then Ok (flat (array_zip fdiv (array_zip fsub model (h (data self)))
                           (h (noisemap self))))
  else Raise ValueError.

Definition residuals_with_galaxy (h : store) (params : pyval F) : result (list F) :=
  model ← model_with_galaxy params;
  normalised_residuals h model.

Definition residuals_no_galaxy (h : store) (params : pyval F) : result (list F) :=
  model ← model_no_galaxy params;
  normalised_residuals h model.

Definition reduced_chi2_no_galaxy (h : store) (params : pyval F) : result F :=
  residuals ← residuals_no_galaxy h params;
  let chi_squared := fsum (map (fun r => r * r) residuals) in
  n ← py_len params;
  let dof := (Z.of_nat (size_of (h (data self))) - Z.of_nat n)%Z in
  let reduced_chi_squared := chi_squared / of_int dof in
  Ok reduced_chi_squared.

Definition reduced_chi2_with_galaxy (h : store) (params : pyval F) : result F :=
  residuals ← residuals_with_galaxy h params;
  let chi_squared := fsum (map (fun r => r * r) residuals) in
  n ← py_len params;
  let dof := (Z.of_nat (size_of (h (data self))) - Z.of_nat n)%Z in
  let reduced_chi_squared := chi_squared / of_int dof in
  Ok reduced_chi_squared.

End Methods.
End Model.

Arguments SimpleLensedQuasarModel F : clear implicits.
Arguments store F : clear implicits.

(** * Properties *)

(** ** The Sérsic renderer *)

Section Sersic.
#[local] Open Scope R_scope.

Lemma lit_int (z : Z) : lit (inject_Z z) = IZR z.
Proof. cbn. unfold Q2R. cbn. lra. Qed.


Lemma rotation_preserves_norm (u v t : R) :
  (u * cos t + v * sin t) * (u * cos t + v * sin t)
  + (v * cos t - u * sin t) * (v * cos t - u * sin t) = u * u + v * v.
Proof.
  pose proof (sin2_cos2 t) as E. unfold Rsqr in E.
  replace ((u * cos t + v * sin t) * (u * cos t + v * sin t)
           + (v * cos t - u * sin t) * (v * cos t - u * sin t))
    with ((u * u + v * v) * (sin t * sin t + cos t * cos t)) by ring.
  rewrite E. ring.
Qed.

(** The value of the profile at one grid point, as the source computes it. *)
Definition sersic_value (I_e r_e x0 y0 ellip theta : R) (Xv Yv : Z) : R :=
  let q := 1 - ellip in
  let t := theta * PI / 180 in
  let xt := (IZR Xv - x0) * cos t + (IZR Yv - y0) * sin t in
  let yt := (IZR Yv - y0) * cos t - (IZR Xv - x0) * sin t in
  let r := sqrt (xt * xt + (yt / q) * (yt / q)) in
  I_e * exp (- (1.9992 * 3 - 0.3271) * (Rpow (r / r_e) (1 / 3) - 1)).

Lemma sersic_lookup (self : SimpleLensedQuasarModel R)
    (I_e r_e x0 y0 ellip theta : R) (k : nat) (Xv Yv : Z) :
  flat (X self) !! k = Some Xv ->
  flat (Y self) !! k = Some Yv ->
  flat (elliptical_sersic_profile self I_e r_e x0 y0 ellip theta) !! k
  = Some (sersic_value I_e r_e x0 y0 ellip theta Xv Yv).
Proof.
  intros HX HY. unfold elliptical_sersic_profile, array_zip. cbn [flat].
  rewrite lookup_zip_with, HX, HY. cbn [mbind option_bind].
  f_equal. unfold sersic_value, of_int. rewrite !lit_int.
  cbn [lit fadd fsub fmul fdiv fneg fsqrt fexp fcos fsin fpow fradians
       R_arith R_elementary].
  replace (Q2R 1) with 1 by (unfold Q2R; cbn; lra).
  replace (Q2R 3) with 3 by (unfold Q2R; cbn; lra).
  replace (Q2R 1.9992) with 1.9992 by (unfold Q2R; cbn; lra).
  replace (Q2R 0.3271) with 0.3271 by (unfold Q2R; cbn; lra).
  reflexivity.
Qed.


Definition one_pixel_model (x y : Z) : SimpleLensedQuasarModel R :=
  Instance 1 0%nat 1%nat 2 ["g"] (Array [1; 1; 1]%nat [1]) (Array [1; 1]%nat [x])
           (Array [1; 1]%nat [y]) None None None None.


End Sersic.

(** ** The point-source renderer *)

Section Renderer.
Context {F : Type} `{Arith F} `{Elementary F}.
#[local] Open Scope float_scope.

Lemma array_map_compose {A B C} (f : A -> B) (g : B -> C) (a : ndarray A) :
  array_map g (array_map f a) = array_map (fun x => g (f x)) a.
Proof. unfold array_map. cbn. by rewrite map_map. Qed.

Lemma array_map_ext {A B} (f g : A -> B) (a : ndarray A) :
  (forall x, f x = g x) -> array_map f a = array_map g a.
Proof. intros E. unfold array_map. f_equal. by apply map_ext. Qed.

(** C10. The amplitude multiplies the resampled image and enters nowhere
    else: for an arithmetic in which [1 * x = x], rendering with amplitude
    [a] is [a] times rendering with amplitude [1]. *)
Theorem render_homogeneous_in_amplitude (self : SimpleLensedQuasarModel F)
    (dx dy a : F) (p : ndarray F) :
  (forall x : F, lit 1 * x = x) ->
  translate_and_scale_psf self dx dy a p
  = array_map (fmul a) <$> translate_and_scale_psf self dx dy (lit 1) p.
Proof.
  intros Hone. unfold translate_and_scale_psf.
  destruct (shape p !! 1) as [inishape|]; [|reflexivity].
  destruct (shape (X self) !! 0) as [o0|]; [|reflexivity].
  destruct (shape (X self) !! 1) as [o1|]; [|reflexivity].
  destruct (scale_and_translate _ _ _ _) as [out|e]; [|reflexivity].
  cbn. f_equal. rewrite array_map_compose.
  apply array_map_ext. intros x. by rewrite Hone.
Qed.

End Renderer.

Lemma Q_one_mul (x : Q) : (lit 1 * x)%fl = x.
Proof. destruct x as [[|n|n] d]; reflexivity. Qed.

(** A model with a 3 x 3 pixel grid and one band, over the rationals. *)
Definition grid3 (s : Z) (bandnames : list string) (p : ndarray Q) : SimpleLensedQuasarModel Q :=
  let '(Xg, Yg) := meshgrid (arange (-3 / 2) (3 / 2)) (arange (-3 / 2) (3 / 2)) in
  Instance 1%Q 0 1 s bandnames p Xg Yg None None None None.

Lemma render_homogeneous_in_amplitude_witness :
  translate_and_scale_psf (grid3 2 ["g"] (Array [1; 2; 2] [1; 2; 2; 1]%Q)) 0%Q 0%Q 5%Q
                          (Array [2; 2] [1; 2; 2; 1]%Q)
  = array_map (fmul 5%Q)
      <$> translate_and_scale_psf (grid3 2 ["g"] (Array [1; 2; 2] [1; 2; 2; 1]%Q)) 0%Q 0%Q
                                  (lit 1) (Array [2; 2] [1; 2; 2; 1]%Q).
Proof.
  apply (render_homogeneous_in_amplitude (F:=Q)). exact Q_one_mul.
Defined.

(** ** Comprehensions, stacks and slices *)

Section Comprehension.
Context {A B : Type}.
Implicit Types (f : A -> result B) (l : list A) (bs : list B).

Lemma bind_Ok {C D} (m : result C) (k : C -> result D) (d : D) :
  m ≫= k = Ok d <-> exists c, m = Ok c /\ k c = Ok d.
Proof.
  destruct m as [c|e]; cbn; split.
  - intros E. by exists c.
  - by intros (c' & [= ->] & E).
  - discriminate.
  - by intros (c' & [=] & _).
Qed.

Lemma for_each_cons_Ok f a l bs :
  for_each f (a :: l) = Ok bs <->
  exists b bs', f a = Ok b /\ for_each f l = Ok bs' /\ bs = b :: bs'.
Proof.
  cbn [for_each]. rewrite bind_Ok. split.
  - intros (b & Eb & E). apply bind_Ok in E as (bs' & Ebs & [= <-]). by exists b, bs'.
  - intros (b & bs' & Eb & Ebs & ->). exists b. split; [done|]. by rewrite Ebs.
Qed.

Lemma for_each_length f l bs : for_each f l = Ok bs -> length bs = length l.
Proof.
  revert bs. induction l as [|a l IH]; intros bs.
  - by intros [= <-].
  - intros (b & bs' & _ & E & ->)%for_each_cons_Ok. cbn. f_equal. by apply IH.
Qed.

Lemma for_each_lookup f l bs i a :
  for_each f l = Ok bs -> l !! i = Some a ->
  exists b, f a = Ok b /\ bs !! i = Some b.
Proof.
  revert bs i. induction l as [|a' l IH]; intros bs i; [done|].
  intros (b & bs' & Eb & E & ->)%for_each_cons_Ok Hi.
  destruct i as [|i]; cbn in Hi.
  - injection Hi as ->. by exists b.
  - by apply (IH bs' i).
Qed.

Lemma for_each_total f l :
  Forall (fun a => exists b, f a = Ok b) l -> exists bs, for_each f l = Ok bs.
Proof.
  induction 1 as [|a l (b & Eb) _ (bs & Ebs)].
  - by exists [].
  - exists (b :: bs). apply for_each_cons_Ok. by exists b, bs.
Qed.

Lemma for_each_Forall f l bs (P : B -> Prop) :
  for_each f l = Ok bs -> (forall a b, f a = Ok b -> P b) -> Forall P bs.
Proof.
  intros E HP. revert bs E. induction l as [|a l IH]; intros bs.
  - intros [= <-]. constructor.
  - intros (b & bs' & Eb & E & ->)%for_each_cons_Ok. constructor; eauto.
Qed.

Lemma for_each_pure (g : A -> B) l : for_each (fun a => Ok (g a)) l = Ok (map g l).
Proof. induction l as [|a l IH]; [done|]. cbn. by rewrite IH. Qed.

End Comprehension.

Section Stacks.
Context {A : Type}.
Implicit Types (a b : ndarray A) (l : list (ndarray A)) (sh : list nat).

(** All arrays of a list have shape [sh] and contents to fill it. *)
Definition uniform sh l : Prop :=
  Forall (fun a => shape a = sh /\ well_shaped a) l.

Lemma chunks_length (n k : nat) (xs : list A) : length (chunks n k xs) = n.
Proof. revert xs. induction n as [|n IH]; intros xs; cbn; [done|]. by rewrite IH. Qed.

Lemma chunks_concat (k : nat) (ls : list (list A)) :
  Forall (fun xs => length xs = k) ls -> chunks (length ls) k (concat ls) = ls.
Proof.
  induction 1 as [|xs ls Hxs _ IH]; [done|]. cbn.
  rewrite take_app_length', drop_app_length' by done. by rewrite IH.
Qed.

Lemma concat_length_uniform (k : nat) (ls : list (list A)) :
  Forall (fun xs => length xs = k) ls -> length (concat ls) = length ls * k.
Proof.
  induction 1 as [|xs ls Hxs _ IH]; [done|]. cbn. rewrite length_app. lia.
Qed.

Lemma uniform_flat_lengths sh l :
  uniform sh l -> Forall (fun xs => length xs = prod_list sh) (map flat l).
Proof.
  intros Hu. apply Forall_map. eapply Forall_impl; [exact Hu|].
  intros a [Hs Hw]. unfold well_shaped, size_of in Hw. by rewrite Hw, Hs.
Qed.

Lemma stack_well_shaped sh l : uniform sh l -> well_shaped (stack sh l).
Proof.
  intros Hu. unfold well_shaped, size_of, stack. cbn.
  rewrite (concat_length_uniform (prod_list sh)) by by apply uniform_flat_lengths.
  by rewrite length_map.
Qed.

Lemma unstack_stack sh l : uniform sh l -> unstack (stack sh l) = l.
Proof.
  intros Hu. unfold unstack, stack. cbn.
  rewrite <- (length_map flat l).
  rewrite chunks_concat by by apply uniform_flat_lengths.
  rewrite map_map. rewrite <- (map_id l) at 2.
  apply map_ext_Forall. eapply Forall_impl; [exact Hu|].
  intros [s f] [Hs _]. cbn in *. by subst.
Qed.

End Stacks.

(** ** The composite model *)

Section Composite.
Context {F : Type} `{Arith F} `{Elementary F}.
Implicit Types (self : SimpleLensedQuasarModel F) (params : pyval F).

Lemma flat_map_rows_length {A B C} (g : A -> B -> C) (u : list A) (v : list B) :
  length (flat_map (fun a => map (g a) v) u) = length u * length v.
Proof.
  induction u as [|a u IH]; [done|]. cbn. rewrite length_app, length_map, IH. lia.
Qed.

Lemma scale_and_translate_shape (image : ndarray F) (out_shape : list nat)
    (sc tr : F * F) (out : ndarray F) :
  scale_and_translate image out_shape sc tr = Ok out ->
  shape out = out_shape /\ well_shaped out.
Proof.
  unfold scale_and_translate.
  destruct (shape image) as [|m0 [|m1 [|? ?]]]; try discriminate.
  destruct out_shape as [|n0 [|n1 [|? ?]]]; try discriminate.
  intros [= <-]. split; [done|].
  unfold well_shaped, size_of. cbn.
  rewrite flat_map_rows_length, !length_seq. lia.
Qed.

Lemma translate_and_scale_psf_shape self (dx dy a : F) (p out : ndarray F) :
  translate_and_scale_psf self dx dy a p = Ok out ->
  shape out = shape (X self) /\ well_shaped out.
Proof.
  unfold translate_and_scale_psf.
  destruct (shape p !! 1) as [inishape|]; [|discriminate].
  destruct (shape (X self) !! 0) as [o0|]; [|discriminate].
  destruct (shape (X self) !! 1) as [o1|]; [|discriminate].
  intros (r & Er & [= <-])%bind_Ok.
  apply scale_and_translate_shape in Er as [Es Ew]. split; [done|].
  unfold well_shaped, size_of, array_map in *. cbn. by rewrite length_map.
Qed.

Lemma translate_and_scale_psf_total self (dx dy a : F) (p : ndarray F) (Nx Ny nx ny : nat) :
  shape (X self) = [Nx; Ny] -> shape p = [nx; ny] ->
  exists out, translate_and_scale_psf self dx dy a p = Ok out.
Proof.
  intros EX Ep. unfold translate_and_scale_psf, scale_and_translate.
  rewrite EX, Ep. cbn. eauto.
Qed.

(** The images that [vmap] stacks: one call of [f] per index. *)
Lemma vmap4_Ok (f : F -> F -> F -> ndarray F -> result (ndarray F))
    (xs ys amps : list F) (psfs : list (ndarray F)) (r : ndarray F) :
  vmap4 f xs ys amps psfs = Ok r <->
  length xs = length ys /\ length ys = length amps /\ length amps = length psfs /\
  exists rs,
    for_each (fun '(x, y, a, p) => f x y a p) (zip (zip (zip xs ys) amps) psfs) = Ok rs
    /\ r = stack_results rs.
Proof.
  unfold vmap4.
  destruct (decide (length xs = length ys)) as [E1|N1];
    [rewrite (bool_decide_eq_true_2 _ E1) | rewrite (bool_decide_eq_false_2 _ N1)];
    [| split; [discriminate | intros (? & _); done]].
  destruct (decide (length ys = length amps)) as [E2|N2];
    [rewrite (bool_decide_eq_true_2 _ E2) | rewrite (bool_decide_eq_false_2 _ N2)];
    [| split; [discriminate | intros (_ & ? & _); done]].
  destruct (decide (length amps = length psfs)) as [E3|N3];
    [rewrite (bool_decide_eq_true_2 _ E3) | rewrite (bool_decide_eq_false_2 _ N3)];
    [| split; [discriminate | intros (_ & _ & ? & _); done]].
  cbn [andb]. rewrite bind_Ok. split.
  - intros (rs & E & [= <-]). eauto 10.
  - intros (_ & _ & _ & rs & E & ->). eauto.
Qed.

Lemma vmap3_Ok (f : F -> F -> F -> ndarray F) (xs ys ies : list F) (r : ndarray F) :
  vmap3 f xs ys ies = Ok r <->
  length xs = length ys /\ length ys = length ies /\
  r = stack_results (map (fun '(x, y, ie) => f x y ie) (zip (zip xs ys) ies)).
Proof.
  unfold vmap3.
  destruct (decide (length xs = length ys)) as [E1|N1];
    [rewrite (bool_decide_eq_true_2 _ E1) | rewrite (bool_decide_eq_false_2 _ N1)];
    [| split; [discriminate | intros (? & _); done]].
  destruct (decide (length ys = length ies)) as [E2|N2];
    [rewrite (bool_decide_eq_true_2 _ E2) | rewrite (bool_decide_eq_false_2 _ N2)];
    [| split; [discriminate | intros (_ & ? & _); done]].
  cbn [andb]. split; [intros [= <-]; eauto | intros (_ & _ & ->); eauto].
Qed.

Lemma stack_results_uniform (sh : list nat) (rs : list (ndarray F)) :
  rs <> [] -> uniform sh rs -> stack_results rs = stack sh rs.
Proof.
  destruct rs as [|r rs]; [done|]. intros _ Hu. cbn.
  apply Forall_inv in Hu as [-> _]. done.
Qed.

Lemma zip_with_concat {A B C} (f : A -> B -> C) (l1 : list (list A)) (l2 : list (list B)) :
  Forall2 (fun a b => length a = length b) l1 l2 ->
  zip_with f (concat l1) (concat l2) = concat (zip_with (zip_with f) l1 l2).
Proof.
  induction 1 as [|a b l1 l2 Hab _ IH]; [done|]. cbn.
  rewrite zip_with_app by done. by rewrite IH.
Qed.

(** The sum of two stacks is the stack of the sums. *)
Lemma array_zip_stack (f : F -> F -> F) (sh : list nat) (l1 l2 : list (ndarray F)) :
  uniform sh l1 -> uniform sh l2 -> length l1 = length l2 ->
  array_zip f (stack sh l1) (stack sh l2) = stack sh (zip_with (array_zip f) l1 l2)
  /\ uniform sh (zip_with (array_zip f) l1 l2).
Proof.
  intros H1. revert l2. induction H1 as [|a l1 [Hsa Hwa] H1 IH]; intros l2 H2 Hlen.
  - destruct l2; [|done]. split; [done|constructor].
  - destruct l2 as [|b l2]; [done|].
    apply Forall_cons in H2 as [[Hsb Hwb] H2]. injection Hlen as Hlen.
    destruct (IH l2 H2 Hlen) as [E Hu].
    assert (length (flat a) = length (flat b)) as Hab.
    { unfold well_shaped, size_of in *. congruence. }
    split.
    + unfold array_zip, stack in *. cbn in *.
      injection E as E1 E2. rewrite length_zip_with_l_eq in E1 |- * by lia.
      f_equal. rewrite zip_with_app by done. by rewrite E2.
    + constructor; [|done]. split; [done|].
      unfold well_shaped, size_of, array_zip in *. cbn.
      rewrite length_zip_with_l_eq by lia. done.
Qed.

(** *** Cross-band astrometry *)

(** The position, in band number [b] (named [band]), of a source whose
    shared position has coordinate [c] on axis [k]: [c] itself in the
    reference band, [c] plus the band's offset in every other band. *)
Definition band_shift params (c : F) (k : nat) (b : nat) (band : string) : result F :=
  match b with
  | O => Ok c
  | S _ => off ← getitem params ("offsets_" +:+ band); o ← index off k; Ok (fadd c o)
  end.

Lemma band_positions_spec self params (c : F) (k : nat) (ps : list F) :
  band_positions self params c k = Ok ps ->
  length ps = S (length (tail (bands self)))
  /\ forall b band, bands self !! b = Some band ->
       exists p, band_shift params c k b band = Ok p /\ ps !! b = Some p.
Proof.
  unfold band_positions. intros (rest & Erest & [= <-])%bind_Ok. split.
  - cbn. f_equal. by apply for_each_length in Erest.
  - intros [|b] band Hb.
    + by exists c.
    + assert (tail (bands self) !! b = Some band) as Hb'.
      { destruct (bands self); [done|]. exact Hb. }
      destruct (for_each_lookup _ _ _ _ _ Erest Hb') as (p & Ep & Hp).
      exists p. split; [exact Ep | exact Hp].
Qed.

Lemma band_amplitudes_spec self params (k : nat) (amps : list F) :
  band_amplitudes self params k = Ok amps ->
  length amps = length (bands self)
  /\ forall b band, bands self !! b = Some band ->
       exists a, (getitem params band ≫= fun v => index v k) = Ok a /\ amps !! b = Some a.
Proof.
  unfold band_amplitudes. intros E. split.
  - by apply for_each_length in E.
  - intros b band Hb. destruct (for_each_lookup _ _ _ _ _ E Hb) as (a & Ea & Ha).
    by exists a.
Qed.

Lemma vmap4_lookup (f : F -> F -> F -> ndarray F -> result (ndarray F))
    (xs ys amps : list F) (psfs rs : list (ndarray F)) (b : nat) (x y a : F) (p : ndarray F) :
  for_each (fun '(x, y, a, p) => f x y a p) (zip (zip (zip xs ys) amps) psfs) = Ok rs ->
  xs !! b = Some x -> ys !! b = Some y -> amps !! b = Some a -> psfs !! b = Some p ->
  exists r, f x y a p = Ok r /\ rs !! b = Some r.
Proof.
  intros E Hx Hy Ha Hp.
  assert (zip (zip (zip xs ys) amps) psfs !! b = Some (x, y, a, p)) as Hz.
  { repeat rewrite lookup_zip_with. by rewrite Hx, Hy, Ha, Hp. }
  destruct (for_each_lookup _ _ _ _ _ E Hz) as (r & Er & Hr). by exists r.
Qed.

Lemma zip4_length (xs ys amps : list F) (psfs : list (ndarray F)) :
  length xs = length ys -> length ys = length amps -> length amps = length psfs ->
  length (zip (zip (zip xs ys) amps) psfs) = length xs.
Proof. intros. repeat rewrite length_zip_with. lia. Qed.

(** What [model_no_galaxy] returns: one image per band, the sum of the two
    point sources rendered with the band's PSF and amplitudes at the band's
    positions. *)
Lemma model_no_galaxy_bands self params (m : ndarray F) :
  model_no_galaxy self params = Ok m ->
  exists x1 y1 x2 y2 imgs,
    (getitem params "positions" ≫= unpack4) = Ok (x1, y1, x2, y2)
    /\ m = stack (shape (X self)) imgs
    /\ uniform (shape (X self)) imgs
    /\ length imgs = length (bands self)
    /\ length imgs = length (unstack (psf self))
    /\ bands self <> []
    /\ forall b band, bands self !! b = Some band ->
         exists px1 py1 px2 py2 A1 A2 p r1 r2,
           band_shift params x1 0 b band = Ok px1
           /\ band_shift params y1 1 b band = Ok py1
           /\ band_shift params x2 0 b band = Ok px2
           /\ band_shift params y2 1 b band = Ok py2
           /\ (getitem params band ≫= fun v => index v 0) = Ok A1
           /\ (getitem params band ≫= fun v => index v 1) = Ok A2
           /\ unstack (psf self) !! b = Some p
           /\ translate_and_scale_psf self px1 py1 A1 p = Ok r1
           /\ translate_and_scale_psf self px2 py2 A2 p = Ok r2
           /\ imgs !! b = Some (array_zip fadd r1 r2).
Proof.
  unfold model_no_galaxy.
  intros (pos & Epos & E)%bind_Ok.
  apply bind_Ok in E as ([[[x1 y1] x2] y2] & Eun & E).
  apply bind_Ok in E as (A1s & EA1 & E).
  apply bind_Ok in E as (A2s & EA2 & E).
  apply bind_Ok in E as (xs1 & Exs1 & E).
  apply bind_Ok in E as (ys1 & Eys1 & E).
  apply bind_Ok in E as (xs2 & Exs2 & E).
  apply bind_Ok in E as (ys2 & Eys2 & E).
  apply bind_Ok in E as (p1 & Ep1 & E).
  apply bind_Ok in E as (p2 & Ep2 & [= <-]).
  apply vmap4_Ok in Ep1 as (L1 & L2 & L3 & rs1 & Ers1 & ->).
  apply vmap4_Ok in Ep2 as (L4 & L5 & L6 & rs2 & Ers2 & ->).
  apply band_amplitudes_spec in EA1 as [LA1 HA1].
  apply band_amplitudes_spec in EA2 as [LA2 HA2].
  apply band_positions_spec in Exs1 as [Lxs1 Hxs1].
  apply band_positions_spec in Eys1 as [Lys1 Hys1].
  apply band_positions_spec in Exs2 as [Lxs2 Hxs2].
  apply band_positions_spec in Eys2 as [Lys2 Hys2].
  pose proof (for_each_length _ _ _ Ers1) as Lrs1.
  pose proof (for_each_length _ _ _ Ers2) as Lrs2.
  rewrite zip4_length in Lrs1, Lrs2 by done.
  assert (uniform (shape (X self)) rs1) as U1.
  { eapply for_each_Forall; [exact Ers1|]. intros [[[x y] a] p] r Er.
    by apply translate_and_scale_psf_shape in Er. }
  assert (uniform (shape (X self)) rs2) as U2.
  { eapply for_each_Forall; [exact Ers2|]. intros [[[x y] a] p] r Er.
    by apply translate_and_scale_psf_shape in Er. }
  assert (bands self <> []) as Hne.
  { intros Eb. rewrite Eb in *. cbn in *. lia. }
  assert (rs1 <> []) as Hrs1 by (intros ->; cbn in *; lia).
  assert (rs2 <> []) as Hrs2 by (intros ->; cbn in *; lia).
  rewrite (stack_results_uniform _ _ Hrs1 U1), (stack_results_uniform _ _ Hrs2 U2).
  destruct (array_zip_stack fadd (shape (X self)) rs1 rs2 U1 U2 ltac:(lia)) as [Est Ust].
  exists x1, y1, x2, y2, (zip_with (array_zip fadd) rs1 rs2).
  split; [by rewrite Epos|].
  split; [exact Est|]. split; [exact Ust|].
  split; [rewrite length_zip_with; lia|].
  split; [rewrite length_zip_with; lia|].
  split; [exact Hne|].
  intros b band Hb.
  destruct (Hxs1 b band Hb) as (px1 & Epx1 & Hpx1).
  destruct (Hys1 b band Hb) as (py1 & Epy1 & Hpy1).
  destruct (Hxs2 b band Hb) as (px2 & Epx2 & Hpx2).
  destruct (Hys2 b band Hb) as (py2 & Epy2 & Hpy2).
  destruct (HA1 b band Hb) as (A1 & EA1 & HA1b).
  destruct (HA2 b band Hb) as (A2 & EA2 & HA2b).
  assert (exists p, unstack (psf self) !! b = Some p) as [p Hp].
  { apply lookup_lt_is_Some. apply lookup_lt_Some in HA1b. lia. }
  destruct (vmap4_lookup _ _ _ _ _ _ _ _ _ _ _ Ers1 Hpx1 Hpy1 HA1b Hp) as (r1 & Er1 & Hr1).
  destruct (vmap4_lookup _ _ _ _ _ _ _ _ _ _ _ Ers2 Hpx2 Hpy2 HA2b Hp) as (r2 & Er2 & Hr2).
  exists px1, py1, px2, py2, A1, A2, p, r1, r2.
  repeat (split; [done|]).
  by rewrite lookup_zip_with, Hr1, Hr2.
Qed.

(** *** The galaxy term *)

Definition enumerate {A} (l : list A) : list (nat * A) := zip (seq 0 (length l)) l.

(** The galaxy alone: for each band the Sérsic profile with the band's
    amplitude [I_e], the shared morphology, and the galaxy position moved by
    the band's offset (not moved in the reference band), stacked over the
    bands. *)
Definition galaxy_only_render self params : result (ndarray F) :=
  galparams ← getitem params "galparams";
  gpos ← getitem galparams "positions";
  '(xg, yg) ← unpack2 gpos;
  morph ← getitem galparams "morphology";
  '(r_e, ellip, theta) ← unpack3 morph;
  renders ← for_each
    (fun '(b, band) =>
       ie ← getitem galparams ("I_e_" +:+ band) ≫= scalar;
       x ← band_shift params xg 0 b band;
       y ← band_shift params yg 1 b band;
       Ok (elliptical_sersic_profile self ie r_e x y ellip theta))
    (enumerate (bands self));
  Ok (stack (shape (X self)) renders).

Section GalaxyBands.
Variables (self : SimpleLensedQuasarModel F) (params galparams : pyval F).
Variables (xg yg r_e ellip theta : F).

Let amplitude_of (band : string) : result F :=
  ie ← getitem galparams ("I_e_" +:+ band); scalar ie.
Let offset_of (c : F) (k : nat) (band : string) : result F :=
  off ← getitem params ("offsets_" +:+ band); o ← index off k; Ok (fadd c o).
Let render_band (bb : nat * string) : result (ndarray F) :=
  let '(b, band) := bb in
  ie ← getitem galparams ("I_e_" +:+ band) ≫= scalar;
  x ← band_shift params xg 0 b band;
  y ← band_shift params yg 1 b band;
  Ok (elliptical_sersic_profile self ie r_e x y ellip theta).
Let sersic_at (t : F * F * F) : ndarray F :=
  let '(x, y, ie) := t in elliptical_sersic_profile self ie r_e x y ellip theta.

Lemma shifted_bands_forward (rest : list string) (k : nat) (ies xr yr : list F) :
  for_each amplitude_of rest = Ok ies ->
  for_each (offset_of xg 0) rest = Ok xr ->
  for_each (offset_of yg 1) rest = Ok yr ->
  for_each render_band (zip (seq (S k) (length rest)) rest)
  = Ok (map sersic_at (zip (zip xr yr) ies)).
Proof.
  revert k ies xr yr. induction rest as [|band rest IH]; intros k ies xr yr.
  - by intros [= <-] [= <-] [= <-].
  - intros (ie & ies' & Eie & Eies & ->)%for_each_cons_Ok
           (x & xr' & Ex & Exr & ->)%for_each_cons_Ok
           (y & yr' & Ey & Eyr & ->)%for_each_cons_Ok.
    cbn [length seq zip_with map]. apply for_each_cons_Ok.
    exists (sersic_at (x, y, ie)), (map sersic_at (zip (zip xr' yr') ies')).
    split; [|split; [by apply IH | done]].
    subst render_band amplitude_of offset_of. cbn beta iota in *.
    apply bind_Ok in Eie as (v & Ev & Es). rewrite Ev. cbn. rewrite Es. cbn.
    rewrite Ex. cbn. rewrite Ey. done.
Qed.

Lemma shifted_bands_backward (rest : list string) (k : nat) (rs : list (ndarray F)) :
  for_each render_band (zip (seq (S k) (length rest)) rest) = Ok rs ->
  exists ies xr yr,
    for_each amplitude_of rest = Ok ies
    /\ for_each (offset_of xg 0) rest = Ok xr
    /\ for_each (offset_of yg 1) rest = Ok yr
    /\ rs = map sersic_at (zip (zip xr yr) ies).
Proof.
  revert k rs. induction rest as [|band rest IH]; intros k rs.
  - intros [= <-]. by exists [], [], [].
  - cbn [length seq zip_with].
    intros (r & rs' & Er & Ers & ->)%for_each_cons_Ok.
    destruct (IH _ _ Ers) as (ies & xr & yr & Eies & Exr & Eyr & ->).
    subst render_band. cbn beta iota in Er.
    apply bind_Ok in Er as (ie & Eie & Er).
    apply bind_Ok in Er as (x & Ex & Er).
    apply bind_Ok in Er as (y & Ey & [= <-]).
    exists (ie :: ies), (x :: xr), (y :: yr).
    repeat split.
    + apply for_each_cons_Ok. exists ie, ies. repeat split; [|done].
      subst amplitude_of. cbn beta.
      apply bind_Ok in Eie as (v & Ev & Es). by rewrite Ev.
    + apply for_each_cons_Ok. by exists x, xr.
    + apply for_each_cons_Ok. by exists y, yr.
Qed.

End GalaxyBands.

Lemma band_positions_cons self params (c : F) (k : nat) (ps : list F) :
  band_positions self params c k = Ok ps <->
  exists rest,
    for_each (fun band => off ← getitem params ("offsets_" +:+ band);
                          o ← index off k; Ok (fadd c o)) (tail (bands self)) = Ok rest
    /\ ps = c :: rest.
Proof.
  unfold band_positions. rewrite bind_Ok. split.
  - intros (rest & E & [= <-]). by exists rest.
  - intros (rest & E & ->). by exists rest.
Qed.

(** C3. [model_with_galaxy] returns a stack exactly when [model_no_galaxy]
    and the galaxy-only render both do, and the stack is then their sum:
    the no-galaxy prediction plus, band by band, the Sérsic profile at the
    galaxy position moved by the band's offset. *)
Theorem with_galaxy_adds_galaxy_render self params (m : ndarray F) :
  model_with_galaxy self params = Ok m <->
  exists mn g,
    model_no_galaxy self params = Ok mn
    /\ galaxy_only_render self params = Ok g
    /\ m = array_zip fadd mn g.
Proof.
  unfold model_with_galaxy, galaxy_only_render. split.
  - intros (mn & Emn & E)%bind_Ok.
    apply bind_Ok in E as (galparams & Egal & E).
    apply bind_Ok in E as (gpos & Egpos & E).
    apply bind_Ok in E as ([xg yg] & Exy & E).
    apply bind_Ok in E as (morph & Emorph & E).
    apply bind_Ok in E as ([[r_e ellip] theta] & Emo & E).
    apply bind_Ok in E as (I_es & EI & E).
    apply bind_Ok in E as (xgs & Exgs & E).
    apply bind_Ok in E as (ygs & Eygs & E).
    apply bind_Ok in E as (g & Eg & [= <-]).
    exists mn, g. split; [done|]. split; [|done].
    rewrite Egal. cbn. rewrite Egpos. cbn. rewrite Exy. cbn.
    rewrite Emorph. cbn. rewrite Emo. cbn.
    apply band_positions_cons in Exgs as (xr & Exr & ->).
    apply band_positions_cons in Eygs as (yr & Eyr & ->).
    apply vmap3_Ok in Eg as (L1 & L2 & ->).
    destruct (bands self) as [|band0 rest] eqn:Eb.
    { apply for_each_length in EI. cbn in *. lia. }
    apply for_each_cons_Ok in EI as (ie0 & ies & Eie0 & Eies & ->).
    cbn [tail] in Exr, Eyr.
    unfold enumerate. cbn [length seq zip_with].
    pose proof (shifted_bands_forward self params galparams xg yg r_e ellip theta
                  rest 0 ies xr yr Eies Exr Eyr) as Etail.
    cbn [for_each]. cbn [band_shift].
    apply bind_Ok in Eie0 as (v & Ev & Es). rewrite Ev. cbn. rewrite Es. cbn.
    cbn in Etail. rewrite Etail. cbn. reflexivity.
  - intros (mn & g & Emn & Eg & ->). rewrite Emn. cbn.
    apply bind_Ok in Eg as (galparams & Egal & E).
    apply bind_Ok in E as (gpos & Egpos & E).
    apply bind_Ok in E as ([xg yg] & Exy & E).
    apply bind_Ok in E as (morph & Emorph & E).
    apply bind_Ok in E as ([[r_e ellip] theta] & Emo & E).
    apply bind_Ok in E as (renders & Er & [= <-]).
    rewrite Egal. cbn. rewrite Egpos. cbn. rewrite Exy. cbn.
    rewrite Emorph. cbn. rewrite Emo. cbn.
    destruct (model_no_galaxy_bands _ _ _ Emn) as (? & ? & ? & ? & ? & _ & _ & _ & _ & _ & Hne & _).
    unfold band_positions.
    destruct (bands self) as [|band0 rest] eqn:Eb; [done|].
    unfold enumerate in Er. cbn [length seq zip_with] in Er.
    apply for_each_cons_Ok in Er as (r0 & rs & Er0 & Ers & ->).
    destruct (shifted_bands_backward self params galparams xg yg r_e ellip theta
                rest 0 rs Ers) as (ies & xr & yr & Eies & Exr & Eyr & ->).
    cbn [band_shift] in Er0.
    apply bind_Ok in Er0 as (ie0 & Eie0 & [= <-]).
    apply bind_Ok in Eie0 as (v & Ev & Es).
    cbn [for_each tail]. rewrite Ev. cbn. rewrite Es. cbn.
    cbn in Eies, Exr, Eyr. rewrite Eies. cbn. rewrite Exr. cbn. rewrite Eyr. cbn.
    unfold vmap3.
    apply for_each_length in Eies, Exr, Eyr.
    cbn [length]. rewrite !bool_decide_eq_true_2 by congruence.
    cbn. reflexivity.
Qed.

(** What [model_with_galaxy] adds: one Sérsic image per band, at the band's
    galaxy position. *)
Lemma model_with_galaxy_bands self params (m : ndarray F) :
  model_with_galaxy self params = Ok m ->
  exists mn galparams xg yg r_e ellip theta gimgs,
    model_no_galaxy self params = Ok mn
    /\ getitem params "galparams" = Ok galparams
    /\ (getitem galparams "positions" ≫= unpack2) = Ok (xg, yg)
    /\ (getitem galparams "morphology" ≫= unpack3) = Ok (r_e, ellip, theta)
    /\ m = array_zip fadd mn (stack (shape (X self)) gimgs)
    /\ length gimgs = length (bands self)
    /\ Forall (fun g => exists ie x y,
                          g = elliptical_sersic_profile self ie r_e x y ellip theta) gimgs
    /\ forall b band, bands self !! b = Some band ->
         exists pxg pyg ie,
           band_shift params xg 0 b band = Ok pxg
           /\ band_shift params yg 1 b band = Ok pyg
           /\ (getitem galparams ("I_e_" +:+ band) ≫= scalar) = Ok ie
           /\ gimgs !! b = Some (elliptical_sersic_profile self ie r_e pxg pyg ellip theta).
Proof.
  unfold model_with_galaxy.
  intros (mn & Emn & E)%bind_Ok.
  apply bind_Ok in E as (galparams & Egal & E).
  apply bind_Ok in E as (gpos & Egpos & E).
  apply bind_Ok in E as ([xg yg] & Exy & E).
  apply bind_Ok in E as (morph & Emorph & E).
  apply bind_Ok in E as ([[r_e ellip] theta] & Emo & E).
  apply bind_Ok in E as (I_es & EI & E).
  apply bind_Ok in E as (xgs & Exgs & E).
  apply bind_Ok in E as (ygs & Eygs & E).
  apply bind_Ok in E as (g & Eg & [= <-]).
  apply vmap3_Ok in Eg as (L1 & L2 & ->).
  pose proof (for_each_length _ _ _ EI) as LI.
  apply band_positions_spec in Exgs as [Lxgs Hxgs].
  apply band_positions_spec in Eygs as [Lygs Hygs].
  set (gimgs := map _ (zip (zip xgs ygs) I_es)).
  assert (length gimgs = length (bands self)) as Lg.
  { subst gimgs. rewrite length_map. repeat rewrite length_zip_with. lia. }
  assert (stack_results gimgs = stack (shape (X self)) gimgs) as Est.
  { destruct gimgs as [|g0 gs] eqn:Eg; [|cbn].
    - destruct (bands self); cbn in *; lia.
    - assert (In g0 (g0 :: gs)) as Hin by (left; done).
      rewrite <- Eg in Hin. subst gimgs. apply in_map_iff in Hin as ([[x y] ie] & <- & _).
      reflexivity. }
  exists mn, galparams, xg, yg, r_e, ellip, theta, gimgs.
  split; [done|]. split; [done|].
  split; [by rewrite Egpos|]. split; [by rewrite Emorph|].
  split; [by rewrite Est|]. split; [done|].
  split.
  { subst gimgs. apply Forall_map. apply Forall_forall. intros [[x y] ie] _. eauto. }
  intros b band Hb.
  destruct (Hxgs b band Hb) as (pxg & Epxg & Hpxg).
  destruct (Hygs b band Hb) as (pyg & Epyg & Hpyg).
  destruct (for_each_lookup _ _ _ _ _ EI Hb) as (ie & Eie & Hie).
  exists pxg, pyg, ie. repeat (split; [done|]).
  subst gimgs. change (map ?f ?l) with (f <$> l).
  rewrite list_lookup_fmap. repeat rewrite lookup_zip_with.
  by rewrite Hpxg, Hpyg, Hie.
Qed.


End Composite.


(** ** The constructor *)

Section Construction.
Context {F : Type} `{Arith F} `{Elementary F}.
Implicit Types (self : SimpleLensedQuasarModel F) (h : store F) (params : pyval F).

Lemma arange_length (n : nat) :
  length (arange (- Z.of_nat n / 2) (Z.of_nat n / 2)) = n.
Proof.
  unfold arange. rewrite length_map, length_seq.
  Z.div_mod_to_equations. lia.
Qed.

Lemma meshgrid_shape (x y : list Z) (Xg Yg : ndarray Z) :
  meshgrid x y = (Xg, Yg) ->
  shape Xg = [length y; length x] /\ shape Yg = [length y; length x]
  /\ well_shaped Xg /\ well_shaped Yg.
Proof.
  unfold meshgrid. intros [= <- <-]. repeat split.
  - unfold well_shaped, size_of. cbn.
    rewrite (concat_length_uniform (length x)), length_map; [lia|].
    apply Forall_map, Forall_forall. done.
  - unfold well_shaped, size_of. cbn.
    rewrite (concat_length_uniform (length x)), length_map; [lia|].
    apply Forall_map, Forall_forall. intros. by rewrite length_map.
Qed.

Lemma idiv_shape h (l l' : loc) (c : F) : shape (idiv h l c l') = shape (h l').
Proof. unfold idiv, store_set. by destruct (decide (l' = l)) as [->|]. Qed.

(** What the constructor establishes: the grid has the per-band shape of
    the data, the PSF stack has one image per band, and the band list has
    one name per band. *)
Record constructed self (nband Nx Ny nx ny : nat) (bandnames : list string) : Prop := {
  con_X : shape (X self) = [Nx; Ny];
  con_Y : shape (Y self) = [Nx; Ny];
  con_X_ok : well_shaped (X self);
  con_Y_ok : well_shaped (Y self);
  con_psf : shape (psf self) = [nband; nx; ny];
  con_bands : bands self = bandnames;
  con_count : length bandnames = nband
}.

Lemma init_Ok (d n p : loc) (s : Z) (bandnames : list string) h self (h' : store F) :
  __init__ d n p s bandnames h = (Ok self, h') ->
  let sc := nanpercentile (flat (h d)) (lit 99.9) in
  shape (h d) = shape (h n)
  /\ h' = idiv (idiv h d sc) n sc
  /\ scale self = sc /\ data self = d /\ noisemap self = n
  /\ upsampling_factor self = s
  /\ psf self = gaussian_filter (h' p) 0.85
  /\ exists nband Nx Ny nx ny,
       shape (h d) = [nband; Nx; Ny] /\ shape (h p) = [nband; nx; ny]
       /\ constructed self nband Nx Ny nx ny bandnames.
Proof.
  intros E sc. unfold __init__ in E.
  destruct (shape_eqb (shape (h d)) (shape (h n))) eqn:Es; cbn [negb] in E;
    [|by injection E].
  apply bool_decide_eq_true_1 in Es.
  injection E as E <-. fold sc in E |- *.
  destruct (shape (h d)) as [|nband [|Nx [|Ny [|? ?]]]] eqn:Ed; try discriminate.
  rewrite !idiv_shape in E.
  destruct (shape (h p)) as [|nband2 [|nx [|ny [|? ?]]]] eqn:Ep; try discriminate.
  destruct (bool_decide (nband = nband2) && bool_decide (nband2 = length bandnames)) eqn:Eb;
    cbn [negb] in E; [|discriminate].
  apply andb_prop in Eb as [E1%bool_decide_eq_true_1 E2%bool_decide_eq_true_1]. subst nband2.
  pose proof (meshgrid_shape (arange (- Z.of_nat Ny / 2) (Z.of_nat Ny / 2))
                (arange (- Z.of_nat Nx / 2) (Z.of_nat Nx / 2)) _ _ eq_refl)
    as (EX & EY & WX & WY).
  rewrite !arange_length in EX, EY.
  injection E as <-. cbn.
  repeat (split; [done|]).
  exists nband, Nx, Ny, nx, ny. repeat (split; [done|]).
  split; cbn; try done.
  - by rewrite !arange_length.
  - by rewrite !arange_length.
  - by rewrite !idiv_shape.
Qed.

(** *** Valid parameter sets *)

(** A tuple with at least two components. *)
Definition has_pair (v : pyval F) : Prop := exists a b rest, v = PSeq (a :: b :: rest).

(** The parameter set of the no-galaxy model: four shared coordinates, an
    amplitude pair per band, an offset pair per band other than the first. *)
Definition valid_no_galaxy (bandnames : list string) params : Prop :=
  (exists x1 y1 x2 y2, getitem params "positions" = Ok (PSeq [x1; y1; x2; y2]))
  /\ Forall (fun band => exists v, getitem params band = Ok v /\ has_pair v) bandnames
  /\ Forall (fun band => exists v, getitem params ("offsets_" +:+ band) = Ok v /\ has_pair v)
            (tail bandnames).

(** The galaxy group: a centre, a morphology triple, an amplitude per band. *)
Definition valid_galaxy (bandnames : list string) params : Prop :=
  exists gal,
    getitem params "galparams" = Ok gal
    /\ (exists xg yg, getitem gal "positions" = Ok (PSeq [xg; yg]))
    /\ (exists r_e ellip theta, getitem gal "morphology" = Ok (PSeq [r_e; ellip; theta]))
    /\ Forall (fun band => exists ie, getitem gal ("I_e_" +:+ band) = Ok (PNum ie)) bandnames.

Lemma has_pair_index (v : pyval F) (k : nat) :
  has_pair v -> k < 2 -> exists x, index v k = Ok x.
Proof.
  intros (a & b & rest & ->) Hk. destruct k as [|[|k]]; cbn; eauto. lia.
Qed.

Lemma band_amplitudes_total self params (k : nat) :
  k < 2 ->
  Forall (fun band => exists v, getitem params band = Ok v /\ has_pair v) (bands self) ->
  exists amps, band_amplitudes self params k = Ok amps.
Proof.
  intros Hk Hv. apply for_each_total. eapply Forall_impl; [exact Hv|].
  intros band (v & Ev & Hp). destruct (has_pair_index v k Hp Hk) as [x Ex].
  exists x. by rewrite Ev.
Qed.

Lemma band_positions_total self params (c : F) (k : nat) :
  k < 2 ->
  Forall (fun band => exists v, getitem params ("offsets_" +:+ band) = Ok v /\ has_pair v)
         (tail (bands self)) ->
  exists ps, band_positions self params c k = Ok ps.
Proof.
  intros Hk Hv. unfold band_positions.
  destruct (for_each_total
              (fun band => off ← getitem params ("offsets_" +:+ band);
                           o ← index off k; Ok (fadd c o))
              (tail (bands self))) as [rest Erest].
  { eapply Forall_impl; [exact Hv|].
    intros band (v & Ev & Hp). destruct (has_pair_index v k Hp Hk) as [x Ex].
    exists (fadd c x). rewrite Ev. cbn. by rewrite Ex. }
  exists (c :: rest). by rewrite Erest.
Qed.

Lemma unstack_shapes {A} (a : ndarray A) (n : nat) (sh : list nat) :
  shape a = n :: sh ->
  length (unstack a) = n /\ Forall (fun p => shape p = sh) (unstack a).
Proof.
  intros E. unfold unstack. rewrite E. split.
  - by rewrite length_map, chunks_length.
  - apply Forall_map, Forall_forall. done.
Qed.

Lemma vmap4_total self (xs ys amps : list F) (psfs : list (ndarray F)) (Nx Ny nx ny : nat) :
  length xs = length ys -> length ys = length amps -> length amps = length psfs ->
  shape (X self) = [Nx; Ny] ->
  Forall (fun p => shape p = [nx; ny]) psfs ->
  exists r, vmap4 (translate_and_scale_psf self) xs ys amps psfs = Ok r.
Proof.
  intros L1 L2 L3 EX Hp.
  destruct (for_each_total
              (fun '(x, y, a, p) => translate_and_scale_psf self x y a p)
              (zip (zip (zip xs ys) amps) psfs)) as [rs Ers].
  { apply Forall_forall. intros [[[x y] a] p] Hin.
    apply (translate_and_scale_psf_total self x y a p Nx Ny nx ny EX).
    rewrite Forall_forall in Hp. apply Hp.
    apply list_elem_of_lookup in Hin as [i Hi].
    rewrite lookup_zip_with in Hi.
    destruct (zip (zip xs ys) amps !! i); [|done]. cbn in Hi.
    destruct (psfs !! i) eqn:Ei; [|done]. injection Hi as _ <-.
    apply list_elem_of_lookup. eauto. }
  exists (stack_results rs). apply vmap4_Ok. eauto 10.
Qed.

Lemma model_no_galaxy_total self params (nband Nx Ny nx ny : nat) (bandnames : list string) :
  constructed self nband Nx Ny nx ny bandnames ->
  bandnames <> [] ->
  valid_no_galaxy bandnames params ->
  exists m, model_no_galaxy self params = Ok m.
Proof.
  intros [EX EY WX WY Epsf Eb Ec] Hne ((x1 & y1 & x2 & y2 & Epos) & Hamp & Hoff).
  rewrite <- Eb in Hamp, Hoff, Hne, Ec.
  unfold model_no_galaxy. rewrite Epos. cbn.
  destruct (band_amplitudes_total self params 0 ltac:(lia) Hamp) as [A1s EA1].
  destruct (band_amplitudes_total self params 1 ltac:(lia) Hamp) as [A2s EA2].
  destruct (band_positions_total self params x1 0 ltac:(lia) Hoff) as [xs1 Exs1].
  destruct (band_positions_total self params y1 1 ltac:(lia) Hoff) as [ys1 Eys1].
  destruct (band_positions_total self params x2 0 ltac:(lia) Hoff) as [xs2 Exs2].
  destruct (band_positions_total self params y2 1 ltac:(lia) Hoff) as [ys2 Eys2].
  rewrite EA1. cbn. rewrite EA2. cbn. rewrite Exs1. cbn. rewrite Eys1. cbn.
  rewrite Exs2. cbn. rewrite Eys2. cbn.
  apply band_amplitudes_spec in EA1 as [LA1 _].
  apply band_amplitudes_spec in EA2 as [LA2 _].
  apply band_positions_spec in Exs1 as [Lxs1 _].
  apply band_positions_spec in Eys1 as [Lys1 _].
  apply band_positions_spec in Exs2 as [Lxs2 _].
  apply band_positions_spec in Eys2 as [Lys2 _].
  destruct (unstack_shapes (psf self) nband [nx; ny] Epsf) as [Lp Hp].
  assert (S (length (tail (bands self))) = length (bands self)) as Lt.
  { destruct (bands self); [done|]. done. }
  destruct (vmap4_total self xs1 ys1 A1s (unstack (psf self)) Nx Ny nx ny) as [p1 Ep1];
    try done; try lia.
  destruct (vmap4_total self xs2 ys2 A2s (unstack (psf self)) Nx Ny nx ny) as [p2 Ep2];
    try done; try lia.
  rewrite Ep1. cbn. rewrite Ep2. cbn. eauto.
Qed.

Lemma model_with_galaxy_total self params (nband Nx Ny nx ny : nat) (bandnames : list string) :
  constructed self nband Nx Ny nx ny bandnames ->
  bandnames <> [] ->
  valid_no_galaxy bandnames params ->
  valid_galaxy bandnames params ->
  exists m, model_with_galaxy self params = Ok m.
Proof.
  intros Hc Hne Hv (gal & Egal & (xg & yg & Exy) & (r_e & ellip & theta & Emo) & Hie).
  destruct (model_no_galaxy_total self params nband Nx Ny nx ny bandnames Hc Hne Hv)
    as [mn Emn].
  destruct Hv as (_ & _ & Hoff). destruct Hc as [_ _ _ _ _ Eb _].
  rewrite <- Eb in Hoff, Hie, Hne.
  unfold model_with_galaxy. rewrite Emn. cbn. rewrite Egal. cbn. rewrite Exy. cbn.
  rewrite Emo. cbn.
  destruct (for_each_total
              (fun band => ie ← getitem gal ("I_e_" +:+ band); scalar ie) (bands self))
    as [I_es EI].
  { eapply Forall_impl; [exact Hie|]. intros band (ie & Eie). exists ie. by rewrite Eie. }
  destruct (band_positions_total self params xg 0 ltac:(lia) Hoff) as [xgs Exgs].
  destruct (band_positions_total self params yg 1 ltac:(lia) Hoff) as [ygs Eygs].
  rewrite EI. cbn. rewrite Exgs. cbn. rewrite Eygs. cbn.
  apply for_each_length in EI.
  apply band_positions_spec in Exgs as [Lx _].
  apply band_positions_spec in Eygs as [Ly _].
  assert (S (length (tail (bands self))) = length (bands self)) as Lt.
  { destruct (bands self); [done|]. done. }
  unfold vmap3. rewrite !bool_decide_eq_true_2 by lia. cbn. eauto.
Qed.

Lemma sersic_shape self (I_e r_e x0 y0 ellip theta : F) :
  shape (X self) = shape (Y self) -> well_shaped (X self) -> well_shaped (Y self) ->
  shape (elliptical_sersic_profile self I_e r_e x0 y0 ellip theta) = shape (X self)
  /\ well_shaped (elliptical_sersic_profile self I_e r_e x0 y0 ellip theta).
Proof.
  intros E WX WY. split; [done|].
  unfold well_shaped, size_of, elliptical_sersic_profile, array_zip in *. cbn.
  rewrite length_zip_with_l_eq; [done|]. rewrite WX, WY. by rewrite E.
Qed.


End Construction.

(** A one-band, one-pixel data set over the reals, with a 2 x 2 PSF. *)
Definition tiny_store : store R := fun l =>
  match l with
  | 0 => Array [1; 1; 1] [2%R]
  | 1 => Array [1; 1; 1] [1%R]
  | _ => Array [1; 2; 2] [1; 1; 1; 1]%R
  end.

Definition tiny_params : pyval R :=
  PDict (<["positions" := PSeq [0; 0; 0; 0]%R]>
         (<["g" := PSeq [1; 1]%R]>
          (<["galparams" :=
               PDict (<["positions" := PSeq [0; 0]%R]>
                      (<["morphology" := PSeq [1; 0; 0]%R]>
                       (<["I_e_g" := PNum 1%R]> ∅)))]> ∅))).

Lemma tiny_params_valid :
  valid_no_galaxy ["g"] tiny_params /\ valid_galaxy ["g"] tiny_params.
Proof.
  split.
  - split; [|split].
    + by exists 0%R, 0%R, 0%R, 0%R.
    + repeat constructor. eexists. split; [reflexivity|]. by exists 1%R, 1%R, [].
    + constructor.
  - eexists. split; [reflexivity|]. split; [|split].
    + by exists 0%R, 0%R.
    + by exists 1%R, 0%R, 0%R.
    + repeat constructor. by exists 1%R.
Qed.


(** ** Zero-offset placement of a point source *)

Section Centring.
Context {F : Type} `{Arith F}.
#[local] Open Scope float_scope.

(** The flat index of the centre pixel of an odd-sized grid. *)
Definition centre_index (Nx Ny : nat) : nat := ((Nx - 1) / 2 * Ny + (Ny - 1) / 2)%nat.

(** No pixel of the image is brighter than its centre pixel. *)
Definition peak_at_centre (out : ndarray F) : bool :=
  match shape out with
  | [Nx; Ny] =>
      match flat out !! centre_index Nx Ny with
      | Some c => forallb (fun v => fleb v c) (flat out)
      | None => false
      end
  | _ => false
  end.

(** A square image that equals its mirror images, top to bottom and left
    to right. *)
Definition is_symmetric (p : ndarray F) : bool :=
  match shape p with
  | [n; n'] =>
      let rows := chunks n n' (flat p) in
      bool_decide (n = n')
      && forallb (fun '(r, r') => forallb (fun '(v, v') => feqb v v') (zip r r'))
                 (zip rows (reverse rows))
      && forallb (fun r => forallb (fun '(v, v') => feqb v v') (zip r (reverse r))) rows
  | _ => false
  end.

(** [sum(output)] is [A * sum(PSF)] up to the relative tolerance [tol]. *)
Definition flux_within (tol A : F) (p out : ndarray F) : bool :=
  fleb (fabs (fsum (flat out) - A * fsum (flat p))) (tol * fabs (A * fsum (flat p))).

End Centring.

(** A model with a 3 x 3 pixel grid, over the fractions in lowest terms. *)
Definition grid3c (s : Z) (bandnames : list string) (p : ndarray Qc)
    : SimpleLensedQuasarModel Qc :=
  let '(Xg, Yg) := meshgrid (arange (-3 / 2) (3 / 2)) (arange (-3 / 2) (3 / 2)) in
  Instance (Q2Qc 1) 0 1 s bandnames p Xg Yg None None None None.

(** Symmetric test PSFs: a 3 x 3 cross and a 6 x 6 blob. *)
Definition cross3 : ndarray Qc :=
  array_map Q2Qc
    (Array [3; 3] [0; 1; 0;
                   1; 4; 1;
                   0; 1; 0]%Q).

Definition blob6 : ndarray Qc :=
  array_map Q2Qc
    (Array [6; 6] [0; 0; 0; 0; 0; 0;
                   0; 1; 2; 2; 1; 0;
                   0; 2; 8; 8; 2; 0;
                   0; 2; 8; 8; 2; 0;
                   0; 1; 2; 2; 1; 0;
                   0; 0; 0; 0; 0; 0]%Q).

(** With supersampling factor 1 the zero-offset render of the cross on a
    3 x 3 grid has its maximum in the last pixel, not in the centre; with
    factor 2 the render of the blob peaks in the centre but its pixel sum is
    less than half of [A * sum(PSF)]. *)
Lemma zero_offset_centring_fails :
  (exists out,
      translate_and_scale_psf (grid3c 1 ["g"] (stack [3; 3] [cross3]))
                              (Q2Qc 0) (Q2Qc 0) (Q2Qc 1) cross3
      = Ok out
      /\ is_symmetric cross3 = true
      /\ peak_at_centre out = false
      /\ this <$> flat out !! 4 = Some (-7 # 32)%Q
      /\ this <$> flat out !! 8 = Some (468 # 289)%Q)
  /\ (exists out,
      translate_and_scale_psf (grid3c 2 ["g"] (stack [6; 6] [blob6]))
                              (Q2Qc 0) (Q2Qc 0) (Q2Qc 1) blob6
      = Ok out
      /\ is_symmetric blob6 = true
      /\ peak_at_centre out = true
      /\ flux_within (Q2Qc 0.5) (Q2Qc 1) blob6 out = false
      /\ Qle_bool (2 * fsum (flat out))%Qc (fsum (flat blob6)) = true).
Proof.
  split; eexists; (split; [reflexivity|]); repeat split; vm_compute; reflexivity.
Qed.

Lemma centre_sample_factor_two (n N : nat) :
  Nat.Odd N ->
  (sample_position (lit 1 / of_int 2)
     (0 + ((of_nat n / lit 2) / of_int 2
           + of_int (Z.of_nat N - Z.of_nat n) / of_int 2))%fl
     ((N - 1) / 2)
   == (inject_Z (Z.of_nat n) - 1) / 2)%Q.
Proof.
  intros [k ->].
  replace ((2 * k + 1 - 1) / 2) with k by (rewrite Nat.add_sub, Nat.mul_comm, Nat.div_mul; lia).
  unfold sample_position, of_nat, of_int. cbn [lit fadd fsub fmul fdiv Q_arith].
  rewrite Nat2Z.inj_add, Nat2Z.inj_mul.
  unfold Zminus. rewrite !inject_Z_plus, inject_Z_opp, inject_Z_mult.
  change (inject_Z (Z.of_nat 2)) with 2%Q. change (inject_Z (Z.of_nat 1)) with 1%Q.
  change (inject_Z 2) with 2%Q.
  field.
Qed.

(** C1, as the code has it.  With supersampling factor 2 and zero offsets,
    the render of a square PSF on an odd-sized grid is the amplitude times
    the PSF resampled with scale 1/2 and a translation under which the
    centre row and the centre column of the output read the PSF at its own
    centre, index coordinate [(n - 1) / 2]. *)
Theorem zero_offset_centres_for_factor_two (self : SimpleLensedQuasarModel Q) (A : Q)
    (p out : ndarray Q) (n Nx Ny : nat) :
  upsampling_factor self = 2%Z ->
  shape p = [n; n] ->
  shape (X self) = [Nx; Ny] ->
  Nat.Odd Nx -> Nat.Odd Ny ->
  translate_and_scale_psf self 0%Q 0%Q A p = Ok out ->
  exists sc ty tx r,
    scale_and_translate p [Nx; Ny] (sc, sc) (ty, tx) = Ok r
    /\ out = array_map (Qmult A) r
    /\ (sc == 1 / 2)%Q
    /\ (sample_position sc ty ((Nx - 1) / 2) == (inject_Z (Z.of_nat n) - 1) / 2)%Q
    /\ (sample_position sc tx ((Ny - 1) / 2) == (inject_Z (Z.of_nat n) - 1) / 2)%Q.
Proof.
  intros Es Ep EX Ox Oy. unfold translate_and_scale_psf. rewrite Es, Ep, EX.
  cbn [lookup list_lookup].
  intros (r & Er & [= <-])%bind_Ok.
  eexists _, _, _, r. split; [exact Er|]. split; [reflexivity|].
  split; [reflexivity|]. split.
  - by apply centre_sample_factor_two.
  - by apply centre_sample_factor_two.
Qed.

(** A 2 x 2 PSF of ones over [Q]. *)
Definition ones2 : ndarray Q := Array [2; 2] [1; 1; 1; 1]%Q.

Lemma zero_offset_centres_for_factor_two_witness :
  exists sc ty tx r,
    scale_and_translate ones2 [3; 3] (sc, sc) (ty, tx) = Ok r
    /\ (sample_position sc ty 1 == 1 / 2)%Q
    /\ (sample_position sc tx 1 == 1 / 2)%Q.
Proof.
  destruct (translate_and_scale_psf_total (grid3 2 ["g"] (stack [2; 2] [ones2]))
              0%Q 0%Q 1%Q ones2 3 3 2 2 eq_refl eq_refl) as [out E].
  destruct (zero_offset_centres_for_factor_two
              (grid3 2 ["g"] (stack [2; 2] [ones2])) 1%Q ones2 out 2 3 3
              eq_refl eq_refl eq_refl ltac:(by exists 1) ltac:(by exists 1) E)
    as (sc & ty & tx & r & Er & _ & _ & Hy & Hx).
  exists sc, ty, tx, r. split; [exact Er|]. split; [exact Hy | exact Hx].
Defined.

(** ** The residual engine *)

Section Residuals.
Context {F : Type} `{Arith F} `{Elementary F}.
#[local] Open Scope float_scope.

(** The reduced chi-square with the degrees of freedom counted from the
    scalars of the parameter set, [n_pixels - len(flatten(params))]. *)
Definition reduced_chi2_by_scalar_count (residuals : result (list F)) (n_pixels : nat)
    (params : pyval F) : result F :=
  r ← residuals;
  Ok (fsum (map (fun x => x * x) r)
      / of_int (Z.of_nat n_pixels - Z.of_nat (flatten_count params))).

(** For a dict, the source subtracts the number of its keys. *)
Lemma reduced_chi2_subtracts_key_count (self : SimpleLensedQuasarModel F) (h : store F)
    (d : gmap string (pyval F)) :
  reduced_chi2_no_galaxy self h (PDict d)
  = (r ← residuals_no_galaxy self h (PDict d);
     Ok (fsum (map (fun x => x * x) r)
         / of_int (Z.of_nat (size_of (h (data self))) - Z.of_nat (size d))))
  /\ reduced_chi2_with_galaxy self h (PDict d)
     = (r ← residuals_with_galaxy self h (PDict d);
        Ok (fsum (map (fun x => x * x) r)
            / of_int (Z.of_nat (size_of (h (data self))) - Z.of_nat (size d)))).
Proof.
  unfold reduced_chi2_no_galaxy, reduced_chi2_with_galaxy. split.
  - by destruct (residuals_no_galaxy self h (PDict d)).
  - by destruct (residuals_with_galaxy self h (PDict d)).
Qed.

End Residuals.

(** A 3 x 3 image in one band with unit noise, and the parameter set of the
    no-galaxy model for it: two keys, six scalars. *)
Definition ramp_store : store Qc := fun l =>
  match l with
  | 0 => array_map Q2Qc (Array [1; 3; 3] [1; 2; 3; 4; 5; 6; 7; 8; 9]%Q)
  | _ => array_map Q2Qc (Array [1; 3; 3] [1; 1; 1; 1; 1; 1; 1; 1; 1]%Q)
  end.

Definition ramp_model : SimpleLensedQuasarModel Qc :=
  grid3c 2 ["g"] (array_map Q2Qc (Array [1; 2; 2] [1; 1; 1; 1]%Q)).

Definition ramp_params : pyval Qc :=
  PDict (<["positions" := PSeq (map Q2Qc [0; 0; 0; 0]%Q)]>
         (<["g" := PSeq (map Q2Qc [1; 1]%Q)]> ∅)).

(** C2, at a parameter dict.  The source divides by [n_pixels - len(params)]
    with [len(params)] the number of keys (2 here), not the number of scalars
    (6 here): 269 / 7 where the scalar count gives 269 / 3. *)
Theorem reduced_chi2_counts_keys_not_scalars :
  py_len ramp_params = Ok 2
  /\ flatten_count ramp_params = 6
  /\ size_of (ramp_store (data ramp_model)) = 9
  /\ this <$> reduced_chi2_no_galaxy ramp_model ramp_store ramp_params = Ok (269 # 7)%Q
  /\ this <$> reduced_chi2_by_scalar_count
                (residuals_no_galaxy ramp_model ramp_store ramp_params) 9 ramp_params
     = Ok (269 # 3)%Q.
Proof. repeat split; vm_compute; reflexivity. Qed.

(** ** What the constructor checks *)

Section Checks.
Context {F : Type} `{Arith F} `{Elementary F}.

(** The inputs the constructor accepts: data and noise of one shape, both
    stacks three-dimensional, and one band count shared by the data, the PSF
    stack and the band list. *)
Definition consistent_inputs (h : store F) (d n p : loc) (bandnames : list string) : Prop :=
  shape (h d) = shape (h n)
  /\ exists nband Nx Ny nx ny,
       shape (h d) = [nband; Nx; Ny]
       /\ shape (h p) = [nband; nx; ny]
       /\ length bandnames = nband.

(** The per-band PSF size of the data model: a square whose side is a
    multiple of the supersampling factor. *)
Definition psf_size_in_data_model (s : Z) (nx ny : nat) : Prop :=
  nx = ny /\ (s | Z.of_nat nx)%Z.

(** C9, as the code has it.  The constructor returns an instance exactly
    when data and noise have one shape, data and PSF stack are
    three-dimensional, and the band counts of data, PSF stack and band list
    agree; otherwise it raises [AssertionError] or [ValueError].  The
    per-band size of the PSF is not looked at. *)
Theorem init_fails_fast (d n p : loc) (s : Z) (bandnames : list string) (h : store F) :
  ((exists self, (__init__ d n p s bandnames h).1 = Ok self)
   <-> consistent_inputs h d n p bandnames)
  /\ (~ consistent_inputs h d n p bandnames ->
      (__init__ d n p s bandnames h).1 = Raise AssertionError
      \/ (__init__ d n p s bandnames h).1 = Raise ValueError)
  /\ (shape (h d) <> shape (h n) ->
      __init__ d n p s bandnames h = (Raise AssertionError, h)).
Proof.
  assert (forall self, (__init__ d n p s bandnames h).1 = Ok self ->
                       consistent_inputs h d n p bandnames) as Hfwd.
  { intros self E. destruct (__init__ d n p s bandnames h) as [r h'] eqn:Ei.
    cbn in E. subst r.
    destruct (init_Ok _ _ _ _ _ _ _ _ Ei)
      as (Esh & _ & _ & _ & _ & _ & _ & nband & Nx & Ny & nx & ny & Ed & Ep & Hc).
    split; [done|]. exists nband, Nx, Ny, nx, ny. repeat split; try done.
    by destruct Hc. }
  assert ((__init__ d n p s bandnames h).1 = Raise AssertionError
          \/ (__init__ d n p s bandnames h).1 = Raise ValueError
          \/ exists self', (__init__ d n p s bandnames h).1 = Ok self') as Hcases.
  { unfold __init__.
    destruct (negb (shape_eqb (shape (h d)) (shape (h n)))); [by left|]. cbn [fst].
    destruct (shape (h d)) as [|nband [|Nx [|Ny [|? ?]]]]; try (by right; left).
    destruct (shape _) as [|nband2 [|nx [|ny [|? ?]]]]; try (by right; left).
    destruct (negb _); [by left|]. right; right. eauto. }
  split; [split|split].
  - intros [self E]. by eapply Hfwd.
  - intros (Esh & nband & Nx & Ny & nx & ny & Ed & Ep & Eb).
    unfold __init__.
    rewrite (bool_decide_eq_true_2 _ Esh : shape_eqb _ _ = true). cbn [negb fst].
    rewrite Ed, !idiv_shape, Ep.
    rewrite !bool_decide_eq_true_2 by done. cbn. eauto.
  - intros Hn. destruct Hcases as [E|[E|[self E]]]; [by left | by right |].
    exfalso. apply Hn. by eapply Hfwd.
  - intros Hne. unfold __init__.
    by rewrite (bool_decide_eq_false_2 _ Hne : shape_eqb _ _ = false).
Qed.

End Checks.

(** One band of 1 x 1 data with a 2 x 5 PSF and supersampling factor 3. *)
Definition lopsided_store : store R := fun l =>
  match l with
  | 0 => Array [1; 1; 1] [2%R]
  | 1 => Array [1; 1; 1] [1%R]
  | _ => Array [1; 2; 5] [1; 1; 1; 1; 1; 1; 1; 1; 1; 1]%R
  end.

(** A PSF stack whose per-band size is neither square nor a multiple of the
    supersampling factor passes the constructor. *)
Lemma init_accepts_any_psf_size :
  exists self h',
    __init__ 0 1 2 3 ["g"] lopsided_store = (Ok self, h')
    /\ shape (psf self) = [1; 2; 5]
    /\ ~ psf_size_in_data_model 3 2 5.
Proof.
  eexists _, _. split; [reflexivity|]. split; [reflexivity|].
  intros [E _]. discriminate.
Qed.

(** ** The life of the data and noise stacks *)

Section Lifecycle.
Context {F : Type} `{Arith F} `{Elementary F}.
#[local] Open Scope float_scope.

(** The solvers are external: [scipy.optimize.least_squares] is given the
    residual function and the initial guess and returns [res.x];
    [numpyro]'s MCMC is given the model function, the values of the data and
    noise stacks and the run lengths, and the medians of its samples are
    taken per parameter name.  Either may raise what the function it calls
    raises. *)
Variable least_squares : (list F -> result (list F)) -> list F -> result (list F).
Variable mcmc_medians_with_galaxy :
  (pyval F -> result (ndarray F)) -> ndarray F -> ndarray F -> nat -> nat -> nat ->
  result (gmap string F).
Variable mcmc_medians_no_galaxy :
  (pyval F -> result (ndarray F)) -> ndarray F -> ndarray F -> nat -> nat -> nat -> F ->
  result (gmap string F).

Definition set_param_optim_no_galaxy (self : SimpleLensedQuasarModel F) (v : pyval F) :=
  Instance (scale self) (data self) (noisemap self) (upsampling_factor self) (bands self)
           (psf self) (X self) (Y self) (param_optim_with_galaxy self) (Some v)
           (param_mediansampler_no_galaxy self) (param_mediansampler_with_galaxy self).

Definition set_param_optim_with_galaxy (self : SimpleLensedQuasarModel F) (v : pyval F) :=
  Instance (scale self) (data self) (noisemap self) (upsampling_factor self) (bands self)
           (psf self) (X self) (Y self) (Some v) (param_optim_no_galaxy self)
           (param_mediansampler_no_galaxy self) (param_mediansampler_with_galaxy self).

Definition set_param_mediansampler_no_galaxy (self : SimpleLensedQuasarModel F) (v : pyval F) :=
  Instance (scale self) (data self) (noisemap self) (upsampling_factor self) (bands self)
           (psf self) (X self) (Y self) (param_optim_with_galaxy self)
           (param_optim_no_galaxy self) (Some v) (param_mediansampler_with_galaxy self).

Definition set_param_mediansampler_with_galaxy (self : SimpleLensedQuasarModel F) (v : pyval F) :=
  Instance (scale self) (data self) (noisemap self) (upsampling_factor self) (bands self)
           (psf self) (X self) (Y self) (param_optim_with_galaxy self)
           (param_optim_no_galaxy self) (param_mediansampler_no_galaxy self) (Some v).

Definition optimize_no_galaxy (self : SimpleLensedQuasarModel F) (h : store F)
    (initial_guess : list F) : result (SimpleLensedQuasarModel F * list F) :=
  x ← least_squares (fun x => residuals_no_galaxy self h (PSeq x)) initial_guess;
  Ok (set_param_optim_no_galaxy self (PSeq x), x).

Definition optimize_with_galaxy (self : SimpleLensedQuasarModel F) (h : store F)
    (initial_guess : list F) : result (SimpleLensedQuasarModel F * list F) :=
  x ← least_squares (fun x => residuals_with_galaxy self h (PSeq x)) initial_guess;
  Ok (set_param_optim_with_galaxy self (PSeq x), x).

(** [[medians[k] for k in keys]] *)
Definition medians_of (medians : gmap string F) (keys : list string) : result (pyval F) :=
  PSeq <$> for_each (fun k => match medians !! k with
                              | Some v => Ok v
                              | None => Raise (KeyError k)
                              end) keys.

(** [pps[group][key] = v] *)
Definition setitem2 (pps : gmap string (pyval F)) (group key : string) (v : pyval F)
    : result (gmap string (pyval F)) :=
  match pps !! group with
  | Some (PDict g) => Ok (<[group := PDict (<[key := v]> g)]> pps)
  | Some _ => Raise TypeError
  | None => Raise (KeyError group)
  end.

Definition sample_no_galaxy (self : SimpleLensedQuasarModel F) (h : store F)
    (num_warmup num_samples num_chains : nat) (position_scale : F)
    : result (SimpleLensedQuasarModel F) :=
  medians ← mcmc_medians_no_galaxy (model_no_galaxy self) (h (data self)) (h (noisemap self))
                                   num_warmup num_samples num_chains position_scale;
  positions ← medians_of medians ["x1"; "y1"; "x2"; "y2"];
  pps ← foldl (fun acc '(i, band) =>
                 pps ← acc;
                 amps ← medians_of medians ["A1_" +:+ band; "A2_" +:+ band];
                 let pps := <[band := amps]> pps in
                 if decide (i = 0) then Ok pps
                 else offs ← medians_of medians ["dx_" +:+ band; "dy_" +:+ band];
                      Ok (<["offsets_" +:+ band := offs]> pps))
              (Ok (<["positions" := positions]> ∅))
              (enumerate (bands self));
  Ok (set_param_mediansampler_no_galaxy self (PDict pps)).

Definition sample_with_galaxy (self : SimpleLensedQuasarModel F) (h : store F)
    (num_warmup num_samples num_chains : nat) : result (SimpleLensedQuasarModel F) :=
  medians ← mcmc_medians_with_galaxy (model_with_galaxy self) (h (data self))
                                     (h (noisemap self)) num_warmup num_samples num_chains;
  let pps : gmap string (pyval F) := {["galparams" := PDict ∅]} in
  positions ← medians_of medians ["x1"; "y1"; "x2"; "y2"];
  let pps := <["positions" := positions]> pps in
  gpos ← medians_of medians ["xg"; "yg"];
  pps ← setitem2 pps "galparams" "positions" gpos;
  morph ← medians_of medians ["r_e"; "ellip"; "theta"];
  pps ← setitem2 pps "galparams" "morphology" morph;
  pps ← foldl (fun acc '(i, band) =>
                 pps ← acc;
                 amps ← medians_of medians ["A1_" +:+ band; "A2_" +:+ band];
                 let pps := <[band := amps]> pps in
                 ie ← match medians !! ("I_e_" +:+ band) with
                      | Some v => Ok (PNum v)
                      | None => Raise (KeyError ("I_e_" +:+ band))
                      end;
                 pps ← setitem2 pps "galparams" ("I_e_" +:+ band) ie;
                 if decide (i = 0) then Ok pps
                 else offs ← medians_of medians ["dx_" +:+ band; "dy_" +:+ band];
                      Ok (<["offsets_" +:+ band := offs]> pps))
              (Ok pps)
              (enumerate (bands self));
  Ok (set_param_mediansampler_with_galaxy self (PDict pps)).

(** A call of a public method after construction. *)
Inductive call : Type :=
  | Call_model_no_galaxy (params : pyval F)
  | Call_model_with_galaxy (params : pyval F)
  | Call_residuals_no_galaxy (params : pyval F)
  | Call_residuals_with_galaxy (params : pyval F)
  | Call_reduced_chi2_no_galaxy (params : pyval F)
  | Call_reduced_chi2_with_galaxy (params : pyval F)
  | Call_optimize_no_galaxy (initial_guess : list F)
  | Call_optimize_with_galaxy (initial_guess : list F)
  | Call_sample_no_galaxy (num_warmup num_samples num_chains : nat) (position_scale : F)
  | Call_sample_with_galaxy (num_warmup num_samples num_chains : nat).

(** The instance and the store after a call.  The model, residual and
    chi-square methods return a value and assign nothing; the optimizers and
    samplers assign one attribute of the instance when they do not raise. *)
Definition perform (st : SimpleLensedQuasarModel F * store F) (c : call)
    : SimpleLensedQuasarModel F * store F :=
  let '(self, h) := st in
  match c with
  | Call_model_no_galaxy params => let _ := model_no_galaxy self params in (self, h)
  | Call_model_with_galaxy params => let _ := model_with_galaxy self params in (self, h)
  | Call_residuals_no_galaxy params => let _ := residuals_no_galaxy self h params in (self, h)
  | Call_residuals_with_galaxy params =>
      let _ := residuals_with_galaxy self h params in (self, h)
  | Call_reduced_chi2_no_galaxy params =>
      let _ := reduced_chi2_no_galaxy self h params in (self, h)
  | Call_reduced_chi2_with_galaxy params =>
      let _ := reduced_chi2_with_galaxy self h params in (self, h)
  | Call_optimize_no_galaxy guess =>
      match optimize_no_galaxy self h guess with
      | Ok (self', _) => (self', h)
      | Raise _ => (self, h)
      end
  | Call_optimize_with_galaxy guess =>
      match optimize_with_galaxy self h guess with
      | Ok (self', _) => (self', h)
      | Raise _ => (self, h)
      end
  | Call_sample_no_galaxy w n c ps =>
      match sample_no_galaxy self h w n c ps with
      | Ok self' => (self', h)
      | Raise _ => (self, h)
      end
  | Call_sample_with_galaxy w n c =>
      match sample_with_galaxy self h w n c with
      | Ok self' => (self', h)
      | Raise _ => (self, h)
      end
  end.

Lemma sample_no_galaxy_assigns (self self' : SimpleLensedQuasarModel F) (h : store F)
    (w n c : nat) (ps : F) :
  sample_no_galaxy self h w n c ps = Ok self' ->
  exists v, self' = set_param_mediansampler_no_galaxy self v.
Proof.
  unfold sample_no_galaxy.
  intros (medians & _ & E)%bind_Ok.
  apply bind_Ok in E as (positions & _ & E).
  apply bind_Ok in E as (pps & _ & [= <-]). eauto.
Qed.

Lemma sample_with_galaxy_assigns (self self' : SimpleLensedQuasarModel F) (h : store F)
    (w n c : nat) :
  sample_with_galaxy self h w n c = Ok self' ->
  exists v, self' = set_param_mediansampler_with_galaxy self v.
Proof.
  unfold sample_with_galaxy.
  intros (medians & _ & E)%bind_Ok.
  apply bind_Ok in E as (positions & _ & E).
  apply bind_Ok in E as (gpos & _ & E).
  apply bind_Ok in E as (pps1 & _ & E).
  apply bind_Ok in E as (morph & _ & E).
  apply bind_Ok in E as (pps2 & _ & E).
  apply bind_Ok in E as (pps & _ & [= <-]). eauto.
Qed.

Lemma perform_keeps_stacks (st : SimpleLensedQuasarModel F * store F) (c : call) :
  (perform st c).2 = st.2
  /\ scale (perform st c).1 = scale st.1
  /\ data (perform st c).1 = data st.1
  /\ noisemap (perform st c).1 = noisemap st.1.
Proof.
  destruct st as [self h]. destruct c; cbn [perform fst snd]; try done.
  - unfold optimize_no_galaxy. by destruct (least_squares _ _).
  - unfold optimize_with_galaxy. by destruct (least_squares _ _).
  - destruct (sample_no_galaxy _ _ _ _ _ _) as [self'|e] eqn:E; [|done].
    by apply sample_no_galaxy_assigns in E as [v ->].
  - destruct (sample_with_galaxy _ _ _ _ _) as [self'|e] eqn:E; [|done].
    by apply sample_with_galaxy_assigns in E as [v ->].
Qed.

Lemma calls_keep_stacks (calls : list call) (st : SimpleLensedQuasarModel F * store F) :
  (foldl perform st calls).2 = st.2
  /\ scale (foldl perform st calls).1 = scale st.1
  /\ data (foldl perform st calls).1 = data st.1
  /\ noisemap (foldl perform st calls).1 = noisemap st.1.
Proof.
  revert st. induction calls as [|c calls IH]; intros st; [done|]. cbn [foldl].
  destruct (IH (perform st c)) as (E1 & E2 & E3 & E4).
  destruct (perform_keeps_stacks st c) as (P1 & P2 & P3 & P4).
  rewrite E1, E2, E3, E4. done.
Qed.

Lemma store_set_eq (h : store F) (l : loc) (a : ndarray F) : store_set h l a l = a.
Proof. unfold store_set. by rewrite decide_True. Qed.

Lemma store_set_ne (h : store F) (l l' : loc) (a : ndarray F) :
  l' <> l -> store_set h l a l' = h l'.
Proof. intros Hne. unfold store_set. by rewrite decide_False. Qed.

(** C7, as the code has it.  When the data and noise stacks are two arrays,
    construction divides each of them in place, once, by the 99.9th
    percentile of the data values before the division, keeps that scale on
    the instance, and leaves every other array alone; and no sequence of
    model, residual, chi-square, optimizer or sampler calls changes the
    store, the scale, or which arrays the instance holds. *)
Theorem stacks_rescaled_once (d n p : loc) (s : Z) (bandnames : list string)
    (h h' : store F) (self : SimpleLensedQuasarModel F) (calls : list call) :
  d <> n ->
  __init__ d n p s bandnames h = (Ok self, h') ->
  let sc := nanpercentile (flat (h d)) (lit 99.9) in
  scale self = sc /\ data self = d /\ noisemap self = n
  /\ h' d = array_map (fun v => v / sc) (h d)
  /\ h' n = array_map (fun v => v / sc) (h n)
  /\ (forall l, l <> d -> l <> n -> h' l = h l)
  /\ (foldl perform (self, h') calls).2 = h'
  /\ scale (foldl perform (self, h') calls).1 = sc
  /\ data (foldl perform (self, h') calls).1 = d
  /\ noisemap (foldl perform (self, h') calls).1 = n.
Proof.
  intros Hdn Einit sc.
  destruct (init_Ok _ _ _ _ _ _ _ _ Einit) as (_ & Eh & Esc & Ed & En & _).
  fold sc in Eh, Esc.
  destruct (calls_keep_stacks calls (self, h')) as (C1 & C2 & C3 & C4).
  cbn [fst snd] in *.
  repeat split; try congruence.
  - rewrite Eh. unfold idiv. rewrite store_set_ne, store_set_eq by done. done.
  - rewrite Eh. unfold idiv. rewrite store_set_eq, store_set_ne by done. done.
  - intros l Hd Hn. rewrite Eh. unfold idiv. by rewrite !store_set_ne.
Qed.

End Lifecycle.

(** Stand-ins for the external solvers: a least-squares routine that
    evaluates the residuals once and returns its guess, and samplers without
    samples. *)
Definition one_step_least_squares (f : list R -> result (list R)) (x0 : list R)
    : result (list R) :=
  _ ← f x0; Ok x0.

Definition no_samples_with_galaxy (_ : pyval R -> result (ndarray R)) (_ _ : ndarray R)
    (_ _ _ : nat) : result (gmap string R) := Ok ∅.

Definition no_samples_no_galaxy (_ : pyval R -> result (ndarray R)) (_ _ : ndarray R)
    (_ _ _ : nat) (_ : R) : result (gmap string R) := Ok ∅.

Definition tiny_session : list (call (F:=R)) :=
  [Call_model_no_galaxy tiny_params;
   Call_residuals_with_galaxy tiny_params;
   Call_reduced_chi2_no_galaxy tiny_params;
   Call_optimize_no_galaxy [0%R];
   Call_sample_no_galaxy 1 1 1 1%R].

Lemma percentile_singleton (x q : R) : nanpercentile [x] q = x.
Proof.
  unfold nanpercentile. cbn. by destruct (decide _).
Qed.

Lemma stacks_rescaled_once_witness :
  exists self h',
    __init__ 0 1 2 2 ["g"] tiny_store = (Ok self, h')
    /\ h' 0 = Array [1; 1; 1] [(2 / 2)%R]
    /\ h' 1 = Array [1; 1; 1] [(1 / 2)%R]
    /\ (foldl (perform one_step_least_squares no_samples_with_galaxy no_samples_no_galaxy)
              (self, h') tiny_session).2 = h'.
Proof.
  eexists _, _. split; [reflexivity|].
  destruct (stacks_rescaled_once one_step_least_squares no_samples_with_galaxy
              no_samples_no_galaxy 0 1 2 2 ["g"] tiny_store _ _ tiny_session
              ltac:(done) eq_refl)
    as (_ & _ & _ & Ed & En & _ & Hcalls & _).
  split; [|split].
  - rewrite Ed. cbn. by rewrite percentile_singleton.
  - rewrite En. cbn. by rewrite percentile_singleton.
  - exact Hcalls.
Defined.

(** One array passed as both the data and the noise stack. *)
Definition alias_store : store R := fun l =>
  match l with
  | 0 => Array [1; 1; 1] [2%R]
  | _ => Array [1; 2; 2] [1; 1; 1; 1]%R
  end.

(** The array is then divided by the scale twice: it holds [2 / 2 / 2], not
    [2 / 2]. *)
Lemma aliased_stacks_divided_twice :
  exists self h',
    __init__ 0 0 1 2 ["g"] alias_store = (Ok self, h')
    /\ data self = noisemap self
    /\ scale self = 2%R
    /\ h' (data self) = Array [1; 1; 1] [(2 / 2 / 2)%R]
    /\ h' (data self) <> array_map (fun v => (v / scale self)%R) (alias_store 0).
Proof.
  eexists _, _. split; [reflexivity|]. cbn.
  rewrite !percentile_singleton. repeat split.
  intros [= E]. lra.
Qed.

(** ** Smoothing of the PSF stack *)

Section Smoothing.
Context {F : Type} `{Arith F} `{Elementary F}.

(** Each band's image smoothed on its own. *)
Definition smooth_each_band (a : ndarray F) (sigma : Q) : ndarray F :=
  match shape a with
  | _ :: sh => stack sh (map (fun band => gaussian_filter band sigma) (unstack a))
  | [] => gaussian_filter a sigma
  end.

End Smoothing.

Section SmoothingReal.
#[local] Open Scope R_scope.

Lemma Q2R_zero : Q2R 0 = 0.
Proof. unfold Q2R. cbn. lra. Qed.

Lemma fsum_positive (l : list R) : l <> [] -> Forall (fun x => 0 < x) l -> 0 < fsum l.
Proof.
  intros Hne Hl. unfold fsum. cbn [lit fadd R_arith]. rewrite Q2R_zero.
  assert (forall k : list R, Forall (fun x => 0 < x) k -> 0 <= foldr Rplus 0 k) as Hnn.
  { clear. induction 1 as [|x k Hx _ IH]; cbn; lra. }
  destruct Hl as [|x l Hx Hl]; [done|]. cbn. specialize (Hnn l Hl). lra.
Qed.

(** The weights of the Gaussian kernel are positive. *)
Lemma gaussian_kernel_positive (sigma : Q) (radius : nat) :
  Forall (fun w => 0 < w) (gaussian_kernel1d (F:=R) sigma radius)
  /\ length (gaussian_kernel1d (F:=R) sigma radius) = (2 * radius + 1)%nat.
Proof.
  unfold gaussian_kernel1d.
  set (phi := map _ (seq 0 (2 * radius + 1))).
  assert (Forall (fun x => 0 < x) phi) as Hphi.
  { subst phi. apply Forall_map, Forall_forall. intros k _. apply exp_pos. }
  assert (phi <> []) as Hne.
  { subst phi. replace (2 * radius + 1)%nat with (S (2 * radius)) by lia. done. }
  pose proof (fsum_positive phi Hne Hphi) as HS.
  split.
  - apply Forall_map. eapply Forall_impl; [exact Hphi|].
    intros x Hx. cbn. by apply Rdiv_lt_0_compat.
  - subst phi. by rewrite !length_map, length_seq.
Qed.

Ltac eval_reflect :=
  repeat match goal with
         | |- context [reflect ?n ?z] =>
             let v := eval vm_compute in (reflect n z) in
             change (reflect n z) with v
         end.

Ltac nonneg :=
  lazymatch goal with
  | |- 0 <= ?a + ?b => apply Rplus_le_le_0_compat; nonneg
  | |- 0 <= ?a * ?b => apply Rmult_le_pos; nonneg
  | |- _ => lra
  end.

Ltac pos :=
  lazymatch goal with
  | |- 0 < ?a + ?b => apply Rplus_lt_le_0_compat; [pos | nonneg]
  | |- 0 < ?a * ?b => apply Rmult_lt_0_compat; pos
  | |- _ => lra
  end.

(** Two 1 x 1 bands, the first dark and the second bright, filtered with
    seven positive weights along every axis: the first band comes out
    bright. *)
Lemma filter_leaks_across_bands (w0 w1 w2 w3 w4 w5 w6 : R) :
  0 < w0 -> 0 < w1 -> 0 < w2 -> 0 < w3 -> 0 < w4 -> 0 < w5 -> 0 < w6 ->
  exists v,
    filter_axes [w0; w1; w2; w3; w4; w5; w6] 3 [2; 1; 1]%nat [0; 1] !! 0%nat = Some v
    /\ 0 < v.
Proof.
  intros. eexists. split.
  - cbn. eval_reflect. cbn. rewrite ?Q2R_zero. reflexivity.
  - pos.
Qed.

(** A dark 1 x 1 image filtered on its own stays dark. *)
Lemma filter_keeps_dark (w0 w1 w2 w3 w4 w5 w6 : R) :
  filter_axes [w0; w1; w2; w3; w4; w5; w6] 3 [1; 1]%nat [0] = [0].
Proof.
  cbn. eval_reflect. cbn. rewrite ?Q2R_zero. f_equal. ring.
Qed.

End SmoothingReal.

(** Two bands of 1 x 1 data; the narrow PSF of the first band is dark, that
    of the second is bright. *)
Definition two_band_store : store R := fun l =>
  match l with
  | 0 => Array [2; 1; 1] [1; 1]%R
  | 1 => Array [2; 1; 1] [1; 1]%R
  | _ => Array [2; 1; 1] [0; 1]%R
  end.

Lemma gaussian_filter_unfold (sh : list nat) (l : list R) :
  gaussian_filter (Array sh l) 0.85
  = Array sh (filter_axes (gaussian_kernel1d 0.85 3) 3 sh l).
Proof. reflexivity. Qed.

(** C8, at a two-band PSF stack.  The filter runs along the band axis as
    well: the PSF the renderer gets for the first band is positive although
    that band's narrow PSF is zero and, smoothed on its own, stays zero. *)
Theorem smoothing_mixes_bands :
  exists self h',
    __init__ 0 1 2 2 ["g"; "r"] two_band_store = (Ok self, h')
    /\ unstack (h' 2) !! 0 = Some (Array [1; 1] [0%R])
    /\ unstack (smooth_each_band (h' 2) 0.85) !! 0 = Some (Array [1; 1] [0%R])
    /\ exists v, unstack (psf self) !! 0 = Some (Array [1; 1] [v]) /\ (0 < v)%R.
Proof.
  eexists _, _. split; [reflexivity|]. split; [reflexivity|].
  destruct (gaussian_kernel_positive 0.85 3) as [Hpos Hlen].
  destruct (gaussian_kernel1d (F:=R) 0.85 3)
    as [|w0 [|w1 [|w2 [|w3 [|w4 [|w5 [|w6 [|? ?]]]]]]]] eqn:Ek; try discriminate.
  repeat match goal with H : Forall _ (_ :: _) |- _ => apply Forall_cons in H as [? H] end.
  split.
  - change (unstack (stack [1; 1]
              [gaussian_filter (Array [1; 1] [0%R]) 0.85;
               gaussian_filter (Array [1; 1] [1%R]) 0.85]) !! 0
            = Some (Array [1; 1] [0%R])).
    rewrite !gaussian_filter_unfold, Ek, filter_keeps_dark. reflexivity.
  - destruct (filter_leaks_across_bands w0 w1 w2 w3 w4 w5 w6) as (v & Ev & Hv); try done.
    exists v. split; [|exact Hv].
    change (unstack (gaussian_filter (Array [2; 1; 1] [0%R; 1%R]) 0.85) !! 0
            = Some (Array [1; 1] [v])).
    rewrite gaussian_filter_unfold, Ek.
    destruct (filter_axes _ 3 [2; 1; 1] [0%R; 1%R]) as [|x rest]; [done|].
    injection Ev as ->. reflexivity.
Qed.

(** * Further properties of the model *)

(** ** Constructed models *)

Section Constructed.
Context {F : Type} `{Arith F} `{Elementary F}.
#[local] Open Scope float_scope.

(** The store after the two in-place divisions. *)
Lemma rescaled_store (h : store F) (d n : loc) (sc : F) :
  d <> n ->
  idiv (idiv h d sc) n sc d = array_map (fun v => v / sc) (h d)
  /\ idiv (idiv h d sc) n sc n = array_map (fun v => v / sc) (h n).
Proof.
  intros Hdn. unfold idiv, store_set.
  rewrite (decide_False (P := d = n)) by done.
  rewrite !(decide_True (P := d = d)) by done.
  rewrite !(decide_True (P := n = n)) by done.
  rewrite (decide_False (P := n = d)) by done.
  done.
Qed.

(** Whatever a model of a constructed instance returns has the shape of
    the data. *)
Lemma constructed_model_shape (d n p : loc) (s : Z) (bandnames : list string)
    (h h' : store F) (self : SimpleLensedQuasarModel F) (params : pyval F) (m : ndarray F) :
  __init__ d n p s bandnames h = (Ok self, h') ->
  model_no_galaxy self params = Ok m \/ model_with_galaxy self params = Ok m ->
  shape m = shape (h' (data self)) /\ well_shaped m.
Proof.
  intros Einit.
  destruct (init_Ok _ _ _ _ _ _ _ _ Einit)
    as (Esh & -> & _ & Ed & _ & _ & _ & nband & Nx & Ny & nx & ny & Eds & Eps & Hc).
  rewrite Ed, !idiv_shape, Eds.
  assert (forall m', model_no_galaxy self params = Ok m' ->
                     shape m' = [nband; Nx; Ny] /\ well_shaped m') as Hno.
  { intros m' Em.
    destruct (model_no_galaxy_bands _ _ _ Em)
      as (x1 & y1 & x2 & y2 & imgs & _ & -> & Hu & Lb & _ & _ & _).
    destruct Hc as [EX _ _ _ _ Eb Ec]. split.
    - cbn. by rewrite Lb, Eb, Ec, EX.
    - by apply stack_well_shaped. }
  intros [Em|Em]; [by apply Hno|].
  destruct (model_with_galaxy_bands _ _ _ Em)
    as (mn & gal & xg & yg & r_e & ellip & theta & gimgs & Emn & _ & _ & _ & ->
        & Lg & Hg & _).
  destruct (Hno mn Emn) as [Esmn Wmn]. split; [done|].
  destruct Hc as [EX EY WX WY _ Eb Ec].
  assert (uniform (shape (X self)) gimgs) as Ug.
  { eapply Forall_impl; [exact Hg|]. intros g (ie & x & y & ->).
    apply sersic_shape; congruence. }
  pose proof (stack_well_shaped _ _ Ug) as Wg.
  unfold well_shaped, size_of, array_zip, stack in *. cbn in *.
  rewrite length_zip_with_l_eq; [done|].
  rewrite Wmn, Wg, Esmn, Lg, Eb, Ec, EX. done.
Qed.

(** A constructed instance with a band returns a stack on valid
    parameters. *)
Lemma constructed_model_total (d n p : loc) (s : Z) (bandnames : list string)
    (h h' : store F) (self : SimpleLensedQuasarModel F) (params : pyval F) :
  __init__ d n p s bandnames h = (Ok self, h') ->
  bandnames <> [] ->
  valid_no_galaxy bandnames params ->
  (exists m, model_no_galaxy self params = Ok m)
  /\ (valid_galaxy bandnames params -> exists m, model_with_galaxy self params = Ok m).
Proof.
  intros Einit Hne Hv.
  destruct (init_Ok _ _ _ _ _ _ _ _ Einit)
    as (_ & _ & _ & _ & _ & _ & _ & nband & Nx & Ny & nx & ny & _ & _ & Hc).
  split.
  - by eapply model_no_galaxy_total.
  - intros Hg. by eapply model_with_galaxy_total.
Qed.

End Constructed.

(** ** The pixel grid *)

Section Grid.
Context {F : Type} `{Arith F} `{Elementary F}.

Lemma init_grid (d n p : loc) (s : Z) (bandnames : list string) (h h' : store F)
    (self : SimpleLensedQuasarModel F) (nband Nx Ny : nat) :
  __init__ d n p s bandnames h = (Ok self, h') ->
  shape (h d) = [nband; Nx; Ny] ->
  (X self, Y self)
  = meshgrid (arange (- Z.of_nat Ny / 2) (Z.of_nat Ny / 2))
             (arange (- Z.of_nat Nx / 2) (Z.of_nat Nx / 2)).
Proof.
  unfold __init__. intros E Ed.
  destruct (negb _); [by injection E|].
  injection E as E _. rewrite Ed in E.
  destruct (shape _) as [|nband2 [|nx [|ny [|? ?]]]]; try discriminate.
  destruct (negb _); [discriminate|].
  by injection E as <-.
Qed.

Lemma arange_lookup (start stop : Z) (j : nat) :
  j < Z.to_nat (stop - start) -> arange start stop !! j = Some (start + Z.of_nat j)%Z.
Proof.
  intros Hj. unfold arange.
  change (map ?f ?l) with (f <$> l). rewrite list_lookup_fmap.
  rewrite lookup_seq_lt by done. reflexivity.
Qed.

Lemma concat_rows_lookup {A} (k : nat) (rows : list (list A)) (i j : nat) (r : list A) (v : A) :
  Forall (fun xs => length xs = k) rows ->
  rows !! i = Some r -> r !! j = Some v ->
  concat rows !! (i * k + j) = Some v.
Proof.
  intros Hrows. revert i. induction Hrows as [|xs rows Hxs _ IH]; intros i Hi Hj; [done|].
  destruct i as [|i]; cbn in Hi.
  - injection Hi as ->. cbn. by rewrite lookup_app_l by (by apply lookup_lt_Some in Hj).
  - cbn [concat]. rewrite lookup_app_r by (rewrite Hxs; lia).
    replace (S i * k + j - length xs) with (i * k + j) by (rewrite Hxs; lia).
    by apply IH.
Qed.

(** The coordinates of the grid the constructor builds.  Column [j] has
    [X = j - ceil(Ny / 2)] and row [i] has [Y = i - ceil(Nx / 2)]: the origin
    is the pixel [(ceil(Nx / 2), ceil(Ny / 2))], which for an odd size is one
    past the middle pixel. *)
Theorem grid_coordinates (d n p : loc) (s : Z) (bandnames : list string) (h h' : store F)
    (self : SimpleLensedQuasarModel F) (nband Nx Ny i j : nat) :
  __init__ d n p s bandnames h = (Ok self, h') ->
  shape (h d) = [nband; Nx; Ny] ->
  i < Nx -> j < Ny ->
  flat (X self) !! (i * Ny + j) = Some (Z.of_nat j - (Z.of_nat Ny + 1) / 2)%Z
  /\ flat (Y self) !! (i * Ny + j) = Some (Z.of_nat i - (Z.of_nat Nx + 1) / 2)%Z.
Proof.
  intros Einit Ed Hi Hj.
  pose proof (init_grid _ _ _ _ _ _ _ _ _ _ _ Einit Ed) as Eg.
  unfold meshgrid in Eg. injection Eg as -> ->. cbn [flat].
  set (x := arange (- Z.of_nat Ny / 2) (Z.of_nat Ny / 2)).
  set (y := arange (- Z.of_nat Nx / 2) (Z.of_nat Nx / 2)).
  assert (length x = Ny) as Lx by apply arange_length.
  assert (length y = Nx) as Ly by apply arange_length.
  assert (x !! j = Some (Z.of_nat j - (Z.of_nat Ny + 1) / 2)%Z) as Hx.
  { subst x. rewrite arange_lookup by (Z.div_mod_to_equations; lia).
    f_equal. Z.div_mod_to_equations. lia. }
  assert (y !! i = Some (Z.of_nat i - (Z.of_nat Nx + 1) / 2)%Z) as Hy.
  { subst y. rewrite arange_lookup by (Z.div_mod_to_equations; lia).
    f_equal. Z.div_mod_to_equations. lia. }
  split.
  - apply (concat_rows_lookup Ny _ i j x).
    + apply Forall_map, Forall_forall. done.
    + change (map ?f ?l) with (f <$> l). by rewrite list_lookup_fmap, Hy.
    + exact Hx.
  - apply (concat_rows_lookup Ny _ i j (map (fun _ => Z.of_nat i - (Z.of_nat Nx + 1) / 2)%Z x)).
    + apply Forall_map, Forall_forall. intros. by rewrite length_map.
    + change (map ?f y) with (f <$> y). by rewrite list_lookup_fmap, Hy.
    + change (map ?f x) with (f <$> x). by rewrite list_lookup_fmap, Hx.
Qed.

End Grid.

(** One band of 3 x 3 data with a 2 x 2 PSF, over the reals. *)
Definition small_store : store R := fun l =>
  match l with
  | 0 => Array [1; 3; 3] [1; 2; 3; 4; 5; 6; 7; 8; 9]%R
  | 1 => Array [1; 3; 3] [1; 1; 1; 1; 1; 1; 1; 1; 1]%R
  | _ => Array [1; 2; 2] [1; 1; 1; 1]%R
  end.

Lemma grid_coordinates_witness :
  exists self h',
    __init__ 0 1 2 2 ["g"] small_store = (Ok self, h')
    /\ flat (X self) !! 4 = Some (-1)%Z
    /\ flat (Y self) !! 4 = Some (-1)%Z.
Proof.
  eexists _, _. split; [reflexivity|].
  exact (grid_coordinates 0 1 2 2 ["g"] small_store _ _ 1 3 3 1 1 eq_refl eq_refl
                          ltac:(lia) ltac:(lia)).
Defined.

(** ** Construction that raises *)

Section Raising.
Context {F : Type} `{Arith F} `{Elementary F}.
#[local] Open Scope float_scope.

(** Once the shapes of data and noise agree, the constructor rescales both
    before it looks at the rest: if it then raises (a stack that is not
    three-dimensional, band counts that disagree), the caller's arrays stay
    divided by the percentile although no instance was made. *)
Theorem init_raises_after_rescaling (d n p : loc) (s : Z) (bandnames : list string)
    (h h' : store F) (e : exn) :
  shape (h d) = shape (h n) ->
  __init__ d n p s bandnames h = (Raise e, h') ->
  let sc := nanpercentile (flat (h d)) (lit 99.9) in
  h' = idiv (idiv h d sc) n sc
  /\ (d <> n -> h' d = array_map (fun v => v / sc) (h d)
               /\ h' n = array_map (fun v => v / sc) (h n)).
Proof.
  intros Esh E sc. unfold __init__ in E.
  rewrite (bool_decide_eq_true_2 _ Esh : shape_eqb _ _ = true) in E. cbn [negb] in E.
  injection E as _ <-. fold sc. split; [done|].
  intros Hdn. unfold idiv. split.
  - by rewrite store_set_ne, store_set_eq.
  - by rewrite store_set_eq, store_set_ne.
Qed.

(** A model without bands cannot render: the position arrays have one entry
    (the shared position) and the amplitude arrays none, which [vmap]
    refuses. *)
Theorem no_bands_no_model (self : SimpleLensedQuasarModel F) (params : pyval F) :
  bands self = [] ->
  (exists e, model_no_galaxy self params = Raise e)
  /\ (exists e, model_with_galaxy self params = Raise e).
Proof.
  intros Eb.
  assert (exists e, model_no_galaxy self params = Raise e) as [e Ee].
  { destruct (model_no_galaxy self params) as [m|e] eqn:E; [|eauto].
    destruct (model_no_galaxy_bands _ _ _ E) as (? & ? & ? & ? & ? & _ & _ & _ & _ & _ & Hne & _).
    done. }
  split; [eauto|]. exists e. unfold model_with_galaxy. by rewrite Ee.
Qed.

End Raising.

(** Two bands declared, one band of data. *)
Lemma init_raises_after_rescaling_witness :
  exists h',
    __init__ 0 1 2 2 ["g"; "r"] tiny_store = (Raise AssertionError, h')
    /\ h' 0 = Array [1; 1; 1] [(2 / 2)%R]
    /\ h' 1 = Array [1; 1; 1] [(1 / 2)%R].
Proof.
  eexists. split; [reflexivity|].
  destruct (init_raises_after_rescaling 0 1 2 2 ["g"; "r"] tiny_store _ AssertionError
              eq_refl eq_refl) as [_ Hdn].
  destruct (Hdn ltac:(done)) as [Ed En].
  split.
  - rewrite Ed. cbn. by rewrite percentile_singleton.
  - rewrite En. cbn. by rewrite percentile_singleton.
Defined.

(** A model with an empty band list, as the constructor makes it from
    stacks of zero bands. *)
Definition bandless_store : store R := fun l =>
  match l with
  | 0 => Array [0; 1; 1] []
  | 1 => Array [0; 1; 1] []
  | _ => Array [0; 2; 2] []
  end.

Lemma no_bands_no_model_witness :
  exists self h',
    __init__ 0 1 2 2 [] bandless_store = (Ok self, h')
    /\ exists e, model_no_galaxy self tiny_params = Raise e.
Proof.
  eexists _, _. split; [reflexivity|].
  refine (proj1 (no_bands_no_model _ tiny_params _)). reflexivity.
Defined.

(** ** The parameter sets the models accept *)

Section Acceptance.
Context {F : Type} `{Arith F} `{Elementary F}.
Implicit Types (self : SimpleLensedQuasarModel F) (params : pyval F).









End Acceptance.


(** ** The optimizer entry points *)

Section FlatGuess.
Context {F : Type} `{Arith F} `{Elementary F}.
Variable least_squares : (list F -> result (list F)) -> list F -> result (list F).
Variable mcmc_medians_with_galaxy :
  (pyval F -> result (ndarray F)) -> ndarray F -> ndarray F -> nat -> nat -> nat ->
  result (gmap string F).
Variable mcmc_medians_no_galaxy :
  (pyval F -> result (ndarray F)) -> ndarray F -> ndarray F -> nat -> nat -> nat -> F ->
  result (gmap string F).

Lemma residuals_reject_flat_vector (self : SimpleLensedQuasarModel F) (h : store F)
    (x : list F) :
  (exists e, residuals_no_galaxy self h (PSeq x) = Raise e)
  /\ (exists e, residuals_with_galaxy self h (PSeq x) = Raise e).
Proof. split; eexists; reflexivity. Qed.

(** [least_squares] hands the residual function a flat vector, and the
    models index their parameters by string keys.  So for a solver that
    starts by evaluating the residuals at the initial guess and lets their
    exception through, both optimizer methods raise on every guess and assign
    nothing: the instance and the store are as before the call. *)
Theorem optimizers_raise_on_every_guess (self : SimpleLensedQuasarModel F) (h : store F)
    (initial_guess : list F) :
  (forall f x0 e, f x0 = Raise e -> least_squares f x0 = Raise e) ->
  (exists e, optimize_no_galaxy least_squares self h initial_guess = Raise e)
  /\ (exists e, optimize_with_galaxy least_squares self h initial_guess = Raise e)
  /\ perform least_squares mcmc_medians_with_galaxy mcmc_medians_no_galaxy (self, h)
             (Call_optimize_no_galaxy initial_guess) = (self, h)
  /\ perform least_squares mcmc_medians_with_galaxy mcmc_medians_no_galaxy (self, h)
             (Call_optimize_with_galaxy initial_guess) = (self, h).
Proof.
  intros Hls.
  destruct (residuals_reject_flat_vector self h initial_guess) as [[e1 E1] [e2 E2]].
  assert (optimize_no_galaxy least_squares self h initial_guess = Raise e1) as O1.
  { unfold optimize_no_galaxy.
    by rewrite (Hls (fun x => residuals_no_galaxy self h (PSeq x)) initial_guess e1 E1). }
  assert (optimize_with_galaxy least_squares self h initial_guess = Raise e2) as O2.
  { unfold optimize_with_galaxy.
    by rewrite (Hls (fun x => residuals_with_galaxy self h (PSeq x)) initial_guess e2 E2). }
  split; [eauto|]. split; [eauto|]. cbn [perform]. by rewrite O1, O2.
Qed.

End FlatGuess.

Lemma optimizers_raise_on_every_guess_witness :
  exists e,
    optimize_no_galaxy one_step_least_squares (one_pixel_model 3 4) tiny_store [0%R; 1%R]
    = Raise e.
Proof.
  refine (proj1 (optimizers_raise_on_every_guess one_step_least_squares
                   no_samples_with_galaxy no_samples_no_galaxy
                   (one_pixel_model 3 4) tiny_store [0%R; 1%R] _)).
  intros f x0 e E. unfold one_step_least_squares. by rewrite E.
Defined.

(** ** Whole-pixel offsets *)

Section PixelShift.
Context {F : Type} `{Arith F}.

Lemma scale_and_translate_lookup (image out : ndarray F) (m0 m1 n0 n1 : nat)
    (sc tr : F * F) (a b : nat) :
  shape image = [m0; m1] ->
  scale_and_translate image [n0; n1] sc tr = Ok out ->
  a < n0 -> b < n1 ->
  flat out !! (a * n1 + b)
  = Some (dot (weight_column m0 sc.1 tr.1 a)
              (map (fun i => dot (row m1 (flat image) i) (weight_column m1 sc.2 tr.2 b))
                   (seq 0 m0))).
Proof.
  intros Es E Ha Hb. unfold scale_and_translate in E. rewrite Es in E.
  injection E as <-. cbn [flat]. rewrite flat_map_concat_map.
  eapply (concat_rows_lookup n1 _ a b).
  - apply Forall_map, Forall_forall. intros. by rewrite length_map, length_seq.
  - change (map ?f ?l) with (f <$> l). rewrite list_lookup_fmap, lookup_seq_lt by done.
    reflexivity.
  - change (map ?f ?l) with (f <$> l). rewrite list_lookup_fmap, lookup_seq_lt by done.
    reflexivity.
Qed.

End PixelShift.

Lemma of_nat_succ_Qc (i : nat) : of_nat (F:=Qc) (S i) = (of_nat i + 1)%Qc.
Proof.
  unfold of_nat, of_int. cbn [lit Qc_arith]. apply Qc_is_canon. cbn.
  rewrite !Qred_correct, Nat2Z.inj_succ. unfold Z.succ. rewrite inject_Z_plus. reflexivity.
Qed.

Lemma sample_position_shift (sc t : Qc) (i : nat) :
  sample_position sc (t + 1)%Qc (S i) = sample_position sc t i.
Proof.
  unfold sample_position. rewrite of_nat_succ_Qc.
  cbn [lit fadd fsub fmul fdiv Qc_arith]. ring.
Qed.

Lemma weight_column_shift (m : nat) (sc t : Qc) (i : nat) :
  weight_column m sc (t + 1)%Qc (S i) = weight_column m sc t i.
Proof. unfold weight_column. by rewrite sample_position_shift. Qed.

(** In exact arithmetic an offset of one whole pixel moves the rendered
    source by one pixel and changes nothing else: [dx + 1] moves every value
    one column on, [dy + 1] one row on. *)
Theorem whole_pixel_offset_shifts_image (self : SimpleLensedQuasarModel Qc)
    (dx dy A : Qc) (p out out_x out_y : ndarray Qc) (Nx Ny a b : nat) :
  shape (X self) = [Nx; Ny] ->
  translate_and_scale_psf self dx dy A p = Ok out ->
  translate_and_scale_psf self (dx + 1)%Qc dy A p = Ok out_x ->
  translate_and_scale_psf self dx (dy + 1)%Qc A p = Ok out_y ->
  a < Nx -> b < Ny ->
  (S b < Ny -> flat out_x !! (a * Ny + S b) = flat out !! (a * Ny + b))
  /\ (S a < Nx -> flat out_y !! (S a * Ny + b) = flat out !! (a * Ny + b)).
Proof.
  intros EX E Ex Ey Ha Hb. unfold translate_and_scale_psf in E, Ex, Ey.
  rewrite EX in E, Ex, Ey. cbn [lookup list_lookup] in E, Ex, Ey.
  destruct (shape p !! 1) as [inishape|] eqn:Ep; [|discriminate].
  apply bind_Ok in E as (r & Er & [= <-]).
  apply bind_Ok in Ex as (rx & Erx & [= <-]).
  apply bind_Ok in Ey as (ry & Ery & [= <-]).
  assert (exists m0 m1, shape p = [m0; m1]) as (m0 & m1 & Es).
  { unfold scale_and_translate in Er.
    destruct (shape p) as [|m0 [|m1 [|? ?]]]; try discriminate; eauto. }
  cbn [array_map flat]. change (map ?f ?l) with (f <$> l). rewrite !list_lookup_fmap.
  split; intros Hs.
  - rewrite (scale_and_translate_lookup p rx m0 m1 Nx Ny _ _ a (S b) Es Erx Ha Hs).
    rewrite (scale_and_translate_lookup p r m0 m1 Nx Ny _ _ a b Es Er Ha Hb).
    cbn [fst snd fadd Qc_arith].
    replace (dx + 1 + _)%Qc with
      (dx + (of_nat inishape / lit 2 / of_int (upsampling_factor self)
             + of_int (Z.of_nat Ny - Z.of_nat inishape) / of_int (upsampling_factor self))%fl
       + 1)%Qc by (cbn [fadd fdiv Qc_arith]; ring).
    by rewrite weight_column_shift.
  - rewrite (scale_and_translate_lookup p ry m0 m1 Nx Ny _ _ (S a) b Es Ery Hs Hb).
    rewrite (scale_and_translate_lookup p r m0 m1 Nx Ny _ _ a b Es Er Ha Hb).
    cbn [fst snd fadd Qc_arith].
    replace (dy + 1 + _)%Qc with
      (dy + (of_nat inishape / lit 2 / of_int (upsampling_factor self)
             + of_int (Z.of_nat Nx - Z.of_nat inishape) / of_int (upsampling_factor self))%fl
       + 1)%Qc by (cbn [fadd fdiv Qc_arith]; ring).
    by rewrite weight_column_shift.
Qed.

Lemma whole_pixel_offset_shifts_image_witness :
  exists out out_x out_y,
    translate_and_scale_psf (grid3c 2 ["g"] (stack [6; 6] [blob6])) 0%Qc 0%Qc 1%Qc blob6
    = Ok out
    /\ translate_and_scale_psf (grid3c 2 ["g"] (stack [6; 6] [blob6])) (0 + 1)%Qc 0%Qc 1%Qc
                               blob6 = Ok out_x
    /\ translate_and_scale_psf (grid3c 2 ["g"] (stack [6; 6] [blob6])) 0%Qc (0 + 1)%Qc 1%Qc
                               blob6 = Ok out_y
    /\ flat out_x !! 5 = flat out !! 4
    /\ flat out_y !! 7 = flat out !! 4.
Proof.
  set (M := grid3c 2 ["g"] (stack [6; 6] [blob6])).
  destruct (translate_and_scale_psf_total M 0%Qc 0%Qc 1%Qc blob6 3 3 6 6 eq_refl eq_refl)
    as [out E].
  destruct (translate_and_scale_psf_total M (0 + 1)%Qc 0%Qc 1%Qc blob6 3 3 6 6
              eq_refl eq_refl) as [out_x Ex].
  destruct (translate_and_scale_psf_total M 0%Qc (0 + 1)%Qc 1%Qc blob6 3 3 6 6
              eq_refl eq_refl) as [out_y Ey].
  exists out, out_x, out_y. repeat (split; [done|]).
  destruct (whole_pixel_offset_shifts_image M 0%Qc 0%Qc 1%Qc blob6 out out_x out_y 3 3 1 1
              eq_refl E Ex Ey ltac:(lia) ltac:(lia)) as [Hx Hy].
  split; [exact (Hx ltac:(lia)) | exact (Hy ltac:(lia))].
Defined.

(** ** Symmetries of the Sérsic profile *)

Section SersicSymmetry.
#[local] Open Scope R_scope.

Lemma sersic_array_ext (self : SimpleLensedQuasarModel R)
    (I_e r_e x0 y0 ellip theta I_e' r_e' x0' y0' ellip' theta' : R) :
  (forall Xv Yv, sersic_value I_e r_e x0 y0 ellip theta Xv Yv
                 = sersic_value I_e' r_e' x0' y0' ellip' theta' Xv Yv) ->
  elliptical_sersic_profile self I_e r_e x0 y0 ellip theta
  = elliptical_sersic_profile self I_e' r_e' x0' y0' ellip' theta'.
Proof.
  intros Hv. unfold elliptical_sersic_profile, array_zip. f_equal.
  apply list_eq. intros k.
  destruct (flat (X self) !! k) as [Xv|] eqn:EX; [destruct (flat (Y self) !! k) as [Yv|] eqn:EY|].
  - pose proof (sersic_lookup self I_e r_e x0 y0 ellip theta k Xv Yv EX EY) as E1.
    pose proof (sersic_lookup self I_e' r_e' x0' y0' ellip' theta' k Xv Yv EX EY) as E2.
    unfold elliptical_sersic_profile, array_zip in E1, E2. cbn [flat] in E1, E2.
    rewrite E1, E2. by rewrite Hv.
  - rewrite !lookup_zip_with, EX, EY. done.
  - rewrite !lookup_zip_with, EX. done.
Qed.

(** A round profile ([ellip = 0]) does not depend on the orientation
    angle. *)
Theorem round_profile_ignores_theta (self : SimpleLensedQuasarModel R)
    (I_e r_e x0 y0 theta theta' : R) :
  elliptical_sersic_profile self I_e r_e x0 y0 0 theta
  = elliptical_sersic_profile self I_e r_e x0 y0 0 theta'.
Proof.
  apply sersic_array_ext. intros Xv Yv. unfold sersic_value. cbv zeta.
  replace (1 - 0) with 1 by lra.
  set (u := IZR Xv - x0). set (v := IZR Yv - y0).
  replace ((v * cos (theta * PI / 180) - u * sin (theta * PI / 180)) / 1)
    with (v * cos (theta * PI / 180) - u * sin (theta * PI / 180)) by lra.
  replace ((v * cos (theta' * PI / 180) - u * sin (theta' * PI / 180)) / 1)
    with (v * cos (theta' * PI / 180) - u * sin (theta' * PI / 180)) by lra.
  by rewrite !rotation_preserves_norm.
Qed.

(** The angle is in degrees and the profile has the symmetry of an
    ellipse: turning it by 180 degrees changes nothing. *)
Theorem profile_has_period_180_degrees (self : SimpleLensedQuasarModel R)
    (I_e r_e x0 y0 ellip theta : R) :
  elliptical_sersic_profile self I_e r_e x0 y0 ellip (theta + 180)
  = elliptical_sersic_profile self I_e r_e x0 y0 ellip theta.
Proof.
  apply sersic_array_ext. intros Xv Yv. unfold sersic_value. cbv zeta.
  replace ((theta + 180) * PI / 180) with (theta * PI / 180 + PI) by (field; lra).
  rewrite neg_cos, neg_sin.
  set (c := cos (theta * PI / 180)). set (sn := sin (theta * PI / 180)).
  set (u := IZR Xv - x0). set (v := IZR Yv - y0).
  replace ((u * - c + v * - sn) * (u * - c + v * - sn)
           + (v * - c - u * - sn) / (1 - ellip) * ((v * - c - u * - sn) / (1 - ellip)))
    with ((u * c + v * sn) * (u * c + v * sn)
          + (v * c - u * sn) / (1 - ellip) * ((v * c - u * sn) / (1 - ellip))).
  - reflexivity.
  - unfold Rdiv. ring.
Qed.

End SersicSymmetry.

(** ** From the sampler back to the model *)

Section SamplerRoundTrip.
Context {F : Type} `{Arith F} `{Elementary F}.
Variable mcmc_medians_no_galaxy :
  (pyval F -> result (ndarray F)) -> ndarray F -> ndarray F -> nat -> nat -> nat -> F ->
  result (gmap string F).

(** One turn of the loop that files the medians of a band. *)
Definition file_band_medians (medians : gmap string F)
    (acc : result (gmap string (pyval F))) (ib : nat * string)
    : result (gmap string (pyval F)) :=
  let '(i, band) := ib in
  pps ← acc;
  amps ← medians_of medians ["A1_" +:+ band; "A2_" +:+ band];
  let pps := <[band := amps]> pps in
  if decide (i = 0) then Ok pps
  else offs ← medians_of medians ["dx_" +:+ band; "dy_" +:+ band];
       Ok (<["offsets_" +:+ band := offs]> pps).

Lemma medians_of_two (medians : gmap string F) (k1 k2 : string) (v : pyval F) :
  medians_of medians [k1; k2] = Ok v -> has_pair v.
Proof.
  unfold medians_of. cbn.
  destruct (medians !! k1) as [a|]; [|discriminate]. cbn.
  destruct (medians !! k2) as [b|]; [|discriminate]. cbn.
  intros [= <-]. by exists a, b, [].
Qed.

Lemma medians_of_four (medians : gmap string F) (k1 k2 k3 k4 : string) (v : pyval F) :
  medians_of medians [k1; k2; k3; k4] = Ok v -> exists a b c d, v = PSeq [a; b; c; d].
Proof.
  unfold medians_of. cbn.
  destruct (medians !! k1) as [a|]; [|discriminate]. cbn.
  destruct (medians !! k2) as [b|]; [|discriminate]. cbn.
  destruct (medians !! k3) as [c|]; [|discriminate]. cbn.
  destruct (medians !! k4) as [d|]; [|discriminate]. cbn.
  intros [= <-]. by exists a, b, c, d.
Qed.

Lemma file_band_medians_raise (medians : gmap string F) (e : exn)
    (l : list (nat * string)) :
  foldl (file_band_medians medians) (Raise e) l = Raise e.
Proof. induction l as [|[i band] l IH]; [done|]. exact IH. Qed.

(** What the loop keeps: every value filed is a tuple of at least two
    numbers, keys once filed stay, the bands seen have their keys, and
    ['positions'] is not touched when no band has that name. *)
Lemma file_band_medians_invariant (medians : gmap string F) (l : list (nat * string))
    (pps0 pps : gmap string (pyval F)) :
  foldl (file_band_medians medians) (Ok pps0) l = Ok pps ->
  (forall k v, pps0 !! k = Some v -> has_pair v) ->
  (forall k v, pps !! k = Some v -> has_pair v)
  /\ (forall k, is_Some (pps0 !! k) -> is_Some (pps !! k))
  /\ (forall i band, (i, band) ∈ l ->
        is_Some (pps !! band) /\ (i <> 0 -> is_Some (pps !! ("offsets_" +:+ band))))
  /\ ((forall i band, (i, band) ∈ l -> band <> "positions") ->
      pps !! "positions" = pps0 !! "positions").
Proof.
  revert pps0. induction l as [|[i band] l IH]; intros pps0 E Hpair.
  - injection E as <-. split; [done|]. split; [done|]. split; [|done].
    intros i' band' Hin. by apply elem_of_nil in Hin.
  - cbn [foldl] in E.
    destruct (file_band_medians medians (Ok pps0) (i, band)) as [pps1|e] eqn:E1;
      [|by rewrite file_band_medians_raise in E].
    assert (exists amps, has_pair amps
              /\ (forall k v, pps1 !! k = Some v -> has_pair v)
              /\ (forall k, is_Some (<[band := amps]> pps0 !! k) -> is_Some (pps1 !! k))
              /\ (i <> 0 -> is_Some (pps1 !! ("offsets_" +:+ band)))
              /\ (band <> "positions" -> pps1 !! "positions" = pps0 !! "positions"))
      as (amps & Hamps & Hpair1 & Hdom1 & Hoff1 & Hpos1).
    { unfold file_band_medians in E1.
      apply bind_Ok in E1 as (pps0' & [= <-] & E1).
      apply bind_Ok in E1 as (amps & Ea & E1).
      pose proof (medians_of_two _ _ _ _ Ea) as Hamps.
      exists amps. split; [done|].
      destruct (decide (i = 0)) as [->|Hi].
      - injection E1 as <-. repeat split; try done.
        + intros k v. rewrite lookup_insert. case_decide; [by intros [= <-]|]. apply Hpair.
        + intros Hne. by rewrite lookup_insert_ne.
      - apply bind_Ok in E1 as (offs & Eo & [= <-]).
        pose proof (medians_of_two _ _ _ _ Eo) as Hoffs.
        repeat split.
        + intros k v. rewrite lookup_insert. case_decide; [by intros [= <-]|].
          rewrite lookup_insert. case_decide; [by intros [= <-]|]. apply Hpair.
        + intros k Hk. rewrite lookup_insert. case_decide; [done|]. exact Hk.
        + intros _. by rewrite lookup_insert_eq.
        + intros Hne. rewrite lookup_insert_ne by done. by rewrite lookup_insert_ne. }
    destruct (IH pps1 E Hpair1) as (Hpair' & Hdom' & Hkeys' & Hpos').
    split; [exact Hpair'|]. split; [|split].
    + intros k Hk. apply Hdom', Hdom1. rewrite lookup_insert. by case_decide.
    + intros i' band' Hin. apply elem_of_cons in Hin as [[= -> ->]|Hin].
      * split.
        -- apply Hdom', Hdom1. by rewrite lookup_insert_eq.
        -- intros Hi. by apply Hdom', Hoff1.
      * by apply Hkeys'.
    + intros Hno. rewrite Hpos'.
      * apply Hpos1. apply (Hno i). by left.
      * intros i' band' Hin. apply (Hno i'). by right.
Qed.

Lemma enumerate_lookup {A} (l : list A) (b : nat) (x : A) :
  l !! b = Some x -> (b, x) ∈ enumerate l.
Proof.
  intros Hb. unfold enumerate. apply list_elem_of_lookup. exists b.
  rewrite lookup_zip_with, lookup_seq_lt by (by apply lookup_lt_Some in Hb).
  cbn. by rewrite Hb.
Qed.

Lemma enumerate_elem {A} (l : list A) (i : nat) (x : A) :
  (i, x) ∈ enumerate l -> x ∈ l.
Proof.
  intros Hin. unfold enumerate in Hin. apply list_elem_of_lookup in Hin as [k Hk].
  rewrite lookup_zip_with in Hk.
  destruct (seq 0 (length l) !! k); [|done]. cbn in Hk.
  destruct (l !! k) eqn:El; [|done]. injection Hk as _ <-.
  apply list_elem_of_lookup. eauto.
Qed.

(** The dict of posterior medians that [sample_no_galaxy] leaves on the
    instance is a parameter set of the no-galaxy model, provided no band is
    called ['positions'] (that band's amplitudes would replace the shared
    coordinates). *)
Theorem sampled_medians_are_valid_params (self self' : SimpleLensedQuasarModel F)
    (h : store F) (num_warmup num_samples num_chains : nat) (position_scale : F) :
  "positions" ∉ bands self ->
  sample_no_galaxy mcmc_medians_no_galaxy self h num_warmup num_samples num_chains
                   position_scale = Ok self' ->
  exists pps,
    param_mediansampler_no_galaxy self' = Some pps
    /\ valid_no_galaxy (bands self) pps
    /\ bands self' = bands self /\ psf self' = psf self /\ X self' = X self
    /\ forall params, model_no_galaxy self' params = model_no_galaxy self params.
Proof.
  intros Hno E. unfold sample_no_galaxy in E.
  apply bind_Ok in E as (medians & _ & E).
  apply bind_Ok in E as (positions & Epos & E).
  apply bind_Ok in E as (pps & Efold & [= <-]).
  apply medians_of_four in Epos as (a & b & c & d & ->).
  change (foldl (file_band_medians medians) (Ok (<["positions" := PSeq [a; b; c; d]]> ∅))
                (enumerate (bands self)) = Ok pps) in Efold.
  destruct (file_band_medians_invariant _ _ _ _ Efold) as (Hpair & _ & Hkeys & Hpos).
  { intros k v. rewrite lookup_insert. case_decide; [|by rewrite lookup_empty].
    intros [= <-]. by exists a, b, [c; d]. }
  exists (PDict pps). split; [done|]. split; [|done].
  split; [|split].
  - exists a, b, c, d. cbn. rewrite Hpos; [by rewrite lookup_insert_eq|].
    intros i band Hin ->. by apply enumerate_elem in Hin.
  - apply Forall_lookup. intros b' band Hb.
    destruct (Hkeys b' band (enumerate_lookup _ _ _ Hb)) as [[v Ev] _].
    exists v. cbn. rewrite Ev. split; [done|]. by eapply Hpair.
  - apply Forall_lookup. intros b' band Hb.
    assert (bands self !! S b' = Some band) as Hb'.
    { destruct (bands self); [done|]. exact Hb. }
    destruct (Hkeys (S b') band (enumerate_lookup _ _ _ Hb')) as [_ Hoff].
    destruct (Hoff ltac:(done)) as [v Ev].
    exists v. cbn. rewrite Ev. split; [done|]. by eapply Hpair.
Qed.

End SamplerRoundTrip.

(** A sampler stand-in whose medians are fixed numbers for one band. *)
Definition fixed_medians_no_galaxy (_ : pyval R -> result (ndarray R)) (_ _ : ndarray R)
    (_ _ _ : nat) (_ : R) : result (gmap string R) :=
  Ok (list_to_map [("x1", 0%R); ("y1", 0%R); ("x2", 1%R); ("y2", 1%R);
                   ("A1_g", 2%R); ("A2_g", 3%R)]).

Lemma sampled_medians_are_valid_params_witness :
  exists self' pps,
    sample_no_galaxy fixed_medians_no_galaxy (one_pixel_model 3 4) tiny_store 1 1 1 1%R
    = Ok self'
    /\ param_mediansampler_no_galaxy self' = Some pps
    /\ valid_no_galaxy ["g"] pps.
Proof.
  assert (exists self',
             sample_no_galaxy fixed_medians_no_galaxy (one_pixel_model 3 4) tiny_store
                              1 1 1 1%R = Ok self') as [self' E]
    by (eexists; reflexivity).
  destruct (sampled_medians_are_valid_params fixed_medians_no_galaxy (one_pixel_model 3 4)
              self' tiny_store 1 1 1 1%R) as (pps & Hp & Hv & _).
  - intros Hin. apply list_elem_of_singleton in Hin. discriminate.
  - exact E.
  - exists self', pps. split; [exact E|]. split; [exact Hp | exact Hv].
Defined.

(** ** Residuals *)

Section ResidualVector.
Context {F : Type} `{Arith F} `{Elementary F}.
#[local] Open Scope float_scope.

Lemma idiv_well_shaped (h : store F) (l l' : loc) (c : F) :
  well_shaped (h l') -> well_shaped (idiv h l c l').
Proof.
  unfold idiv, store_set. destruct (decide (l' = l)) as [->|]; [|done].
  unfold well_shaped, size_of, array_map. cbn. by rewrite length_map.
Qed.

Lemma constructed_residuals (d n p : loc) (s : Z) (bandnames : list string)
    (h h' : store F) (self : SimpleLensedQuasarModel F) (params : pyval F) (m : ndarray F) :
  __init__ d n p s bandnames h = (Ok self, h') ->
  well_shaped (h d) -> well_shaped (h n) ->
  model_no_galaxy self params = Ok m \/ model_with_galaxy self params = Ok m ->
  exists res, normalised_residuals self h' m = Ok res
              /\ length res = size_of (h' (data self)).
Proof.
  intros Einit Wd Wn Hm.
  destruct (constructed_model_shape _ _ _ _ _ _ _ _ _ _ Einit Hm) as [Em Wm].
  destruct (init_Ok _ _ _ _ _ _ _ _ Einit) as (Esh & Eh & _ & Ed & En & _).
  unfold normalised_residuals.
  assert (shape (h' (noisemap self)) = shape (h' (data self))) as Ens.
  { rewrite Ed, En, Eh, !idiv_shape. done. }
  rewrite (bool_decide_eq_true_2 _ Em : shape_eqb _ _ = true).
  rewrite (bool_decide_eq_true_2 _ (eq_trans Em (eq_sym Ens)) : shape_eqb _ _ = true).
  cbn [andb]. eexists. split; [reflexivity|].
  assert (well_shaped (h' (data self)) /\ well_shaped (h' (noisemap self))) as [Wd' Wn'].
  { rewrite Ed, En, Eh. split; by repeat apply idiv_well_shaped. }
  unfold well_shaped, size_of, array_zip in *. cbn [flat shape].
  rewrite !length_zip_with. rewrite Wm, Wd', Wn', Em, Ens. lia.
Qed.


End ResidualVector.


(** The residuals in the units of the caller's arrays: with data [D] and
    noise [N] as passed in and [scale] the percentile kept on the instance,
    every residual is [(scale * model - D) / N]; the model is fitted in units
    of [scale]. *)
Theorem residuals_in_raw_units (d n p : loc) (s : Z) (bandnames : list string)
    (h h' : store R) (self : SimpleLensedQuasarModel R) (params : pyval R)
    (res : list R) (m : ndarray R) (k : nat) (mk dk nk : R) :
  d <> n ->
  __init__ d n p s bandnames h = (Ok self, h') ->
  model_no_galaxy self params = Ok m ->
  residuals_no_galaxy self h' params = Ok res ->
  flat m !! k = Some mk -> flat (h d) !! k = Some dk -> flat (h n) !! k = Some nk ->
  scale self <> 0%R -> nk <> 0%R ->
  res !! k = Some ((scale self * mk - dk) / nk)%R.
Proof.
  intros Hdn Einit Em Er Hm Hd Hn Hsc Hnk.
  destruct (init_Ok _ _ _ _ _ _ _ _ Einit) as (_ & Eh & Esc & Ed & En & _).
  set (sc := nanpercentile (flat (h d)) (lit 99.9)) in *. clearbody sc.
  destruct (rescaled_store h d n sc Hdn) as [Ehd Ehn]. rewrite <- Eh in Ehd, Ehn.
  rewrite Esc in Hsc |- *.
  unfold residuals_no_galaxy in Er. rewrite Em in Er. cbn in Er.
  unfold normalised_residuals in Er.
  destruct (_ && _); [|discriminate]. injection Er as <-.
  unfold array_zip. cbn [flat]. rewrite !lookup_zip_with, Hm.
  rewrite Ed, En, Ehd, Ehn. cbn [array_map flat].
  change (map ?f ?l) with (f <$> l). rewrite !list_lookup_fmap, Hd, Hn. cbn.
  f_equal. field. done.
Qed.

Lemma residuals_in_raw_units_witness :
  exists self h' m (res : list R) mk,
    __init__ 0 1 2 2 ["g"] tiny_store = (Ok self, h')
    /\ model_no_galaxy self tiny_params = Ok m
    /\ flat m !! 0 = Some mk
    /\ res !! 0 = Some ((scale self * mk - 2) / 1)%R.
Proof.
  assert (exists self h', __init__ 0 1 2 2 ["g"] tiny_store = (Ok self, h'))
    as (self & h' & Einit) by (eexists _, _; reflexivity).
  destruct (constructed_model_total 0 1 2 2 ["g"] tiny_store h' self tiny_params Einit
              ltac:(done) (proj1 tiny_params_valid)) as [[m Em] _].
  destruct (constructed_residuals 0 1 2 2 ["g"] tiny_store h' self tiny_params m Einit
              eq_refl eq_refl (or_introl Em)) as (res & Er & L).
  destruct (constructed_model_shape 0 1 2 2 ["g"] tiny_store h' self tiny_params m Einit
              (or_introl Em)) as [Esh Wm].
  destruct (init_Ok _ _ _ _ _ _ _ _ Einit) as (_ & Eh & Esc & Ed & _).
  assert (exists mk, flat m !! 0 = Some mk) as [mk Hmk].
  { apply lookup_lt_is_Some. unfold well_shaped, size_of in Wm.
    rewrite Wm, Esh, Ed, Eh, !idiv_shape. cbn. lia. }
  exists self, h', m, res, mk. repeat (split; [done|]).
  apply (residuals_in_raw_units 0 1 2 2 ["g"] tiny_store h' self tiny_params res m 0
                                mk 2%R 1%R); try done.
  - unfold residuals_no_galaxy. by rewrite Em.
  - rewrite Esc. cbn. rewrite percentile_singleton. lra.
Defined.

(** ** What the models read *)

Section Frame.
Context {F : Type} `{Arith F} `{Elementary F}.
Implicit Types (self : SimpleLensedQuasarModel F) (params : pyval F).

Lemma for_each_ext {A B} (f g : A -> result B) (l : list A) :
  (forall a, a ∈ l -> f a = g a) -> for_each f l = for_each g l.
Proof.
  induction l as [|a l IH]; intros Hfg; [done|]. cbn.
  rewrite (Hfg a) by by left. destruct (g a); [|done]. cbn.
  rewrite IH; [done|]. intros a' Ha'. apply Hfg. by right.
Qed.

Lemma band_amplitudes_frame self params params' (k : nat) :
  (forall band, band ∈ bands self -> getitem params band = getitem params' band) ->
  band_amplitudes self params k = band_amplitudes self params' k.
Proof.
  intros Hb. unfold band_amplitudes. apply for_each_ext.
  intros band Hin. by rewrite (Hb band Hin).
Qed.

Lemma band_positions_frame self params params' (c : F) (k : nat) :
  (forall band, band ∈ tail (bands self) ->
                getitem params ("offsets_" +:+ band) = getitem params' ("offsets_" +:+ band)) ->
  band_positions self params c k = band_positions self params' c k.
Proof.
  intros Hb. unfold band_positions. f_equal. apply for_each_ext.
  intros band Hin. by rewrite (Hb band Hin).
Qed.

(** The models read the parameter set through a fixed list of keys:
    ['positions'], the band names, ['offsets_' + band] for every band but the
    first and, with a galaxy, ['galparams'].  Two parameter sets that agree
    under these keys give the same result, whatever else they hold: the
    no-galaxy model ignores the galaxy group, and neither model looks at an
    offset entry of the reference band. *)
Theorem models_read_only_their_keys self params params' :
  getitem params "positions" = getitem params' "positions" ->
  (forall band, band ∈ bands self -> getitem params band = getitem params' band) ->
  (forall band, band ∈ tail (bands self) ->
                getitem params ("offsets_" +:+ band) = getitem params' ("offsets_" +:+ band)) ->
  model_no_galaxy self params = model_no_galaxy self params'
  /\ (getitem params "galparams" = getitem params' "galparams" ->
      model_with_galaxy self params = model_with_galaxy self params').
Proof.
  intros Hpos Hamp Hoff.
  assert (model_no_galaxy self params = model_no_galaxy self params') as Hno.
  { unfold model_no_galaxy. rewrite Hpos.
    rewrite !(band_amplitudes_frame self params params') by done.
    destruct (getitem params' "positions") as [pos|]; [|done]. cbn.
    destruct (unpack4 pos) as [[[[x1 y1] x2] y2]|]; [|done]. cbn.
    by rewrite !(band_positions_frame self params params') by done. }
  split; [exact Hno|]. intros Hgal.
  unfold model_with_galaxy. rewrite Hno, Hgal.
  destruct (model_no_galaxy self params') as [m|]; [|done]. cbn.
  destruct (getitem params' "galparams") as [gal|]; [|done]. cbn.
  destruct (getitem gal "positions") as [gpos|]; [|done]. cbn.
  destruct (unpack2 gpos) as [[xg yg]|]; [|done]. cbn.
  destruct (getitem gal "morphology") as [morph|]; [|done]. cbn.
  destruct (unpack3 morph) as [[[r_e ellip] theta]|]; [|done]. cbn.
  destruct (for_each _ (bands self)) as [I_es|]; [|done]. cbn.
  by rewrite !(band_positions_frame self params params') by done.
Qed.

End Frame.

(** The parameter set of the tiny model with an offset entry for its only,
    hence reference, band. *)
Definition tiny_params_with_reference_offset : pyval R :=
  match tiny_params with
  | PDict d => PDict (<["offsets_g" := PSeq [5; 5]%R]> d)
  | v => v
  end.

Lemma models_read_only_their_keys_witness :
  model_no_galaxy (one_pixel_model 3 4) tiny_params
  = model_no_galaxy (one_pixel_model 3 4) tiny_params_with_reference_offset.
Proof.
  refine (proj1 (models_read_only_their_keys (one_pixel_model 3 4) tiny_params
                   tiny_params_with_reference_offset _ _ _)).
  - reflexivity.
  - intros band Hin. apply list_elem_of_singleton in Hin as ->. reflexivity.
  - intros band Hin. by apply elem_of_nil in Hin.
Defined.

(** ** Exchanging the two point sources *)

Section Exchange.
Context {F : Type} `{Arith F} `{Elementary F}.
Implicit Types (self : SimpleLensedQuasarModel F) (params : pyval F).

Lemma zip_with_comm (f : F -> F -> F) (u v : list F) :
  (forall a b, f a b = f b a) -> zip_with f u v = zip_with f v u.
Proof.
  intros Hf. revert v. induction u as [|a u IH]; intros [|b v]; cbn; try done.
  by rewrite Hf, IH.
Qed.

Lemma vmap4_shape self (xs ys amps : list F) (psfs : list (ndarray F)) (r : ndarray F) :
  xs <> [] ->
  vmap4 (translate_and_scale_psf self) xs ys amps psfs = Ok r ->
  shape r = length xs :: shape (X self).
Proof.
  intros Hne (L1 & L2 & L3 & rs & Ers & ->)%vmap4_Ok.
  pose proof (for_each_length _ _ _ Ers) as Lrs. rewrite zip4_length in Lrs by done.
  assert (uniform (shape (X self)) rs) as U.
  { eapply for_each_Forall; [exact Ers|]. intros [[[x y] a] p] r Er.
    by apply translate_and_scale_psf_shape in Er. }
  destruct rs as [|r0 rs]; [by destruct xs|].
  cbn. apply Forall_inv in U as [-> _]. by rewrite <- Lrs.
Qed.

(** The model does not tell the two point sources apart: a parameter set
    with the two position pairs exchanged and, in every band, the two
    amplitudes exchanged gives the same stack, in any arithmetic whose
    addition commutes. *)
Theorem exchanging_sources_keeps_model self params params' (x1 y1 x2 y2 : F)
    (m : ndarray F) :
  (forall a b : F, fadd a b = fadd b a) ->
  getitem params "positions" = Ok (PSeq [x1; y1; x2; y2]) ->
  getitem params' "positions" = Ok (PSeq [x2; y2; x1; y1]) ->
  (forall band, band ∈ bands self ->
     (getitem params' band ≫= fun v => index v 0) = (getitem params band ≫= fun v => index v 1)
     /\ (getitem params' band ≫= fun v => index v 1)
        = (getitem params band ≫= fun v => index v 0)) ->
  (forall band, band ∈ tail (bands self) ->
     getitem params' ("offsets_" +:+ band) = getitem params ("offsets_" +:+ band)) ->
  model_no_galaxy self params = Ok m ->
  model_no_galaxy self params' = Ok m.
Proof.
  intros Hcomm Hpos Hpos' Hamp Hoff E.
  unfold model_no_galaxy in E |- *. rewrite Hpos in E. rewrite Hpos'. cbn in E |- *.
  apply bind_Ok in E as (A1s & EA1 & E).
  apply bind_Ok in E as (A2s & EA2 & E).
  apply bind_Ok in E as (xs1 & Exs1 & E).
  apply bind_Ok in E as (ys1 & Eys1 & E).
  apply bind_Ok in E as (xs2 & Exs2 & E).
  apply bind_Ok in E as (ys2 & Eys2 & E).
  apply bind_Ok in E as (p1 & Ep1 & E).
  apply bind_Ok in E as (p2 & Ep2 & [= <-]).
  assert (band_amplitudes self params' 0 = Ok A2s) as ->.
  { rewrite <- EA2. unfold band_amplitudes. apply for_each_ext.
    intros band Hin. by destruct (Hamp band Hin) as [-> _]. }
  assert (band_amplitudes self params' 1 = Ok A1s) as ->.
  { rewrite <- EA1. unfold band_amplitudes. apply for_each_ext.
    intros band Hin. by destruct (Hamp band Hin) as [_ ->]. }
  cbn.
  rewrite !(band_positions_frame self params' params) by done.
  rewrite Exs2, Eys2, Exs1, Eys1. cbn. rewrite Ep2. cbn. rewrite Ep1. cbn.
  assert (xs1 <> [] /\ xs2 <> []) as [N1 N2].
  { apply band_positions_cons in Exs1 as (? & _ & ->).
    apply band_positions_cons in Exs2 as (? & _ & ->). done. }
  pose proof (vmap4_shape _ _ _ _ _ _ N1 Ep1) as S1.
  pose proof (vmap4_shape _ _ _ _ _ _ N2 Ep2) as S2.
  apply band_positions_spec in Exs1 as [L1 _]. apply band_positions_spec in Exs2 as [L2 _].
  f_equal. unfold array_zip.
  rewrite (zip_with_comm fadd (flat p2) (flat p1) Hcomm). f_equal.
  rewrite S1, S2. congruence.
Qed.

End Exchange.

Definition tiny_params_exchanged : pyval R :=
  PDict (<["positions" := PSeq [1; 2; 0; 0]%R]> (<["g" := PSeq [5; 3]%R]> ∅)).

Definition tiny_params_two_sources : pyval R :=
  PDict (<["positions" := PSeq [0; 0; 1; 2]%R]> (<["g" := PSeq [3; 5]%R]> ∅)).

Lemma exchanging_sources_keeps_model_witness :
  exists self h' m,
    __init__ 0 1 2 2 ["g"] tiny_store = (Ok self, h')
    /\ model_no_galaxy self tiny_params_two_sources = Ok m
    /\ model_no_galaxy self tiny_params_exchanged = Ok m.
Proof.
  assert (exists self h', __init__ 0 1 2 2 ["g"] tiny_store = (Ok self, h'))
    as (self & h' & Einit) by (eexists _, _; reflexivity).
  destruct (constructed_model_total 0 1 2 2 ["g"] tiny_store h' self tiny_params_two_sources
              Einit ltac:(done)) as [[m Em] _].
  { split; [|split].
    - by exists 0%R, 0%R, 1%R, 2%R.
    - repeat constructor. eexists. split; [reflexivity|]. by exists 3%R, 5%R, [].
    - constructor. }
  exists self, h', m. split; [exact Einit|]. split; [exact Em|].
  destruct (init_Ok _ _ _ _ _ _ _ _ Einit)
    as (_ & _ & _ & _ & _ & _ & _ & ? & ? & ? & ? & ? & _ & _ & [_ _ _ _ _ Eb _]).
  apply (exchanging_sources_keeps_model (H:=R_arith) self tiny_params_two_sources
           tiny_params_exchanged 0%R 0%R 1%R 2%R m Rplus_comm eq_refl eq_refl).
  - rewrite Eb. intros band Hin. apply list_elem_of_singleton in Hin as ->. by split.
  - rewrite Eb. intros band Hin. by apply elem_of_nil in Hin.
  - exact Em.
Defined.

(** ** Predictions and the history of an instance *)

Section History.
Context {F : Type} `{Arith F} `{Elementary F}.
Variable least_squares : (list F -> result (list F)) -> list F -> result (list F).
Variable mcmc_medians_with_galaxy :
  (pyval F -> result (ndarray F)) -> ndarray F -> ndarray F -> nat -> nat -> nat ->
  result (gmap string F).
Variable mcmc_medians_no_galaxy :
  (pyval F -> result (ndarray F)) -> ndarray F -> ndarray F -> nat -> nat -> nat -> F ->
  result (gmap string F).

(** The attributes the model methods read. *)
Definition same_geometry (self self' : SimpleLensedQuasarModel F) : Prop :=
  upsampling_factor self' = upsampling_factor self /\ bands self' = bands self
  /\ psf self' = psf self /\ X self' = X self /\ Y self' = Y self.

Lemma perform_keeps_geometry (st : SimpleLensedQuasarModel F * store F) (c : call) :
  same_geometry st.1
    (perform least_squares mcmc_medians_with_galaxy mcmc_medians_no_galaxy st c).1.
Proof.
  destruct st as [self h]. destruct c; cbn [perform fst snd]; try done.
  - unfold optimize_no_galaxy. by destruct (least_squares _ _).
  - unfold optimize_with_galaxy. by destruct (least_squares _ _).
  - destruct (sample_no_galaxy _ _ _ _ _ _ _) as [self'|e] eqn:E; [|done].
    by apply sample_no_galaxy_assigns in E as [v ->].
  - destruct (sample_with_galaxy _ _ _ _ _ _) as [self'|e] eqn:E; [|done].
    by apply sample_with_galaxy_assigns in E as [v ->].
Qed.

Lemma calls_keep_geometry (calls : list call) (st : SimpleLensedQuasarModel F * store F) :
  same_geometry st.1
    (foldl (perform least_squares mcmc_medians_with_galaxy mcmc_medians_no_galaxy)
           st calls).1.
Proof.
  revert st. induction calls as [|c calls IH]; intros st; [done|]. cbn [foldl].
  destruct (IH (perform least_squares mcmc_medians_with_galaxy mcmc_medians_no_galaxy st c))
    as (E1 & E2 & E3 & E4 & E5).
  destruct (perform_keeps_geometry st c) as (P1 & P2 & P3 & P4 & P5).
  unfold same_geometry. rewrite E1, E2, E3, E4, E5. done.
Qed.

Lemma models_read_geometry (self self' : SimpleLensedQuasarModel F) (params : pyval F) :
  same_geometry self self' ->
  model_no_galaxy self' params = model_no_galaxy self params
  /\ model_with_galaxy self' params = model_with_galaxy self params.
Proof.
  intros (E1 & E2 & E3 & E4 & E5).
  destruct self, self'. cbn in E1, E2, E3, E4, E5. subst. done.
Qed.

(** Whatever model, residual, chi-square, optimizer and sampler calls were
    made on an instance before, and whether they raised or not, the two
    models, the residuals and the reduced chi-squares of a parameter set are
    what they were at the start: the methods keep no state that a later
    prediction reads. *)
Theorem predictions_ignore_history (self : SimpleLensedQuasarModel F) (h : store F)
    (calls : list call) (params : pyval F) :
  let st := foldl (perform least_squares mcmc_medians_with_galaxy mcmc_medians_no_galaxy)
                  (self, h) calls in
  model_no_galaxy st.1 params = model_no_galaxy self params
  /\ model_with_galaxy st.1 params = model_with_galaxy self params
  /\ residuals_no_galaxy st.1 st.2 params = residuals_no_galaxy self h params
  /\ residuals_with_galaxy st.1 st.2 params = residuals_with_galaxy self h params
  /\ reduced_chi2_no_galaxy st.1 st.2 params = reduced_chi2_no_galaxy self h params
  /\ reduced_chi2_with_galaxy st.1 st.2 params = reduced_chi2_with_galaxy self h params.
Proof.
  intros st.
  destruct (calls_keep_stacks least_squares mcmc_medians_with_galaxy mcmc_medians_no_galaxy
              calls (self, h)) as (Eh & _ & Ed & En).
  destruct (models_read_geometry self st.1 params (calls_keep_geometry calls (self, h)))
    as [Em Eg].
  fold st in Eh, Ed, En. cbn [fst snd] in Eh, Ed, En.
  assert (forall m, normalised_residuals st.1 st.2 m = normalised_residuals self h m) as Er.
  { intros m. unfold normalised_residuals. by rewrite Eh, Ed, En. }
  assert (residuals_no_galaxy st.1 st.2 params = residuals_no_galaxy self h params) as Rn.
  { unfold residuals_no_galaxy. rewrite Em.
    destruct (model_no_galaxy self params); [apply Er | done]. }
  assert (residuals_with_galaxy st.1 st.2 params = residuals_with_galaxy self h params) as Rg.
  { unfold residuals_with_galaxy. rewrite Eg.
    destruct (model_with_galaxy self params); [apply Er | done]. }
  repeat split; try done.
  - unfold reduced_chi2_no_galaxy. by rewrite Rn, Eh, Ed.
  - unfold reduced_chi2_with_galaxy. by rewrite Rg, Eh, Ed.
Qed.

End History.

(** ** What the galaxy sampler stores *)

Section SamplerRoundTripGalaxy.
Context {F : Type} `{Arith F} `{Elementary F}.
Variable mcmc_medians_with_galaxy :
  (pyval F -> result (ndarray F)) -> ndarray F -> ndarray F -> nat -> nat -> nat ->
  result (gmap string F).

(** One turn of the loop that files the medians of a band, galaxy included. *)
Definition file_band_medians_with_galaxy (medians : gmap string F)
    (acc : result (gmap string (pyval F))) (ib : nat * string)
    : result (gmap string (pyval F)) :=
  let '(i, band) := ib in
  pps ← acc;
  amps ← medians_of medians ["A1_" +:+ band; "A2_" +:+ band];
  let pps := <[band := amps]> pps in
  ie ← match medians !! ("I_e_" +:+ band) with
       | Some v => Ok (PNum v)
       | None => Raise (KeyError ("I_e_" +:+ band))
       end;
  pps ← setitem2 pps "galparams" ("I_e_" +:+ band) ie;
  if decide (i = 0) then Ok pps
  else offs ← medians_of medians ["dx_" +:+ band; "dy_" +:+ band];
       Ok (<["offsets_" +:+ band := offs]> pps).

Lemma medians_of_pair (medians : gmap string F) (k1 k2 : string) (v : pyval F) :
  medians_of medians [k1; k2] = Ok v -> exists a b, v = PSeq [a; b].
Proof.
  unfold medians_of. cbn.
  destruct (medians !! k1) as [a|]; [|discriminate]. cbn.
  destruct (medians !! k2) as [b|]; [|discriminate]. cbn.
  intros [= <-]. by exists a, b.
Qed.

Lemma medians_of_triple (medians : gmap string F) (k1 k2 k3 : string) (v : pyval F) :
  medians_of medians [k1; k2; k3] = Ok v -> exists a b c, v = PSeq [a; b; c].
Proof.
  unfold medians_of. cbn.
  destruct (medians !! k1) as [a|]; [|discriminate]. cbn.
  destruct (medians !! k2) as [b|]; [|discriminate]. cbn.
  destruct (medians !! k3) as [c|]; [|discriminate]. cbn.
  intros [= <-]. by exists a, b, c.
Qed.

Lemma setitem2_Ok (pps pps' : gmap string (pyval F)) (group key : string) (v : pyval F) :
  setitem2 pps group key v = Ok pps' ->
  exists g, pps !! group = Some (PDict g) /\ pps' = <[group := PDict (<[key := v]> g)]> pps.
Proof.
  unfold setitem2. destruct (pps !! group) as [[x|l|g]|]; try discriminate.
  intros [= <-]. by exists g.
Qed.

Lemma file_band_medians_with_galaxy_raise (medians : gmap string F) (e : exn)
    (l : list (nat * string)) :
  foldl (file_band_medians_with_galaxy medians) (Raise e) l = Raise e.
Proof. induction l as [|[i band] l IH]; [done|]. exact IH. Qed.

(** One turn: the band cannot be called ['galparams'], its amplitude pair
    and its galaxy amplitude are filed, and its offsets when it is not the
    first band. *)
Lemma file_band_medians_with_galaxy_step (medians : gmap string F) (i : nat) (band : string)
    (pps0 pps1 : gmap string (pyval F)) (g0 : gmap string (pyval F)) :
  file_band_medians_with_galaxy medians (Ok pps0) (i, band) = Ok pps1 ->
  pps0 !! "galparams" = Some (PDict g0) ->
  exists amps ie,
    has_pair amps /\ band <> "galparams"
    /\ let filed := <["galparams" := PDict (<["I_e_" +:+ band := PNum ie]> g0)]>
                      (<[band := amps]> pps0) in
       (i = 0 /\ pps1 = filed)
       \/ (i <> 0 /\ exists offs, has_pair offs /\ pps1 = <["offsets_" +:+ band := offs]> filed).
Proof.
  intros E Hg. unfold file_band_medians_with_galaxy in E.
  apply bind_Ok in E as (pps0' & [= <-] & E).
  apply bind_Ok in E as (amps & Ea & E).
  apply bind_Ok in E as (ie & Eie & E).
  apply bind_Ok in E as (pps' & Eset & E).
  destruct (medians !! ("I_e_" +:+ band)) as [v|]; [|discriminate].
  injection Eie as <-.
  apply setitem2_Ok in Eset as (g & Elook & ->).
  assert (band <> "galparams") as Hne.
  { intros ->. rewrite lookup_insert_eq in Elook.
    apply medians_of_pair in Ea as (a & b & ->). discriminate. }
  rewrite lookup_insert_ne, Hg in Elook by done. injection Elook as <-.
  exists amps, v. split; [by eapply medians_of_two|]. split; [done|].
  destruct (decide (i = 0)) as [->|Hi].
  - left. by injection E as <-.
  - right. split; [done|].
    apply bind_Ok in E as (offs & Eo & [= <-]).
    exists offs. split; [by eapply medians_of_two | done].
Qed.

Lemma offsets_key_not_galparams (band : string) : "offsets_" +:+ band <> "galparams".
Proof. discriminate. Qed.

Lemma galaxy_amplitude_key (band : string) :
  "I_e_" +:+ band <> "positions" /\ "I_e_" +:+ band <> "morphology".
Proof. split; discriminate. Qed.

(** What the loop keeps. *)
Lemma file_band_medians_with_galaxy_invariant (medians : gmap string F)
    (l : list (nat * string)) (pps0 pps g0 : gmap string (pyval F)) :
  foldl (file_band_medians_with_galaxy medians) (Ok pps0) l = Ok pps ->
  pps0 !! "galparams" = Some (PDict g0) ->
  (forall k v, k <> "galparams" -> pps0 !! k = Some v -> has_pair v) ->
  exists g,
    pps !! "galparams" = Some (PDict g)
    /\ (forall k v, k <> "galparams" -> pps !! k = Some v -> has_pair v)
    /\ g !! "positions" = g0 !! "positions"
    /\ g !! "morphology" = g0 !! "morphology"
    /\ (forall k, (exists ie, g0 !! k = Some (PNum ie)) -> exists ie, g !! k = Some (PNum ie))
    /\ (forall k, k <> "galparams" -> is_Some (pps0 !! k) -> is_Some (pps !! k))
    /\ (forall i band, (i, band) ∈ l ->
          band <> "galparams" /\ is_Some (pps !! band)
          /\ (exists ie, g !! ("I_e_" +:+ band) = Some (PNum ie))
          /\ (i <> 0 -> is_Some (pps !! ("offsets_" +:+ band))))
    /\ ((forall i band, (i, band) ∈ l -> band <> "positions") ->
        pps !! "positions" = pps0 !! "positions").
Proof.
  revert pps0 g0. induction l as [|[i band] l IH]; intros pps0 g0 E Hg Hpair.
  - injection E as <-. exists g0. do 6 (split; [done|]). split; [|done].
    intros i' band' Hin. by apply elem_of_nil in Hin.
  - cbn [foldl] in E.
    destruct (file_band_medians_with_galaxy medians (Ok pps0) (i, band)) as [pps1|e] eqn:E1;
      [|by rewrite file_band_medians_with_galaxy_raise in E].
    destruct (file_band_medians_with_galaxy_step _ _ _ _ _ _ E1 Hg)
      as (amps & ie & Hamps & Hne & Hcase).
    destruct (galaxy_amplitude_key band) as [Kp Km].
    pose proof (offsets_key_not_galparams band) as Ko.
    set (g1 := <["I_e_" +:+ band := PNum ie]> g0).
    assert (pps1 !! "galparams" = Some (PDict g1)
            /\ (forall k v, k <> "galparams" -> pps1 !! k = Some v -> has_pair v)
            /\ (forall k, k <> "galparams" -> is_Some (pps0 !! k) -> is_Some (pps1 !! k))
            /\ is_Some (pps1 !! band)
            /\ (i <> 0 -> is_Some (pps1 !! ("offsets_" +:+ band)))
            /\ (band <> "positions" -> pps1 !! "positions" = pps0 !! "positions"))
      as (Hg1 & Hpair1 & Hdom1 & Hband1 & Hoff1 & Hpos1).
    { cbn zeta in Hcase. fold g1 in Hcase.
      destruct Hcase as [[-> ->]|(Hi & offs & Hoffs & ->)].
      - split; [by rewrite lookup_insert_eq|]. split; [|split; [|split; [|split]]].
        + intros k v Hk. rewrite lookup_insert_ne by done.
          rewrite lookup_insert. case_decide; [by intros [= <-]|]. by apply Hpair.
        + intros k Hk Hsome. rewrite lookup_insert_ne by done.
          rewrite lookup_insert. by case_decide.
        + rewrite lookup_insert_ne by done. by rewrite lookup_insert_eq.
        + done.
        + intros Hb. rewrite lookup_insert_ne by done. by rewrite lookup_insert_ne.
      - split; [by rewrite lookup_insert_ne, lookup_insert_eq|].
        split; [|split; [|split; [|split]]].
        + intros k v Hk. rewrite lookup_insert. case_decide; [by intros [= <-]|].
          rewrite lookup_insert_ne by done.
          rewrite lookup_insert. case_decide; [by intros [= <-]|]. by apply Hpair.
        + intros k Hk Hsome. rewrite lookup_insert. case_decide; [done|].
          rewrite lookup_insert_ne by done. rewrite lookup_insert. by case_decide.
        + rewrite lookup_insert. case_decide; [done|].
          rewrite lookup_insert_ne by done. by rewrite lookup_insert_eq.
        + intros _. by rewrite lookup_insert_eq.
        + intros Hb. rewrite lookup_insert_ne by done.
          rewrite lookup_insert_ne by done. by rewrite lookup_insert_ne. }
    destruct (IH pps1 g1 E Hg1 Hpair1)
      as (g & Hgal & Hpair' & Hgpos & Hgmor & Hnum & Hdom' & Hkeys' & Hpos').
    exists g. split; [exact Hgal|]. split; [exact Hpair'|].
    split; [|split; [|split; [|split; [|split]]]].
    + rewrite Hgpos. unfold g1. by rewrite lookup_insert_ne.
    + rewrite Hgmor. unfold g1. by rewrite lookup_insert_ne.
    + intros k [ie' Hk]. apply Hnum. unfold g1. rewrite lookup_insert.
      case_decide; eauto.
    + intros k Hk Hsome. apply Hdom'; [done|]. by apply Hdom1.
    + intros i' band' Hin. apply elem_of_cons in Hin as [[= -> ->]|Hin].
      * split; [done|]. split; [by apply Hdom'|]. split.
        -- apply Hnum. exists ie. unfold g1. by rewrite lookup_insert_eq.
        -- intros Hi. apply Hdom'; [done|]. by apply Hoff1.
      * by apply Hkeys'.
    + intros Hno. rewrite Hpos'.
      * apply Hpos1. apply (Hno i). by left.
      * intros i' band' Hin. apply (Hno i'). by right.
Qed.

(** The dict of posterior medians that [sample_with_galaxy] leaves on the
    instance is a parameter set of the model with galaxy, provided no band is
    called ['positions'] (that band's amplitudes would replace the shared
    coordinates); and when the method returns, no band is called
    ['galparams']: for such a band the amplitudes replace the galaxy group
    and filing its galaxy amplitude raises. *)
Theorem sampled_galaxy_medians_are_valid_params (self self' : SimpleLensedQuasarModel F)
    (h : store F) (num_warmup num_samples num_chains : nat) :
  "positions" ∉ bands self ->
  sample_with_galaxy mcmc_medians_with_galaxy self h num_warmup num_samples num_chains
  = Ok self' ->
  ("galparams" ∉ bands self)
  /\ exists pps,
       param_mediansampler_with_galaxy self' = Some pps
       /\ valid_no_galaxy (bands self) pps
       /\ valid_galaxy (bands self) pps
       /\ forall params, model_with_galaxy self' params = model_with_galaxy self params.
Proof.
  intros Hno E. unfold sample_with_galaxy in E.
  apply bind_Ok in E as (medians & _ & E). cbn zeta in E.
  apply bind_Ok in E as (positions & Epos & E).
  apply bind_Ok in E as (gpos & Egpos & E).
  apply bind_Ok in E as (pps1 & Eset1 & E).
  apply bind_Ok in E as (morph & Emorph & E).
  apply bind_Ok in E as (pps2 & Eset2 & E).
  apply bind_Ok in E as (pps & Efold & [= <-]).
  apply medians_of_four in Epos as (a & b & c & d & ->).
  apply medians_of_pair in Egpos as (xg & yg & ->).
  apply medians_of_triple in Emorph as (r_e & ellip & theta & ->).
  apply setitem2_Ok in Eset1 as (ga & Ega & ->).
  rewrite lookup_insert_ne, lookup_singleton_eq in Ega by done. injection Ega as <-.
  apply setitem2_Ok in Eset2 as (gb & Egb & ->).
  rewrite lookup_insert_eq in Egb. injection Egb as <-.
  match type of Efold with
  | foldl _ (Ok ?p) ?l = _ =>
      change (foldl (file_band_medians_with_galaxy medians) (Ok p) l = Ok pps) in Efold;
      set (pps0 := p) in Efold
  end.
  set (g0 := <["morphology" := PSeq [r_e; ellip; theta]]>
               (<["positions" := PSeq [xg; yg]]> (∅ : gmap string (pyval F)))).
  assert (pps0 !! "galparams" = Some (PDict g0)) as Hg0.
  { unfold pps0. by rewrite lookup_insert_eq. }
  assert (pps0 !! "positions" = Some (PSeq [a; b; c; d])) as Hp0.
  { unfold pps0. rewrite !lookup_insert_ne by done. by rewrite lookup_insert_eq. }
  destruct (file_band_medians_with_galaxy_invariant _ _ _ _ _ Efold Hg0)
    as (g & Hgal & Hpair & Hgpos & Hgmor & _ & _ & Hkeys & Hpos).
  { intros k v Hk. unfold pps0. rewrite !lookup_insert_ne by done.
    rewrite lookup_insert. case_decide; [|by rewrite lookup_singleton_ne].
    intros [= <-]. by exists a, b, [c; d]. }
  split.
  { intros Hin. apply list_elem_of_lookup in Hin as [k Hk].
    by destruct (Hkeys k "galparams" (enumerate_lookup _ _ _ Hk)) as [Hne _]. }
  exists (PDict pps). split; [done|]. split; [|split; [|done]].
  - split; [|split].
    + exists a, b, c, d. cbn. rewrite Hpos; [by rewrite Hp0|].
      intros i band Hin ->. by apply enumerate_elem in Hin.
    + apply Forall_lookup. intros b' band Hb.
      destruct (Hkeys b' band (enumerate_lookup _ _ _ Hb)) as (Hne & [v Ev] & _).
      exists v. cbn. rewrite Ev. split; [done|]. by eapply Hpair.
    + apply Forall_lookup. intros b' band Hb.
      assert (bands self !! S b' = Some band) as Hb'.
      { destruct (bands self); [done|]. exact Hb. }
      destruct (Hkeys (S b') band (enumerate_lookup _ _ _ Hb')) as (_ & _ & _ & Hoff).
      destruct (Hoff ltac:(done)) as [v Ev].
      exists v. cbn. rewrite Ev. split; [done|].
      eapply Hpair; [|exact Ev]. apply offsets_key_not_galparams.
  - exists (PDict g). split; [cbn; by rewrite Hgal|]. split; [|split].
    + exists xg, yg. cbn. rewrite Hgpos. unfold g0.
      rewrite lookup_insert_ne by done. by rewrite lookup_insert_eq.
    + exists r_e, ellip, theta. cbn. rewrite Hgmor. unfold g0. by rewrite lookup_insert_eq.
    + apply Forall_lookup. intros b' band Hb.
      destruct (Hkeys b' band (enumerate_lookup _ _ _ Hb)) as (_ & _ & [ie Eie] & _).
      exists ie. cbn. by rewrite Eie.
Qed.

End SamplerRoundTripGalaxy.

(** A sampler stand-in whose medians are fixed numbers for one band and its
    galaxy. *)
Definition fixed_medians_with_galaxy (_ : pyval R -> result (ndarray R)) (_ _ : ndarray R)
    (_ _ _ : nat) : result (gmap string R) :=
  Ok (list_to_map [("x1", 0%R); ("y1", 0%R); ("x2", 1%R); ("y2", 1%R);
                   ("xg", 0%R); ("yg", 1%R);
                   ("r_e", 2%R); ("ellip", 0%R); ("theta", 0%R);
                   ("A1_g", 2%R); ("A2_g", 3%R); ("I_e_g", 1%R)]).

Lemma sampled_galaxy_medians_are_valid_params_witness :
  exists self' pps,
    sample_with_galaxy fixed_medians_with_galaxy (one_pixel_model 3 4) tiny_store 1 1 1
    = Ok self'
    /\ param_mediansampler_with_galaxy self' = Some pps
    /\ valid_no_galaxy ["g"] pps /\ valid_galaxy ["g"] pps.
Proof.
  assert (exists self',
             sample_with_galaxy fixed_medians_with_galaxy (one_pixel_model 3 4) tiny_store
                                1 1 1 = Ok self') as [self' E]
    by (eexists; reflexivity).
  destruct (sampled_galaxy_medians_are_valid_params fixed_medians_with_galaxy
              (one_pixel_model 3 4) self' tiny_store 1 1 1) as (_ & pps & Hp & Hv & Hg & _).
  - intros Hin. apply list_elem_of_singleton in Hin. discriminate.
  - exact E.
  - exists self', pps. split; [exact E|]. split; [exact Hp|]. split; [exact Hv | exact Hg].
Defined.

(** ** Plots

    The figure is matplotlib's.  What the embedding keeps of it is, for each
    row, the band of the row and the three images handed to [imshow]: the
    data, the model and the normalised residuals of that band. *)

Section Plots.
Context {F : Type} `{Arith F} `{Elementary F}.

Record panel_row : Type := Row {
  row_band : string;
  shown_data : ndarray F;
  shown_model : ndarray F;
  shown_residuals : ndarray F
}.

(** The outcome of a plotting method: the rows drawn, the [RuntimeError] of
    the method itself, or what drawing raised. *)
Inductive plotted (A : Type) : Type :=
  | Returned (a : A)
  | RuntimeError
  | Raised (e : exn).
#[global] Arguments Returned {A} a.
#[global] Arguments RuntimeError {A}.
#[global] Arguments Raised {A} e.

Definition drawn {A} (r : result A) : plotted A :=
  match r with
  | Ok a => Returned a
  | Raise e => Raised e
  end.

(** [a[i]] *)
Definition band_image (a : ndarray F) (i : nat) : result (ndarray F) :=
  match unstack a !! i with
  | Some b => Ok b
  | None => Raise IndexError
  end.

(** [_plot_model]: [plt.subplots] refuses a grid without rows; the
    residuals shown are [(data - mod) / noise], [mod] being the model. *)
Definition _plot_model (self : SimpleLensedQuasarModel F) (h : store F) (params : pyval F)
    (modelfunc : pyval F -> result (ndarray F)) : result (list panel_row) :=
  let nrow := length (bands self) in
  if decide (nrow = 0) then Raise ValueError else
  model ← modelfunc params;
  let data := h (data self) in
  let noise := h (noisemap self) in
  res ← (if shape_eqb (shape data) (shape model) && shape_eqb (shape data) (shape noise)
         then Ok (array_zip fdiv (array_zip fsub data model) noise)
         else Raise ValueError);
  for_each (fun '(i, band) =>
              i0 ← band_image data i;
              i1 ← band_image model i;
              i2 ← band_image res i;
              Ok (Row band i0 i1 i2))
           (enumerate (bands self)).

(** The parameter set a plot uses when none is passed: the sampler's medians
    before the optimizer's result. *)
Definition default_params (params sampled optimized : option (pyval F)) : plotted (pyval F) :=
  match params with
  | Some params => Returned params
  | None =>
      match sampled with
      | Some params => Returned params
      | None =>
          match optimized with
          | Some params => Returned params
          | None => RuntimeError
          end
      end
  end.

Definition plot_model_no_galaxy (self : SimpleLensedQuasarModel F) (h : store F)
    (params : option (pyval F)) : plotted (list panel_row) :=
  match default_params params (param_mediansampler_no_galaxy self)
                       (param_optim_no_galaxy self) with
  | Returned params => drawn (_plot_model self h params (model_no_galaxy self))
  | RuntimeError => RuntimeError
  | Raised e => Raised e
  end.

Definition plot_model_with_galaxy (self : SimpleLensedQuasarModel F) (h : store F)
    (params : option (pyval F)) : plotted (list panel_row) :=
  match default_params params (param_mediansampler_with_galaxy self)
                       (param_optim_with_galaxy self) with
  | Returned params => drawn (_plot_model self h params (model_with_galaxy self))
  | RuntimeError => RuntimeError
  | Raised e => Raised e
  end.

Lemma unstack_length {A} (a : ndarray A) (n : nat) (sh : list nat) :
  shape a = n :: sh -> length (unstack a) = n.
Proof. intros E. unfold unstack. rewrite E. by rewrite length_map, chunks_length. Qed.

Lemma concat_chunks {A} (n k : nat) (l : list A) : concat (chunks n k l) = take (n * k) l.
Proof.
  revert l. induction n as [|n IH]; intros l; cbn; [done|].
  by rewrite IH, take_take_drop.
Qed.

Lemma flat_unstack {A} (a : ndarray A) (n : nat) (sh : list nat) :
  shape a = n :: sh -> length (flat a) <= n * prod_list sh ->
  concat (map flat (unstack a)) = flat a.
Proof.
  intros E Hlen. unfold unstack. rewrite E, map_map. cbn [flat].
  rewrite map_id, concat_chunks. by apply take_ge.
Qed.

Lemma enumerate_lookup_inv {A} (l : list A) (i j : nat) (x : A) :
  enumerate l !! i = Some (j, x) -> j = i /\ l !! i = Some x.
Proof.
  unfold enumerate. intros E. apply lookup_zip_with_Some in E as (a & b & [= -> ->] & Ea & Eb).
  split; [|done]. apply lookup_seq in Ea as [-> _]. done.
Qed.

Lemma map_lookup_eq {A B} (g : A -> B) (rows : list A) (l : list B) :
  length rows = length l ->
  (forall i row, rows !! i = Some row -> l !! i = Some (g row)) ->
  map g rows = l.
Proof.
  intros Hlen Hrow. apply list_eq. intros i.
  change (map g rows) with (g <$> rows). rewrite list_lookup_fmap.
  destruct (rows !! i) as [row|] eqn:E; cbn.
  - symmetry. by apply Hrow.
  - symmetry. apply lookup_ge_None. rewrite <- Hlen. by apply lookup_ge_None.
Qed.

(** The rows drawn, when the model returns a stack of the shape of the data
    and of the noise, one band per band name. *)
Lemma _plot_model_rows (self : SimpleLensedQuasarModel F) (h : store F) (params : pyval F)
    (modelfunc : pyval F -> result (ndarray F)) (m : ndarray F) (sh : list nat) :
  bands self <> [] ->
  modelfunc params = Ok m ->
  shape (h (data self)) = length (bands self) :: sh ->
  shape (h (noisemap self)) = length (bands self) :: sh ->
  shape m = length (bands self) :: sh ->
  exists rows,
    _plot_model self h params modelfunc = Ok rows
    /\ map row_band rows = bands self
    /\ map shown_data rows = unstack (h (data self))
    /\ map shown_model rows = unstack m
    /\ map shown_residuals rows
       = unstack (array_zip fdiv (array_zip fsub (h (data self)) m) (h (noisemap self))).
Proof.
  intros Hne Em Ed En Esh.
  set (res := array_zip fdiv (array_zip fsub (h (data self)) m) (h (noisemap self))).
  set (row := fun '(i, band) =>
                i0 ← band_image (h (data self)) i;
                i1 ← band_image m i;
                i2 ← band_image res i;
                Ok (Row band i0 i1 i2)).
  assert (_plot_model self h params modelfunc = for_each row (enumerate (bands self))) as Eplot.
  { unfold _plot_model. rewrite decide_False by (by destruct (bands self)).
    rewrite Em. cbn. rewrite Ed, En, Esh. unfold shape_eqb.
    by rewrite !bool_decide_eq_true_2. }
  assert (length (enumerate (bands self)) = length (bands self)) as Hlen.
  { unfold enumerate. rewrite length_zip_with, length_seq. lia. }
  assert (shape res = length (bands self) :: sh) as Eres by exact Ed.
  assert (forall i ib, enumerate (bands self) !! i = Some ib ->
            exists i0 i1 i2,
              bands self !! i = Some ib.2
              /\ unstack (h (data self)) !! i = Some i0
              /\ unstack m !! i = Some i1
              /\ unstack res !! i = Some i2
              /\ row ib = Ok (Row ib.2 i0 i1 i2)) as Hrow.
  { intros i [j band] Hi. apply enumerate_lookup_inv in Hi as [-> Hb].
    pose proof (lookup_lt_Some _ _ _ Hb) as Hlt.
    destruct (lookup_lt_is_Some_2 (unstack (h (data self))) i) as [i0 E0];
      [by rewrite (unstack_length _ _ _ Ed)|].
    destruct (lookup_lt_is_Some_2 (unstack m) i) as [i1 E1];
      [by rewrite (unstack_length _ _ _ Esh)|].
    destruct (lookup_lt_is_Some_2 (unstack res) i) as [i2 E2];
      [by rewrite (unstack_length _ _ _ Eres)|].
    exists i0, i1, i2. repeat (split; [done|]).
    unfold row, band_image. by rewrite E0, E1, E2. }
  destruct (for_each_total row (enumerate (bands self))) as [rows Erows].
  { apply Forall_lookup. intros i ib Hi.
    destruct (Hrow i ib Hi) as (i0 & i1 & i2 & _ & _ & _ & _ & Er). eauto. }
  pose proof (for_each_length _ _ _ Erows) as Hrows. rewrite Hlen in Hrows.
  assert (forall i r, rows !! i = Some r ->
            bands self !! i = Some (row_band r)
            /\ unstack (h (data self)) !! i = Some (shown_data r)
            /\ unstack m !! i = Some (shown_model r)
            /\ unstack res !! i = Some (shown_residuals r)) as Hshown.
  { intros i r Hr.
    destruct (lookup_lt_is_Some_2 (enumerate (bands self)) i) as [ib Hib].
    { rewrite Hlen, <- Hrows. by eapply lookup_lt_Some. }
    destruct (Hrow i ib Hib) as (i0 & i1 & i2 & Hb & E0 & E1 & E2 & Er).
    destruct (for_each_lookup _ _ _ _ _ Erows Hib) as (r' & Er' & Hr').
    rewrite Er in Er'. injection Er' as <-. rewrite Hr in Hr'. injection Hr' as ->.
    done. }
  exists rows. split; [by rewrite Eplot|].
  split; [|split; [|split]]; apply map_lookup_eq.
  all: try (intros i r Hr; by destruct (Hshown i r Hr) as (? & ? & ? & ?)).
  - done.
  - by rewrite (unstack_length _ _ _ Ed).
  - by rewrite (unstack_length _ _ _ Esh).
  - by rewrite (unstack_length _ _ _ Eres).
Qed.

End Plots.

Arguments panel_row F : clear implicits.

Section PlotsReal.

Lemma zip_negated (a b c : list R) :
  zip_with Rdiv (zip_with Rminus a b) c = map Ropp (zip_with Rdiv (zip_with Rminus b a) c).
Proof.
  revert b c. induction a as [|x a IH]; intros [|y b] [|z c]; cbn; try done.
  rewrite IH. f_equal. unfold Rdiv. ring.
Qed.

(** The panels of a constructed model, for either model function that
    returns the stack [m]. *)
Lemma constructed_plot (d n p : loc) (s : Z) (bandnames : list string) (h h' : store R)
    (self : SimpleLensedQuasarModel R) (params : pyval R)
    (modelfunc : pyval R -> result (ndarray R)) (m : ndarray R) :
  __init__ d n p s bandnames h = (Ok self, h') ->
  bands self <> [] ->
  shape m = shape (h' (data self)) -> well_shaped m ->
  modelfunc params = Ok m ->
  exists rows r,
    _plot_model self h' params modelfunc = Ok rows
    /\ normalised_residuals self h' m = Ok r
    /\ map row_band rows = bandnames
    /\ concat (map (fun row => flat (shown_model row)) rows) = flat m
    /\ concat (map (fun row => flat (shown_residuals row)) rows) = map Ropp r.
Proof.
  intros Einit Hne Esh Hw Em.
  destruct (init_Ok _ _ _ _ _ _ _ _ Einit)
    as (Edn & Eh & _ & Ed & En & _ & _ & nband & Nx & Ny & nx & ny & Esd & _ & [_ _ _ _ _ Eb Ec]).
  assert (shape (h' (data self)) = length (bands self) :: [Nx; Ny]) as Sd.
  { rewrite Eh, Ed, !idiv_shape, Esd, Eb, Ec. done. }
  assert (shape (h' (noisemap self)) = length (bands self) :: [Nx; Ny]) as Sn.
  { rewrite Eh, En, !idiv_shape, <- Edn, Esd, Eb, Ec. done. }
  assert (shape m = length (bands self) :: [Nx; Ny]) as Sm by (by rewrite Esh).
  destruct (_plot_model_rows self h' params modelfunc m [Nx; Ny] Hne Em Sd Sn Sm)
    as (rows & Eplot & Hb & _ & Hm & Hr).
  assert (length (flat m) = length (bands self) * prod_list [Nx; Ny]) as Hlen.
  { unfold well_shaped, size_of in Hw. by rewrite Hw, Sm. }
  exists rows.
  exists (flat (array_zip fdiv (array_zip fsub m (h' (data self))) (h' (noisemap self)))).
  split; [exact Eplot|]. split; [|split; [|split]].
  - unfold normalised_residuals, shape_eqb. rewrite Sm, Sd, Sn.
    by rewrite !bool_decide_eq_true_2.
  - by rewrite Hb.
  - rewrite <- (map_map shown_model flat), Hm.
    apply (flat_unstack m (length (bands self)) [Nx; Ny] Sm). by rewrite Hlen.
  - rewrite <- (map_map shown_residuals flat), Hr.
    rewrite (flat_unstack _ (length (bands self)) [Nx; Ny]).
    + apply zip_negated.
    + exact Sd.
    + cbn [flat array_zip]. rewrite !length_zip_with. lia.
Qed.

(** What the plots show for a parameter set on which the model returns: one
    row per band name, whose model panels are the bands of the model stack
    and whose residual panels are [(data - model) / noise], pixel for pixel
    the negative of the residuals that [residuals_no_galaxy]
    ([residuals_with_galaxy]) returns. *)
Theorem plots_show_negated_residuals (d n p : loc) (s : Z) (bandnames : list string)
    (h h' : store R) (self : SimpleLensedQuasarModel R) (params : pyval R) (m : ndarray R) :
  __init__ d n p s bandnames h = (Ok self, h') ->
  (model_no_galaxy self params = Ok m ->
   exists rows r,
     plot_model_no_galaxy self h' (Some params) = Returned rows
     /\ residuals_no_galaxy self h' params = Ok r
     /\ map row_band rows = bandnames
     /\ concat (map (fun row => flat (shown_model row)) rows) = flat m
     /\ concat (map (fun row => flat (shown_residuals row)) rows) = map Ropp r)
  /\ (model_with_galaxy self params = Ok m ->
      exists rows r,
        plot_model_with_galaxy self h' (Some params) = Returned rows
        /\ residuals_with_galaxy self h' params = Ok r
        /\ map row_band rows = bandnames
        /\ concat (map (fun row => flat (shown_model row)) rows) = flat m
        /\ concat (map (fun row => flat (shown_residuals row)) rows) = map Ropp r).
Proof.
  intros Einit. split; intros Em.
  - destruct (constructed_model_shape _ _ _ _ _ _ _ _ _ _ Einit (or_introl Em)) as [Esh Hw].
    destruct (model_no_galaxy_bands _ _ _ Em)
      as (? & ? & ? & ? & ? & _ & _ & _ & _ & _ & Hne & _).
    destruct (constructed_plot _ _ _ _ _ _ _ _ _ _ _ Einit Hne Esh Hw Em)
      as (rows & r & Eplot & Er & Hrest).
    exists rows, r. split; [|split; [|exact Hrest]].
    + unfold plot_model_no_galaxy. cbn [default_params]. by rewrite Eplot.
    + unfold residuals_no_galaxy. by rewrite Em.
  - destruct (constructed_model_shape _ _ _ _ _ _ _ _ _ _ Einit (or_intror Em)) as [Esh Hw].
    assert (bands self <> []) as Hne.
    { unfold model_with_galaxy in Em. apply bind_Ok in Em as (m0 & Em0 & _).
      by destruct (model_no_galaxy_bands _ _ _ Em0)
        as (? & ? & ? & ? & ? & _ & _ & _ & _ & _ & Hne & _). }
    destruct (constructed_plot _ _ _ _ _ _ _ _ _ _ _ Einit Hne Esh Hw Em)
      as (rows & r & Eplot & Er & Hrest).
    exists rows, r. split; [|split; [|exact Hrest]].
    + unfold plot_model_with_galaxy. cbn [default_params]. by rewrite Eplot.
    + unfold residuals_with_galaxy. by rewrite Em.
Qed.

End PlotsReal.

Lemma plots_show_negated_residuals_witness :
  exists self h' m rows r,
    __init__ 0 1 2 2 ["g"] tiny_store = (Ok self, h')
    /\ model_no_galaxy self tiny_params = Ok m
    /\ plot_model_no_galaxy self h' (Some tiny_params) = Returned rows
    /\ residuals_no_galaxy self h' tiny_params = Ok r
    /\ concat (map (fun row => flat (shown_residuals row)) rows) = map Ropp r.
Proof.
  assert (exists self h', __init__ 0 1 2 2 ["g"] tiny_store = (Ok self, h'))
    as (self & h' & Einit) by (eexists _, _; reflexivity).
  destruct (constructed_model_total 0 1 2 2 ["g"] tiny_store h' self tiny_params
              Einit ltac:(done) (proj1 tiny_params_valid)) as [[m Em] _].
  destruct (proj1 (plots_show_negated_residuals 0 1 2 2 ["g"] tiny_store h' self
                     tiny_params m Einit) Em) as (rows & r & Hp & Hr & _ & _ & Hneg).
  by exists self, h', m, rows, r.
Defined.

(** ** Plots without a parameter set *)

Section PlotDefaults.
Context {F : Type} `{Arith F} `{Elementary F}.
Variable least_squares : (list F -> result (list F)) -> list F -> result (list F).
Variable mcmc_medians_with_galaxy :
  (pyval F -> result (ndarray F)) -> ndarray F -> ndarray F -> nat -> nat -> nat ->
  result (gmap string F).
Variable mcmc_medians_no_galaxy :
  (pyval F -> result (ndarray F)) -> ndarray F -> ndarray F -> nat -> nat -> nat -> F ->
  result (gmap string F).

Definition is_sample_no_galaxy (c : call (F:=F)) : bool :=
  match c with
  | Call_sample_no_galaxy _ _ _ _ => true
  | _ => false
  end.

Definition is_sample_with_galaxy (c : call (F:=F)) : bool :=
  match c with
  | Call_sample_with_galaxy _ _ _ => true
  | _ => false
  end.

Lemma init_params_unset (d n p : loc) (s : Z) (bandnames : list string) (h h' : store F)
    (self : SimpleLensedQuasarModel F) :
  __init__ d n p s bandnames h = (Ok self, h') ->
  param_optim_no_galaxy self = None /\ param_optim_with_galaxy self = None
  /\ param_mediansampler_no_galaxy self = None
  /\ param_mediansampler_with_galaxy self = None.
Proof.
  unfold __init__. intros E.
  destruct (negb _); [by injection E|].
  injection E as E _.
  destruct (shape (h d)) as [|nband [|Nx [|Ny [|? ?]]]]; try discriminate.
  destruct (shape _) as [|nband2 [|nx [|ny [|? ?]]]]; try discriminate.
  destruct (negb _); [discriminate|].
  by injection E as <-.
Qed.

Lemma perform_keeps_params_unset (st : SimpleLensedQuasarModel F * store F) (c : call) :
  (forall f x0, (exists e, f x0 = Raise e) -> exists e, least_squares f x0 = Raise e) ->
  let st' := perform least_squares mcmc_medians_with_galaxy mcmc_medians_no_galaxy st c in
  (param_optim_no_galaxy st.1 = None -> param_optim_no_galaxy st'.1 = None)
  /\ (param_optim_with_galaxy st.1 = None -> param_optim_with_galaxy st'.1 = None)
  /\ (is_sample_no_galaxy c = false -> param_mediansampler_no_galaxy st.1 = None ->
      param_mediansampler_no_galaxy st'.1 = None)
  /\ (is_sample_with_galaxy c = false -> param_mediansampler_with_galaxy st.1 = None ->
      param_mediansampler_with_galaxy st'.1 = None).
Proof.
  intros Hls. destruct st as [self h].
  destruct c; cbn [perform fst snd is_sample_no_galaxy is_sample_with_galaxy]; try done.
  - destruct (Hls (fun x => residuals_no_galaxy self h (PSeq x)) initial_guess) as [e Ee];
      [eexists; reflexivity|].
    unfold optimize_no_galaxy. by rewrite Ee.
  - destruct (Hls (fun x => residuals_with_galaxy self h (PSeq x)) initial_guess) as [e Ee];
      [eexists; reflexivity|].
    unfold optimize_with_galaxy. by rewrite Ee.
  - destruct (sample_no_galaxy _ _ _ _ _ _ _) as [self'|e] eqn:E; [|done].
    by apply sample_no_galaxy_assigns in E as [v ->].
  - destruct (sample_with_galaxy _ _ _ _ _ _) as [self'|e] eqn:E; [|done].
    by apply sample_with_galaxy_assigns in E as [v ->].
Qed.

Lemma calls_keep_params_unset (calls : list call) (st : SimpleLensedQuasarModel F * store F) :
  (forall f x0, (exists e, f x0 = Raise e) -> exists e, least_squares f x0 = Raise e) ->
  let st' := foldl (perform least_squares mcmc_medians_with_galaxy mcmc_medians_no_galaxy)
                   st calls in
  (param_optim_no_galaxy st.1 = None -> param_optim_no_galaxy st'.1 = None)
  /\ (param_optim_with_galaxy st.1 = None -> param_optim_with_galaxy st'.1 = None)
  /\ (forallb (fun c => negb (is_sample_no_galaxy c)) calls = true ->
      param_mediansampler_no_galaxy st.1 = None ->
      param_mediansampler_no_galaxy st'.1 = None)
  /\ (forallb (fun c => negb (is_sample_with_galaxy c)) calls = true ->
      param_mediansampler_with_galaxy st.1 = None ->
      param_mediansampler_with_galaxy st'.1 = None).
Proof.
  intros Hls. revert st. induction calls as [|c calls IH]; intros st; [done|].
  cbn [foldl forallb].
  destruct (IH (perform least_squares mcmc_medians_with_galaxy mcmc_medians_no_galaxy st c))
    as (I1 & I2 & I3 & I4).
  destruct (perform_keeps_params_unset st c Hls) as (P1 & P2 & P3 & P4).
  split; [auto|]. split; [auto|]. split.
  - intros [Hc Hcalls]%andb_prop Hst. apply I3; [done|]. apply P3; [|done].
    by destruct (is_sample_no_galaxy c).
  - intros [Hc Hcalls]%andb_prop Hst. apply I4; [done|]. apply P4; [|done].
    by destruct (is_sample_with_galaxy c).
Qed.

(** A solver that raises when the residuals raise at the initial guess never
    lets an optimizer method store a result.  So on an instance fresh from
    the constructor, whatever model, residual, chi-square and optimizer calls
    were made, a plot without a parameter set raises the [RuntimeError] of a
    missing fit until the matching sampler has been called; the branch that
    would plot the least-squares parameters is never taken. *)
Theorem plot_without_sampling_raises (d n p : loc) (s : Z) (bandnames : list string)
    (h h' : store F) (self : SimpleLensedQuasarModel F) (calls : list call) :
  (forall f x0, (exists e, f x0 = Raise e) -> exists e, least_squares f x0 = Raise e) ->
  __init__ d n p s bandnames h = (Ok self, h') ->
  let st := foldl (perform least_squares mcmc_medians_with_galaxy mcmc_medians_no_galaxy)
                  (self, h') calls in
  param_optim_no_galaxy st.1 = None /\ param_optim_with_galaxy st.1 = None
  /\ (forallb (fun c => negb (is_sample_no_galaxy c)) calls = true ->
      plot_model_no_galaxy st.1 st.2 None = RuntimeError)
  /\ (forallb (fun c => negb (is_sample_with_galaxy c)) calls = true ->
      plot_model_with_galaxy st.1 st.2 None = RuntimeError).
Proof.
  intros Hls Einit st.
  destruct (init_params_unset _ _ _ _ _ _ _ _ Einit) as (U1 & U2 & U3 & U4).
  destruct (calls_keep_params_unset calls (self, h') Hls) as (C1 & C2 & C3 & C4).
  fold st in C1, C2, C3, C4. cbn [fst] in C1, C2, C3, C4.
  split; [auto|]. split; [auto|]. split.
  - intros Hcalls. unfold plot_model_no_galaxy. by rewrite C3, C1.
  - intros Hcalls. unfold plot_model_with_galaxy. by rewrite C4, C2.
Qed.

End PlotDefaults.

Lemma plot_without_sampling_raises_witness :
  exists self h',
    __init__ 0 1 2 2 ["g"] tiny_store = (Ok self, h')
    /\ let st := foldl (perform one_step_least_squares no_samples_with_galaxy
                                no_samples_no_galaxy)
                       (self, h')
                       [Call_optimize_no_galaxy [0%R; 1%R]; Call_model_no_galaxy tiny_params]
       in plot_model_no_galaxy st.1 st.2 None = RuntimeError.
Proof.
  assert (exists self h', __init__ 0 1 2 2 ["g"] tiny_store = (Ok self, h'))
    as (self & h' & Einit) by (eexists _, _; reflexivity).
  exists self, h'. split; [exact Einit|].
  refine (proj1 (proj2 (proj2 (plot_without_sampling_raises one_step_least_squares
            no_samples_with_galaxy no_samples_no_galaxy 0 1 2 2 ["g"] tiny_store h' self
            [Call_optimize_no_galaxy [0%R; 1%R]; Call_model_no_galaxy tiny_params]
            _ Einit))) eq_refl).
  intros f x0 [e E]. exists e. unfold one_step_least_squares. by rewrite E.
Defined.
